(** * Social link prediction by effective resistance

    A shallow embedding of [SocialLinkPrediction.ipynb]: the matrix index,
    the Drazin-inverse test and solver, the graph Laplacian, the
    effective-resistance matrix and the [LinkPredictor] class.

    Arrays of floats are modelled as MathComp matrices over an arbitrary
    real field [F]: [@] is [mulmx], and [la.inv] is [invmx] on invertible
    matrices and raises otherwise.  The primitives whose results decide a
    branch or are external are parameters of the development: [la.det],
    [np.linalg.matrix_rank] and [np.dot] in [index], whose floating-point
    results are not the exact determinant, rank and product, and
    [la.schur], described by its contract where a result depends on it. *)

From HB Require Import structures.
From mathcomp Require Import boot order algebra.
From Stdlib Require Import Strings.String Strings.Ascii.

Set Implicit Arguments.
Unset Strict Implicit.
Unset Printing Implicit Defensive.
Set Warnings "-rewrite-rw".

Import Order.Theory GRing.Theory Num.Theory.
Local Open Scope ring_scope.

(** * The program *)

(** ** NumPy helpers *)

Section Closeness.

Variable F : realFieldType.

(** Default tolerances of [np.isclose] and [np.allclose]. *)
Definition rtol : F := 10%:R ^- 5.
Definition atol : F := 10%:R ^- 8.

(** [np.isclose(a, b)]: [|a - b| <= atol + rtol * |b|]. *)
Definition isclose (a b : F) : bool := `|a - b| <= atol + rtol * `|b|.

(** [np.allclose(A, B)]: every entry of [A] is close to that of [B]. *)
Definition allclose m n (A B : 'M[F]_(m, n)) : bool :=
  [forall i, [forall j, isclose (A i j) (B i j)]].

(** [nla.matrix_power(A, k)]. *)
Definition matrix_power n (A : 'M[F]_n) (k : nat) : 'M[F]_n :=
  iter k (mulmx A) 1%:M.

End Closeness.

(** ** [index]: the index of a matrix *)

(** The primitives that [index] calls: [la.det], [np.linalg.matrix_rank]
    and [np.dot].  On arrays of floats they round, the rank is read off
    the singular values above a cutoff, and a product may underflow; on
    arrays of integers the product wraps around.  Nothing is assumed of
    them here. *)
Record linalg (F : realFieldType) : Type := Linalg {
  la_det : forall n, 'M[F]_n -> F;
  matrix_rank : forall n, 'M[F]_n -> nat;
  np_dot : forall n, 'M[F]_n -> 'M[F]_n -> 'M[F]_n
}.

Section Index.

Variable F : realFieldType.
Variable np : linalg F.
Variable n : nat.
Implicit Types A Ak : 'M[F]_n.

(** The loop [while k <= n] of [index].  It is entered with [k = 1], so it
    runs its body at most [n] times; [m] counts the iterations that are
    left ([m = n + 1 - k]), and the final [return k] is reached with
    [m = 0], that is with [k = n + 1]. *)
Fixpoint index_loop A (m k : nat) Ak : nat :=
  if m is m'.+1 then
    let r1 := matrix_rank np Ak in
    let r2 := matrix_rank np (np_dot np A Ak) in
    if r1 == r2 then k
    else index_loop A m' k.+1 (np_dot np A Ak)
  else k.

(** [index(A, tol=1e-5)].  The argument [tol] is not used by the body: the
    test for non-singularity is [np.isclose(la.det(A), 0)] with the default
    tolerances. *)
Definition index A (tol : F) : nat :=
  if ~~ isclose (la_det np A) 0 then 0%N
  else index_loop A n 1 A.

End Index.

(** ** [is_drazin]: the test for a Drazin inverse *)

Section IsDrazin.

Variable F : realFieldType.
Variable n : nat.

(** [is_drazin(A, Ad, k)]: the three identities, each up to [np.allclose]. *)
Definition is_drazin (A Ad : 'M[F]_n) (k : nat) : bool :=
  [&& allclose (A *m Ad) (Ad *m A),
      allclose (matrix_power A k.+1 *m Ad) (matrix_power A k) &
      allclose (Ad *m A *m Ad) Ad].

End IsDrazin.

(** ** [drazin_inverse] *)

(** What [la.schur(A, sort=...)] returns: the Schur form [T], the basis [Z]
    and [sdim], the number of eigenvalues the sort predicate selects. *)
Definition schur_result (F : realFieldType) (n : nat) : Type :=
  ('M[F]_n * 'M[F]_n * nat)%type.

(** The type of [la.schur], at every size. *)
Definition schur_fun (F : realFieldType) : Type :=
  forall n, 'M[F]_n -> (F -> bool) -> schur_result F n.

Section Slices.

Variable F : realFieldType.

(** The column [j - k] of an array with [n] columns, for a column [j]. *)
Definition ord_sub n (j : 'I_n) (k : nat) : 'I_n :=
  Ordinal (leq_ltn_trans (leq_subr k j) (ltn_ord j)).

(** [np.hstack((Q1[:,:k], Q2[:,:n-k]))] for [k <= n]: the first [k] columns
    of [Q1], then the first [n - k] columns of [Q2]. *)
Definition hstack_lead n (k : nat) (Q1 Q2 : 'M[F]_n) : 'M[F]_n :=
  \matrix_(i, j) if (j < k)%N then Q1 i j else Q2 i (ord_sub j k).

(** [V[:k,:k]] for [k <= n]. *)
Definition lead_block n (k : nat) (V : 'M[F]_n) : 'M[F]_k :=
  \matrix_(i, j)
    match insub (val i), insub (val j) with
    | Some i', Some j' => V i' j'
    | _, _ => 0
    end.

(** [Z = np.zeros((n,n))] followed by [Z[:k,:k] = M]. *)
Definition zeros_with_lead n (k : nat) (M : 'M[F]_k) : 'M[F]_n :=
  \matrix_(i, j)
    match insub (val i), insub (val j) with
    | Some i', Some j' => M i' j'
    | _, _ => 0
    end.

(** [la.inv]: the inverse, or [None] for the [LinAlgError] raised on a
    singular matrix. *)
Definition la_inv n (A : 'M[F]_n) : option 'M[F]_n :=
  if A \in unitmx then Some (invmx A) else None.

End Slices.

Section DrazinInverse.

Variable F : realFieldType.
Variable la_schur : schur_fun F.
Variable n : nat.

(** [drazin_inverse(A, tol=1e-4)].  [sdim] never exceeds [n]; on a larger
    value the slices would not form a square [U], which [la.inv] refuses. *)
Definition drazin_inverse (A : 'M[F]_n) (tol : F) : option 'M[F]_n :=
  let f := fun x : F => `|x| > tol in
  let g := fun x : F => `|x| <= tol in
  let: (T1, Q1, k1) := la_schur A f in
  let: (T2, Q2, k2) := la_schur A g in
  if (k1 <= n)%N then
    let U := hstack_lead k1 Q1 Q2 in
    if la_inv U is Some U_inv then
      let V := U_inv *m A *m U in
      if k1 != 0%N then
        if la_inv (lead_block k1 V) is Some M_inv then
          Some (U *m zeros_with_lead n M_inv *m U_inv)
        else None
      else Some (U *m (0 : 'M[F]_n) *m U_inv)
    else None
  else None.

End DrazinInverse.

(** The default [tol] of [drazin_inverse]. *)
Definition drazin_tol (F : realFieldType) : F := 10%:R ^- 4.

(** ** [laplacian] and [effective_resistance] *)

Section Resistance.

Variable F : realFieldType.
Variable la_schur : schur_fun F.
Variable n : nat.

(** [laplacian(A)]: [D] carries the sum of each row on its diagonal. *)
Definition laplacian (A : 'M[F]_n) : 'M[F]_n :=
  let D := \matrix_(i, j) if i == j then \sum_k A i k else 0 in
  D - A.

(** [scipy.sparse.csgraph.laplacian(A)] with its default arguments, on a
    dense array: the diagonal of [A] is cleared, the degree of a node is
    the sum of its column, and [L = diag(degree) - A]. *)
Definition csg_laplacian (A : 'M[F]_n) : 'M[F]_n :=
  \matrix_(i, j) if i == j then \sum_(k | k != i) A k i else - A i j.

(** [M[j] = v]: the assignment of a row. *)
Definition set_row (M : 'M[F]_n) (j : 'I_n) (v : 'rV[F]_n) : 'M[F]_n :=
  \matrix_(i, c) if i == j then v 0 c else M i c.

(** [np.diag(M)]. *)
Definition np_diag (M : 'M[F]_n) : 'rV[F]_n := \row_c M c c.

(** One turn of the loop of [effective_resistance], on the matrix [R]
    filled so far. *)
Definition resistance_step (L : 'M[F]_n) (oR : option 'M[F]_n) (j : 'I_n) :
    option 'M[F]_n :=
  if oR is Some R then
    let Lcopy := set_row L j (row j 1%:M) in
    if drazin_inverse la_schur Lcopy (drazin_tol F) is Some Lj then
      Some (set_row R j (np_diag Lj))
    else None
  else None.

(** [effective_resistance(A)]. *)
Definition effective_resistance (A : 'M[F]_n) : option 'M[F]_n :=
  let L := csg_laplacian A in
  let R := (0 : 'M[F]_n) in
  if foldl (resistance_step L) (Some R) (enum 'I_n) is Some R' then
    Some (R' - 1%:M)
  else None.

End Resistance.

(** ** Python dictionaries, exceptions and array indexing *)

HB.instance Definition _ := hasDecEq.Build string String.eqb_spec.

(** A [dict], in insertion order. *)
Definition dict (K V : Type) : Type := seq (K * V).

Section Dict.

Variables (K : eqType) (V : Type).

(** [d.keys()]. *)
Definition dict_keys (d : dict K V) : seq K := [seq kv.1 | kv <- d].

(** [d[k]], or [None] for a [KeyError]. *)
Fixpoint dict_get (d : dict K V) (k : K) : option V :=
  if d is (k', v) :: d' then
    if k' == k then Some v else dict_get d' k
  else None.

(** [d[k] = v]. *)
Fixpoint dict_set (d : dict K V) (k : K) (v : V) : dict K V :=
  if d is (k', v') :: d' then
    if k' == k then (k, v) :: d' else (k', v') :: dict_set d' k v
  else [:: (k, v)].

End Dict.

(** The exceptions of the class and of the calls it makes. *)
Variant exn : Type :=
  | ValueError of string
  | KeyError
  | IndexError
  | LinAlgError.

(** The outcome of a call: an exception or a value. *)
Definition result (T : Type) : Type := (exn + T)%type.

Definition raise {T : Type} (e : exn) : result T := inl e.
Definition ret {T : Type} (x : T) : result T := inr x.
Definition bind {T U : Type} (r : result T) (k : T -> result U) : result U :=
  match r with inl e => inl e | inr x => k x end.
Definition or_raise {T : Type} (e : exn) (o : option T) : result T :=
  if o is Some x then inr x else inl e.

Notation "x <- r ;; k" := (bind r (fun x => k))
  (at level 100, r at next level, right associativity).

Section Arrays.

Variable F : realFieldType.

(** [np.argmin] of a one-dimensional array: the first position of the
    minimum, scanning from the left with the best value so far. *)
Fixpoint argmin_from (best : F) (ibest i : nat) (s : seq F) : nat :=
  if s is x :: s' then
    if x < best then argmin_from x i i.+1 s'
    else argmin_from best ibest i.+1 s'
  else ibest.

Definition argmin (s : seq F) : result nat :=
  if s is x :: s' then ret (argmin_from x 0 1 s')
  else raise (ValueError "attempt to get argmin of an empty sequence").

Variable n : nat.

(** A row of a two-dimensional array, and the array flattened in C order
    (row after row), as [M.argmin()] reads it. *)
Definition row_seq (M : 'M[F]_n) (i : 'I_n) : seq F :=
  [seq M i j | j <- enum 'I_n].

Definition mx_flat (M : 'M[F]_n) : seq F :=
  flatten [seq row_seq M i | i <- enum 'I_n].

(** [M[i]] for an integer [i]. *)
Definition mx_row (M : 'M[F]_n) (i : nat) : result (seq F) :=
  if insub i is Some i' then ret (row_seq M i') else raise IndexError.

(** [np.unravel_index(k, (n, n))]. *)
Definition unravel_index (k : nat) : nat * nat := (k %/ n, k %% n)%N.

(** [M[i,j] = v] and [M[i,j] += v] for integers [i] and [j]. *)
Definition mx_set (M : 'M[F]_n) (i j : nat) (v : F) : result 'M[F]_n :=
  if (i < n)%N && (j < n)%N then
    ret (\matrix_(a, b) if (val a == i) && (val b == j) then v else M a b)
  else raise IndexError.

Definition mx_add (M : 'M[F]_n) (i j : nat) (v : F) : result 'M[F]_n :=
  if (i < n)%N && (j < n)%N then
    ret (\matrix_(a, b) if (val a == i) && (val b == j) then M a b + v
                        else M a b)
  else raise IndexError.

End Arrays.

(** ** The class [LinkPredictor] *)

(** The name pairs of the file, as the constructor has them after
    splitting the lines. *)
Definition name_pairs : Type := seq (string * string).

Section Names.

(** The two dictionaries and the counter [i] of the constructor. *)
Definition dicts : Type := (dict string nat * dict nat string * nat)%type.

(** [if name not in index_dict.keys(): ...] *)
Definition add_name (d : dicts) (name : string) : dicts :=
  let: (index_dict, name_dict, i) := d in
  if name \notin dict_keys index_dict then
    (dict_set index_dict name i, dict_set name_dict i name, i.+1)
  else d.

(** The first loop of the constructor. *)
Definition build_dicts (ff : name_pairs) : dicts :=
  foldl (fun d pair => add_name (add_name d pair.1) pair.2)
        ([::], [::], 0%N) ff.

(** [len(index_dict)], the size of the matrices. *)
Definition node_count (ff : name_pairs) : nat := size (build_dicts ff).1.1.

End Names.

Section LinkPredictor.

Variable F : realFieldType.
Variable la_schur : schur_fun F.

(** The attributes of an object of the class, on [n] nodes. *)
Record LinkPredictor (n : nat) : Type := {
  self_R : 'M[F]_n;
  self_names_list : name_pairs;
  self_index_dict : dict string nat;
  self_name_dict : dict nat string;
  self_A : 'M[F]_n
}.

(** The second loop of the constructor: [A[ind1,ind2] += 1] and
    [A[ind2,ind1] += 1] for every pair. *)
Definition connect n (index_dict : dict string nat)
    (rA : result 'M[F]_n) (pair : string * string) : result 'M[F]_n :=
  A <- rA ;;
  ind1 <- or_raise KeyError (dict_get index_dict pair.1) ;;
  ind2 <- or_raise KeyError (dict_get index_dict pair.2) ;;
  A1 <- mx_add A ind1 ind2 1 ;;
  mx_add A1 ind2 ind1 1.

(** [LinkPredictor.__init__], from the pairs [ff] read from the file. *)
Definition init (ff : name_pairs) : result (LinkPredictor (node_count ff)) :=
  let index_dict := (build_dicts ff).1.1 in
  let name_dict := (build_dicts ff).1.2 in
  A <- foldl (connect index_dict) (ret 0) ff ;;
  R <- or_raise LinAlgError (effective_resistance la_schur A) ;;
  ret {| self_R := R; self_names_list := ff; self_index_dict := index_dict;
         self_name_dict := name_dict; self_A := A |}.

(** What [predict_link] returns: a pair of names, or one name. *)
Variant prediction : Type :=
  | NamePair of string & string
  | Friend of string.

(** [LinkPredictor.predict_link(node=None)]. *)
Definition predict_link n (self : LinkPredictor n) (node : option string) :
    result prediction :=
  let R_mute := 999%:R *: (self_A self + 1%:M) + self_R self in
  if node is Some node then
    if node \notin dict_keys (self_index_dict self) then
      raise (ValueError "Node not in graph")
    else
      index1 <- or_raise KeyError (dict_get (self_index_dict self) node) ;;
      r <- mx_row R_mute index1 ;;
      index2 <- argmin r ;;
      friend <- or_raise KeyError (dict_get (self_name_dict self) index2) ;;
      ret (Friend friend)
  else
    k <- argmin (mx_flat R_mute) ;;
    let index_pair := unravel_index n k in
    name1 <- or_raise KeyError (dict_get (self_name_dict self) index_pair.1) ;;
    name2 <- or_raise KeyError (dict_get (self_name_dict self) index_pair.2) ;;
    ret (NamePair name1 name2).

(** A method that may assign to the attributes of [self]: it returns its
    outcome and the object as the call leaves it, also when it raises. *)
Definition method (n : nat) (T : Type) : Type :=
  LinkPredictor n -> result T * LinkPredictor n.

Definition lift_result n T (r : result T) : method n T :=
  fun self => (r, self).

Definition bind_method n T U (m : method n T) (k : T -> method n U) :
    method n U :=
  fun self =>
    match m self with
    | (inl e, self') => (inl e, self')
    | (inr x, self') => k x self'
    end.

(** [self.A[i,j] = v]. *)
Definition set_A n (i j : nat) (v : F) : method n unit :=
  fun self =>
    match mx_set (self_A self) i j v with
    | inl e => (inl e, self)
    | inr A' =>
        (ret tt,
         {| self_R := self_R self; self_names_list := self_names_list self;
            self_index_dict := self_index_dict self;
            self_name_dict := self_name_dict self; self_A := A' |})
    end.

(** [LinkPredictor.add_link(node1, node2)]. *)
Definition add_link n (node1 node2 : string) : method n unit :=
  fun self =>
    if (node1 \notin dict_keys (self_index_dict self))
       || (node2 \notin dict_keys (self_index_dict self)) then
      (raise (ValueError "nodes need to be in the graph"), self)
    else
      bind_method
        (lift_result (or_raise KeyError (dict_get (self_index_dict self) node1)))
        (fun index1 =>
      bind_method
        (lift_result (or_raise KeyError (dict_get (self_index_dict self) node2)))
        (fun index2 =>
      bind_method (set_A index1 index2 1) (fun _ =>
      set_A index2 index1 1))) self.

(** The calls a client makes on an object, and the object after a call. *)
Variant call : Type :=
  | PredictLink of option string
  | AddLink of string & string.

Definition after n (self : LinkPredictor n) (c : call) : LinkPredictor n :=
  match c with
  | PredictLink _ => self
  | AddLink node1 node2 => (add_link node1 node2 self).2
  end.

End LinkPredictor.

(** ** Reading the file *)

Section ReadFile.

(** [s.split(sep)] for a separator of one character: the fields between
    the occurrences of [sep]; one more field than occurrences, so never an
    empty list (the last branch below is not reached). *)
Fixpoint py_split (sep : ascii) (s : string) : seq string :=
  match s with
  | EmptyString => [:: EmptyString]
  | String c s' =>
      if Ascii.eqb c sep then EmptyString :: py_split sep s'
      else if py_split sep s' is f :: fs then String c f :: fs
           else [:: String c EmptyString]
  end.

(** [ff[:-1]]. *)
Definition drop_last (T : Type) (s : seq T) : seq T :=
  if s is x :: s' then belast x s' else [::].

Definition newline : ascii := ascii_of_nat 10.
Definition comma : ascii := ascii_of_nat 44.

(** The list [ff] of the constructor, from the text that
    [readfile.read()] returns: the lines, each one split at its commas,
    without the last one. *)
Definition read_rows (text : string) : seq (seq string) :=
  drop_last [seq py_split comma line | line <- py_split newline text].

(** [pair[0]] and [pair[1]] of a row with two fields at least. *)
Definition row_pair (row : seq string) : string * string :=
  (nth EmptyString row 0, nth EmptyString row 1).

Definition rows_pairs (rows : seq (seq string)) : name_pairs :=
  [seq row_pair row | row <- rows].

End ReadFile.

Section InitText.

Variable F : realFieldType.
Variable la_schur : schur_fun F.

(** An object of the class, on the number of nodes its file has. *)
Definition any_LinkPredictor : Type := {n : nat & LinkPredictor F n}.

(** The constructor from the rows of the file.  [pair[1]] raises an
    [IndexError] on a row with one field, in the first loop, before
    anything else can fail; [pair[0]] always exists.  The loops read the
    first two fields of a row only; [names_list] is kept as these two
    names. *)
Definition init_rows (rows : seq (seq string)) : result any_LinkPredictor :=
  if all (fun row => 1 < size row)%N rows then
    self <- init la_schur (rows_pairs rows) ;;
    ret (existT _ _ self)
  else raise IndexError.

(** [LinkPredictor.__init__], from the text that [readfile.read()]
    returns.  The file opened is always [social_network.csv]: the
    argument [filename] is not used. *)
Definition init_text (text : string) : result any_LinkPredictor :=
  init_rows (read_rows text).

End InitText.

(** * Definitions for the statements and for the evaluations *)

(** ** Well-formed and reachable objects *)

Section Invariant.

Variable F : realFieldType.
Variable la_schur : schur_fun F.

(** The two dictionaries are inverse bijections between the names and the
    indices [0..n-1]. *)
Definition wf n (self : LinkPredictor F n) : bool :=
  [&& size (self_index_dict self) == n,
      uniq (dict_keys (self_index_dict self)),
      all (fun kv => (kv.2 < n)%N &&
                     (dict_get (self_name_dict self) kv.2 == Some kv.1))
          (self_index_dict self) &
      all (fun i => if dict_get (self_name_dict self) i is Some name then
                      dict_get (self_index_dict self) name == Some i
                    else false)
          (iota 0 n)].

(** The objects a client can hold: what the constructor returns, and what
    the calls leave. *)
Inductive reachable : forall n, LinkPredictor F n -> Prop :=
  | reachable_init ff self :
      init la_schur ff = inr self -> reachable self
  | reachable_after n (self : LinkPredictor F n) c :
      reachable self -> reachable (after self c).

(** The matrix [R_mute] of [predict_link]. *)
Definition R_mute n (self : LinkPredictor F n) : 'M[F]_n :=
  999%:R *: (self_A self + 1%:M) + self_R self.

End Invariant.

(** ** The primitives of [index] *)

Section Primitives.

Variable F : realFieldType.

(** The primitives in exact arithmetic. *)
Definition exact_linalg : linalg F :=
  {| la_det := fun n A => \det A;
     matrix_rank := fun n A => \rank A;
     np_dot := fun n A B => A *m B |}.

(** The array [Ak] of the loop of [index] when the counter is [k]: [A]
    for [k = 1], then [np.dot(A, Ak)] at every turn. *)
Definition np_power (np : linalg F) n (A : 'M[F]_n) (k : nat) : 'M[F]_n :=
  iter k.-1 (np_dot np A) A.

(** The primitives are exact on [A] and on its powers [A^k], [k >= 1]:
    on the determinant, the products and the ranks that [index] asks
    for. *)
Definition exact_on (np : linalg F) n (A : 'M[F]_n) : Prop :=
  [/\ la_det np A = \det A,
      forall k, np_dot np A (matrix_power A k.+1) = A *m matrix_power A k.+1 &
      forall k, matrix_rank np (matrix_power A k.+1)
                = \rank (matrix_power A k.+1)].

(** A float64 result that underflows: rounding to the nearest float sends
    a real below half the least positive float, [2^-1075], to zero.  The
    other roundings are not modelled. *)
Definition underflow (x : F) : F := if `|x| < 2%:R ^- 1075 then 0 else x.

(** The primitives with a product that underflows.  On an array with one
    entry, [la.det] returns the entry and [np.linalg.matrix_rank] tells
    whether it is zero, as the exact determinant and rank do. *)
Definition underflow_linalg : linalg F :=
  {| la_det := fun n A => \det A;
     matrix_rank := fun n A => \rank A;
     np_dot := fun n A B => map_mx underflow (A *m B) |}.

(** The 1 by 1 matrix [[1e-200]]. *)
Definition tiny_scalar : 'M[F]_1 := (10%:R ^- 200)%:M.

End Primitives.

(** ** The contract of [la.schur] *)

Section SchurContract.

Variable F : realFieldType.
Variable la_schur : schur_fun F.

(** What [la.schur(A, sort=...)] guarantees for [(T, Z, sdim)], on a matrix
    with real eigenvalues: [Z] is invertible (it is orthogonal),
    [A Z = Z T], [T] is upper triangular, and the eigenvalues that [sort]
    selects are the first [sdim] entries of the diagonal of [T]. *)
Definition schur_ok n (A : 'M[F]_n) (sort : F -> bool)
    (r : schur_result F n) : Prop :=
  [/\ r.1.2 \in unitmx,
      A *m r.1.2 = r.1.2 *m r.1.1,
      is_trig_mx r.1.1^T,
      (r.2 <= n)%N &
      forall i : 'I_n, (i < r.2)%N = sort (r.1.1 i i)].

Variable n : nat.
Implicit Types (A : 'M[F]_n).

(** The matrix [Lcopy] of the turn [j] of the loop: the Laplacian with its
    row [j] replaced by that of the identity. *)
Definition grounded A (j : 'I_n) : 'M[F]_n :=
  set_row (csg_laplacian A) j (row j 1%:M).

(** [la.schur] keeps its contract on the two calls that [drazin_inverse]
    makes on [A]. *)
Definition schur_ok_on A (tol : F) : Prop :=
  schur_ok A (fun x => tol < `|x|) (la_schur A (fun x => tol < `|x|)) /\
  schur_ok A (fun x => `|x| <= tol) (la_schur A (fun x => `|x| <= tol)).

End SchurContract.

(** ** The invariant of the dictionaries *)

(** The invariant of the first loop of the constructor. *)
Definition dicts_inv (d : dicts) : Prop :=
  let: (index_dict, name_dict, i) := d in
  [/\ size index_dict = i,
      uniq (dict_keys index_dict),
      forall name j, dict_get index_dict name = Some j ->
        (j < i)%N /\ dict_get name_dict j = Some name &
      forall j, (j < i)%N ->
        exists2 name, dict_get name_dict j = Some name &
                      dict_get index_dict name = Some j].

(** ** Bases and blocks for [drazin_inverse] *)

Section CoreDefinitions.

Variable F : realFieldType.

(** The product of the factors [A - c] over a list of scalars [c]. *)
Definition lin_prod n (A : 'M[F]_n) (s : seq F) : 'M[F]_n :=
  foldr (fun c B => (A - c%:M) *m B) 1%:M s.

Section Leading.

Variables n p : nat.
Hypothesis le_pn : (p <= n)%N.

(** The first [p] columns of an array, and its leading [p] by [p] block. *)
Definition lead_cols (Q : 'M[F]_n) : 'M[F]_(n, p) :=
  \matrix_(i, j) Q i (widen_ord le_pn j).

Definition lead_sq (T : 'M[F]_n) : 'M[F]_p :=
  \matrix_(i, j) T (widen_ord le_pn i) (widen_ord le_pn j).

End Leading.

Variables k m : nat.

(** The basis assembled from the first [k] columns of one triangularizing
    basis and the first [m] columns of another, and the block form of the
    matrix in that basis. *)
Definition core_basis (Q Q' : 'M[F]_(k + m)) : 'M[F]_(k + m) :=
  row_mx (lead_cols (leq_addr m k) Q) (lead_cols (leq_addl k m) Q').

Definition core_form (T T' : 'M[F]_(k + m)) : 'M[F]_(k + m) :=
  block_mx (lead_sq (leq_addr m k) T) 0 0 (lead_sq (leq_addl k m) T').

End CoreDefinitions.

(** ** A Schur decomposition for triangular matrices, and one read from a
    table *)

Section SchurOracles.

Variable F : realFieldType.

(** The matrix of the permutation that reverses the order of the basis. *)
Definition rev_mx n : 'M[F]_n := \matrix_(i, j) (i == rev_ord j)%:R.

(** A Schur decomposition of a triangular matrix, with [sdim] counted on
    its diagonal: an upper triangular matrix is its own Schur form, and a
    lower triangular one becomes upper triangular in the reversed basis. *)
Definition schur_ref : schur_fun F := fun n A sort =>
  let sdim := count (fun i : 'I_n => sort (A i i)) (enum 'I_n) in
  if is_trig_mx A then (rev_mx n *m A *m rev_mx n, rev_mx n, sdim)
  else (A, 1%:M, sdim).

(** An array written as the list of its rows, and the matrix it denotes. *)
Definition seq_entry (a : seq (seq F)) (i j : nat) : F :=
  nth 0 (nth [::] a i) j.

Definition mx_of n (a : seq (seq F)) : 'M[F]_n :=
  \matrix_(i, j) seq_entry a i j.

Definition seq_tab n (f : nat -> nat -> F) : seq (seq F) :=
  [seq [seq f i j | j <- iota 0 n] | i <- iota 0 n].

Definition seq_sum n (f : nat -> F) : F :=
  foldr (fun k s => f k + s) 0 (iota 0 n).

Definition seq_mul n (a b : seq (seq F)) : seq (seq F) :=
  seq_tab n (fun i j => seq_sum n (fun k => seq_entry a i k * seq_entry b k j)).

Definition seq_one n : seq (seq F) := seq_tab n (fun i j => (i == j)%:R).

Definition seq_upper n (a : seq (seq F)) : bool :=
  all (fun i => all (fun j => seq_entry a i j == 0) (iota 0 i)) (iota 0 n).

Definition seq_diag n (a : seq (seq F)) : seq F :=
  [seq seq_entry a i i | i <- iota 0 n].

Definition seq_sorted n (sort : F -> bool) (a : seq (seq F)) : bool :=
  all (fun i => (i < count sort (seq_diag n a))%N == sort (seq_entry a i i))
      (iota 0 n).

(** The grounded Laplacians of an array, row by row. *)
Definition seq_laplacian n (a : seq (seq F)) : seq (seq F) :=
  seq_tab n (fun i j =>
    if i == j then seq_sum n (fun k => if k != i then seq_entry a k i else 0)
    else - seq_entry a i j).

Definition seq_grounded n (a : seq (seq F)) (j : nat) : seq (seq F) :=
  seq_tab n (fun i c =>
    if i == j then (j == c)%:R else seq_entry (seq_laplacian n a) i c).

(** An entry of a table of Schur decompositions: a Schur form [T], the
    basis [Z] and the inverse of [Z]. *)
Definition schur_entry : Type :=
  (seq (seq F) * seq (seq F) * seq (seq F))%type.

Definition entry_result n (sort : F -> bool) (e : schur_entry) :
    schur_result F n :=
  let: (t, z, zi) := e in
  (mx_of n t, mx_of n z, count sort (seq_diag n t)).

(** The entry is a Schur decomposition of [A], sorted by [sort]. *)
Definition entry_ok n (sort : F -> bool) (A : 'M[F]_n) (e : schur_entry) :
    bool :=
  let: (t, z, zi) := e in
  [&& A *m mx_of n z == mx_of n z *m mx_of n t,
      seq_mul n z zi == seq_one n,
      seq_upper n t &
      seq_sorted n sort t].

(** A [la.schur] that looks its answer up in a table: the first entry that
    is a Schur decomposition of [A] sorted by [sort]. *)
Definition schur_tab (table : seq schur_entry) : schur_fun F :=
  fun n A sort =>
    if [seq e <- table | entry_ok sort A e] is e :: _ then
      entry_result n sort e
    else (A, 1%:M, 0%N).

End SchurOracles.

(** ** Inputs on which the calls are evaluated *)

Section Inputs.

Variable F : realFieldType.

(** The adjacency matrix of two nodes joined by a link of weight [w]. *)
Definition two_nodes (w : F) : 'M[F]_2 :=
  \matrix_(i, j) if i == j then 0 else w.

(** A file with one line, and a file with the same line twice. *)
Definition ff_ab : name_pairs := [:: ("a"%string, "b"%string)].
Definition ff_abab : name_pairs :=
  [:: ("a"%string, "b"%string); ("a"%string, "b"%string)].

(** The object that the constructor builds from the file with one line. *)
Definition self_ab : LinkPredictor F 2 :=
  {| self_R := \matrix_(i, j) if i == j then 0 else 1^-1;
     self_names_list := ff_ab;
     self_index_dict := [:: ("a"%string, 0%N); ("b"%string, 1%N)];
     self_name_dict := [:: (0%N, "a"%string); (1%N, "b"%string)];
     self_A := two_nodes 1 |}.

(** The nilpotent matrix [[0,0],[1,0]], of index 2. *)
Definition nil_two : 'M[F]_2 := \matrix_(i, j) ((i == 1) && (j == 0))%:R.

(** The 1 by 1 matrix [[1e-5]]: not singular, yet within the tolerance
    [1e-4] of [drazin_inverse]. *)
Definition small_scalar : 'M[F]_1 := (10%:R ^- 5)%:M.

End Inputs.

(** A file with the lines [a,b], [c,d] and [c,d]: two components, the
    second one with a link of weight 2. *)
Definition ff_abcd : name_pairs :=
  [:: ("a"%string, "b"%string); ("c"%string, "d"%string);
      ("c"%string, "d"%string)].

(** Its adjacency matrix, as a list of rows and as a matrix. *)
Definition four_rows : seq (seq rat) :=
  [:: [:: 0; 1; 0; 0];
      [:: 1; 0; 0; 0];
      [:: 0; 0; 0; 2%:R];
      [:: 0; 0; 2%:R; 0]].

Definition four_nodes : 'M[rat]_4 := mx_of 4 four_rows.

(** Schur decompositions of the four grounded Laplacians of [four_nodes]:
    for each, one with the nonzero eigenvalues first and one with the
    eigenvalue [0] first. *)
Definition four_table : seq (schur_entry rat) := [::
  ([:: [:: 1; -1; 0; 0];
       [:: 0; 1; 0; 0];
       [:: 0; 0; 4%:R; - 2%:R];
       [:: 0; 0; 0; 0]],
   [:: [:: 0; 1; 0; 0];
       [:: 1; 0; 0; 0];
       [:: 0; 0; -1; 1];
       [:: 0; 0; 1; 0]],
   [:: [:: 0; 1; 0; 0];
       [:: 1; 0; 0; 0];
       [:: 0; 0; 0; 1];
       [:: 0; 0; 1; 1]]);
  ([:: [:: 0; 0; 0; - 2%:R];
       [:: 0; 1; -1; 0];
       [:: 0; 0; 1; 0];
       [:: 0; 0; 0; 4%:R]],
   [:: [:: 0; 0; 1; 0];
       [:: 0; 1; 0; 0];
       [:: 1; 0; 0; 1];
       [:: 1; 0; 0; 0]],
   [:: [:: 0; 0; 0; 1];
       [:: 0; 1; 0; 0];
       [:: 1; 0; 0; 0];
       [:: 0; 0; 1; -1]]);
  ([:: [:: 1; -1; 0; 0];
       [:: 0; 1; 0; 0];
       [:: 0; 0; 4%:R; - 2%:R];
       [:: 0; 0; 0; 0]],
   [:: [:: 1; 0; 0; 0];
       [:: 0; 1; 0; 0];
       [:: 0; 0; -1; 1];
       [:: 0; 0; 1; 0]],
   [:: [:: 1; 0; 0; 0];
       [:: 0; 1; 0; 0];
       [:: 0; 0; 0; 1];
       [:: 0; 0; 1; 1]]);
  ([:: [:: 0; 0; 0; - 2%:R];
       [:: 0; 1; -1; 0];
       [:: 0; 0; 1; 0];
       [:: 0; 0; 0; 4%:R]],
   [:: [:: 0; 1; 0; 0];
       [:: 0; 0; 1; 0];
       [:: 1; 0; 0; 1];
       [:: 1; 0; 0; 0]],
   [:: [:: 0; 0; 0; 1];
       [:: 1; 0; 0; 0];
       [:: 0; 1; 0; 0];
       [:: 0; 0; 1; -1]]);
  ([:: [:: 2%:R; 0; 0; -1];
       [:: 0; 1; - 2%:R; 0];
       [:: 0; 0; 2%:R; 0];
       [:: 0; 0; 0; 0]],
   [:: [:: -1; 0; 0; 1];
       [:: 1; 0; 0; 0];
       [:: 0; 2%:R^-1; 1; 0];
       [:: 0; 1; 0; 0]],
   [:: [:: 0; 1; 0; 0];
       [:: 0; 0; 0; 1];
       [:: 0; 0; 1; - (2%:R^-1)];
       [:: 1; 1; 0; 0]]);
  ([:: [:: 0; -1; 0; 0];
       [:: 0; 2%:R; 0; 0];
       [:: 0; 0; 1; - 2%:R];
       [:: 0; 0; 0; 2%:R]],
   [:: [:: 1; 1; 0; 0];
       [:: 1; 0; 0; 0];
       [:: 0; 0; 2%:R^-1; 1];
       [:: 0; 0; 1; 0]],
   [:: [:: 0; 1; 0; 0];
       [:: 1; -1; 0; 0];
       [:: 0; 0; 0; 1];
       [:: 0; 0; 1; - (2%:R^-1)]]);
  ([:: [:: 2%:R; 0; 0; -1];
       [:: 0; 2%:R; - 2%:R; 0];
       [:: 0; 0; 1; 0];
       [:: 0; 0; 0; 0]],
   [:: [:: -1; 0; 0; 1];
       [:: 1; 0; 0; 0];
       [:: 0; 1; 0; 0];
       [:: 0; 0; 1; 0]],
   [:: [:: 0; 1; 0; 0];
       [:: 0; 0; 1; 0];
       [:: 0; 0; 0; 1];
       [:: 1; 1; 0; 0]]);
  ([:: [:: 0; -1; 0; 0];
       [:: 0; 2%:R; 0; 0];
       [:: 0; 0; 2%:R; - 2%:R];
       [:: 0; 0; 0; 1]],
   [:: [:: 1; 1; 0; 0];
       [:: 1; 0; 0; 0];
       [:: 0; 0; 1; 0];
       [:: 0; 0; 0; 1]],
   [:: [:: 0; 1; 0; 0];
       [:: 1; -1; 0; 0];
       [:: 0; 0; 1; 0];
       [:: 0; 0; 0; 1]])
].

(** The Drazin inverses of the Laplacians grounded at the first and at the
    third node. *)
Definition four_drazin0 : seq (seq rat) :=
  [:: [:: 1; 0; 0; 0];
      [:: 1; 1; 0; 0];
      [:: 0; 0; 8%:R^-1; - (8%:R^-1)];
      [:: 0; 0; - (8%:R^-1); 8%:R^-1]].


(** The node [i] of a graph on four nodes. *)
Definition node4 (i : nat) : (i < 4)%N -> 'I_4 := @Ordinal 4 i.

(** ** Definitions for the statements about the file *)

Section FileText.

(** [c in s]. *)
Fixpoint has_char (c : ascii) (s : string) : bool :=
  if s is String c' s' then Ascii.eqb c' c || has_char c s' else false.

(** A name that holds neither a comma nor a newline. *)
Definition plain (s : string) : bool :=
  ~~ has_char comma s && ~~ has_char newline s.

(** The text of a file with one line [name1,name2] for every pair, each
    line ended by a newline. *)
Definition render (ff : name_pairs) : string :=
  foldr (fun p text =>
           append p.1 (String comma (append p.2 (String newline text))))
        EmptyString ff.

(** The names of the file, in the order in which the first loop of the
    constructor meets them. *)
Definition names_of (ff : name_pairs) : seq string :=
  flatten [seq [:: p.1; p.2] | p <- ff].

(** The dictionaries and the counter before the first loop. *)
Definition no_dicts : dicts := ([::], [::], 0%N).

End FileText.

(** ** More inputs *)

(** A Schur decomposition of [nil_two] in the basis of the opposites of
    the two vectors, in reverse order. *)
Definition nil_table : seq (schur_entry rat) :=
  [:: ([:: [:: 0; 1]; [:: 0; 0]],
       [:: [:: 0; -1]; [:: -1; 0]],
       [:: [:: 0; -1]; [:: -1; 0]])].

(** * Facts *)

(** ** Facts about [index] *)

Section IndexFacts.

Variable F : realFieldType.

Lemma isclose_1_0 : isclose (1 : F) 0 = false.
Proof.
rewrite /isclose subr0 normr1 normr0 mulr0 addr0 /atol.
by apply/negbTE; rewrite -ltNge; lra.
Qed.

(** A matrix whose determinant is close to zero is not the empty matrix,
    whose determinant is 1. *)
Lemma isclose_det_pos n (A : 'M[F]_n) : isclose (\det A) 0 -> (0 < n)%N.
Proof. by case: n A => [|n] A //; rewrite det_mx00 isclose_1_0. Qed.

Section Loop.

Variable np : linalg F.
Variable n : nat.
Implicit Types A Ak : 'M[F]_n.

Lemma index_loopS A m k Ak :
  index_loop np A m.+1 k Ak =
    if matrix_rank np Ak == matrix_rank np (np_dot np A Ak) then k
    else index_loop np A m k.+1 (np_dot np A Ak).
Proof. by []. Qed.

(** Whatever the primitives return, the loop returns a counter between
    the one it was entered with and that counter plus the iterations
    left. *)
Lemma index_loop_bounds A m k Ak :
  (k <= index_loop np A m k Ak <= k + m)%N.
Proof.
elim: m k Ak => [|m IH] k Ak /=; first by rewrite addn0 leqnn.
case: ifP => _; first by rewrite leqnn leq_addr.
have /andP[lo hi] := IH k.+1 (np_dot np A Ak).
by rewrite (ltnW lo) addnS -addSn hi.
Qed.

(** The loop returns the first counter at which the two ranks it
    computes agree, or the counter it is left with when its iterations
    are used up. *)
Lemma index_loop_stop A m k :
  let r := index_loop np A m k.+1 (np_power np A k.+1) in
  [/\ (k < r <= (k + m).+1)%N,
      (r <= k + m)%N ->
        matrix_rank np (np_power np A r)
        = matrix_rank np (np_dot np A (np_power np A r)) &
      forall j, (k < j < r)%N ->
        matrix_rank np (np_power np A j)
        != matrix_rank np (np_dot np A (np_power np A j))].
Proof.
elim: m k => [|m IH] k; rewrite /index_loop -/(index_loop np) /=.
  rewrite addn0 ltnSn ltnn; split=> // j.
  by rewrite ltnS; case: ltngtP.
case: (@eqP _ (matrix_rank np (np_power np A k.+1))) => [req|/eqP rne].
  rewrite ltnSn ltnS leq_addr addnS ltnS leq_addr; split=> // j.
  by rewrite ltnS; case: ltngtP.
have [/andP[lo hi] stab first] := IH k.+1.
rewrite -/(np_power np A k.+2) addnS -addSn; split=> //.
  by rewrite (ltnW lo) hi.
move=> j /andP[]; rewrite leq_eqVlt => /orP[/eqP <- _ //|kj jr].
by apply: first; rewrite kj jr.
Qed.

End Loop.

Variable n : nat.
Implicit Types A Ak : 'M[F]_n.

Lemma matrix_powerS A k : matrix_power A k.+1 = A *m matrix_power A k.
Proof. by []. Qed.

Lemma matrix_power1 A : matrix_power A 1 = A.
Proof. by rewrite /matrix_power /= mulmx1. Qed.

Lemma rank_power_le A k :
  (\rank (matrix_power A k.+1) <= \rank (matrix_power A k))%N.
Proof. by rewrite matrix_powerS mxrankM_maxr. Qed.

(** With primitives that are exact on [A] and its powers, the array of
    the loop is the power of [A], and [index] returns what it returns in
    exact arithmetic. *)
Lemma np_power_exact (np : linalg F) A k :
  exact_on np A -> np_power np A k.+1 = matrix_power A k.+1.
Proof.
case=> _ dotE _; elim: k => [|k IH]; first by rewrite matrix_power1.
by rewrite /np_power /= -/(np_power np A k.+1) IH dotE.
Qed.

Lemma index_loop_exact (np : linalg F) A m k :
  exact_on np A ->
  index_loop np A m k.+1 (matrix_power A k.+1)
  = index_loop (exact_linalg F) A m k.+1 (matrix_power A k.+1).
Proof.
case=> detE dotE rankE; elim: m k => [//|m IH] k.
by rewrite !index_loopS dotE -matrix_powerS !rankE IH.
Qed.

Lemma index_exact (np : linalg F) A tol tol' :
  exact_on np A -> index np A tol = index (exact_linalg F) A tol'.
Proof.
move=> exact; have [detE _ _] := exact; rewrite /index detE /=.
by rewrite -[X in index_loop _ _ _ _ X]matrix_power1 index_loop_exact
  ?matrix_power1.
Qed.

(** In exact arithmetic the loop returns the first counter from [k] on at
    which the rank of the power stops decreasing, as long as the ranks
    leave room for it. *)
Lemma index_loop_first A m k :
  (m + k = n.+1)%N -> (\rank (matrix_power A k) + k <= n)%N ->
  let r := index_loop (exact_linalg F) A m k (matrix_power A k) in
  [/\ (k <= r <= n)%N,
      \rank (matrix_power A r) = \rank (matrix_power A r.+1) &
      forall j, (k <= j < r)%N ->
        \rank (matrix_power A j) != \rank (matrix_power A j.+1)].
Proof.
elim: m k => [|m IH] k.
  by rewrite add0n => ->; rewrite addnS ltnNge leq_addl.
rewrite addSnnS => mk rk /=.
have kn : (k <= n)%N by rewrite -ltnS -mk leq_addl.
rewrite -matrix_powerS; case: eqP => [req|/eqP rne].
  split=> //; first by rewrite leqnn.
  by move=> j; rewrite leqNgt andbC; case: (j < k)%N.
have lt_r : (\rank (matrix_power A k.+1) < \rank (matrix_power A k))%N.
  by rewrite ltn_neqAle eq_sym rne rank_power_le.
have rk' : (\rank (matrix_power A k.+1) + k.+1 <= n)%N.
  by rewrite addnS -addSn (leq_trans _ rk) // leq_add2r.
have [/andP[lo hi] stab first] := IH k.+1 mk rk'.
split=> //; first by rewrite (ltnW lo) hi.
move=> j /andP[]; rewrite leq_eqVlt => /orP[/eqP <- _ //|kj jr].
by apply: first; rewrite kj jr.
Qed.

(** The first iteration of the loop already stops on a matrix of full
    rank (which [np.isclose] may still have sent into the loop). *)
Lemma index_loop_full A m :
  (0 < m)%N -> \rank A = n -> index_loop (exact_linalg F) A m 1 A = 1%N.
Proof.
case: m => [//|m] _ rA /=; suff -> : \rank (A *m A) = \rank A by rewrite eqxx.
by rewrite eqmxMfull // /row_full rA.
Qed.

(** With the exact determinant, rank and product, [index] returns a value
    [k <= n]: [0] when the determinant is not close to zero, and otherwise
    the first [k] in [1..n] at which the rank of [A^k] equals the rank of
    [A^(k+1)]. *)
Lemma index_exact_spec A tol :
  [/\ (index (exact_linalg F) A tol <= n)%N,
      (~~ isclose (\det A) 0 -> index (exact_linalg F) A tol = 0%N) &
      (isclose (\det A) 0 ->
       [/\ (0 < index (exact_linalg F) A tol)%N,
           \rank (matrix_power A (index (exact_linalg F) A tol)) =
             \rank (matrix_power A (index (exact_linalg F) A tol).+1) &
           forall j, (0 < j < index (exact_linalg F) A tol)%N ->
             \rank (matrix_power A j) != \rank (matrix_power A j.+1)])].
Proof.
rewrite /index /=; case: ifPn => [ncl|]; first by split=> //; rewrite (negbTE ncl).
rewrite negbK => cl.
suff [le_n pos stab first] :
    [/\ (index_loop (exact_linalg F) A n 1 A <= n)%N,
        (0 < index_loop (exact_linalg F) A n 1 A)%N,
        \rank (matrix_power A (index_loop (exact_linalg F) A n 1 A)) =
          \rank (matrix_power A (index_loop (exact_linalg F) A n 1 A).+1) &
        forall j, (0 < j < index_loop (exact_linalg F) A n 1 A)%N ->
          \rank (matrix_power A j) != \rank (matrix_power A j.+1)].
  by split.
have [rA|rA] := eqVneq (\rank A) n.
  have n_gt0 := isclose_det_pos cl.
  rewrite index_loop_full //; split=> //.
    by rewrite !matrix_powerS /matrix_power /= !mulmx1 eqmxMfull // /row_full rA.
  by case.
have rk : (\rank (matrix_power A 1) + 1 <= n)%N.
  by rewrite matrix_power1 addn1 ltn_neqAle rA rank_leq_row.
have := @index_loop_first A n 1 (addn1 n) rk.
by rewrite matrix_power1 => -[/andP[lo hi] stab first]; split.
Qed.

(** X25: whatever [la.det], [np.linalg.matrix_rank] and [np.dot] return,
    [index] returns a value [k <= n + 1], and [0] exactly when
    [np.isclose(la.det(A), 0)] is false, for every [tol].  Otherwise [k]
    is the first counter in [1..n] at which the rank of the array [Ak] of
    the loop equals the rank of [np.dot(A, Ak)], and [n + 1] when there
    is none.  With the exact determinant, rank and product the value is
    never more than [n]. *)
Theorem index_spec (np : linalg F) A tol :
  [/\ (index np A tol <= n.+1)%N,
      (index np A tol == 0%N) = ~~ isclose (la_det np A) 0,
      (0 < index np A tol <= n)%N ->
        matrix_rank np (np_power np A (index np A tol))
        = matrix_rank np (np_dot np A (np_power np A (index np A tol))),
      (forall j, (0 < j < index np A tol)%N ->
         matrix_rank np (np_power np A j)
         != matrix_rank np (np_dot np A (np_power np A j))) &
      (index (exact_linalg F) A tol <= n)%N].
Proof.
have [exact_le _ _] := index_exact_spec A tol.
have [/andP[lo hi] stab first] := index_loop_stop np A n 0.
rewrite add0n in hi stab.
split=> //; rewrite /index; case: ifPn => // cl.
- by rewrite gtn_eqF.
- by case/andP.
- by move=> j; rewrite ltn0 andbF.
Qed.

End IndexFacts.

(** ** [index] on a matrix whose square underflows *)

Section TinyScalar.

Variable F : realFieldType.

Lemma tiny_scalar_det : \det (tiny_scalar F) = 10%:R ^- 200.
Proof. by rewrite /tiny_scalar det_scalar expr1. Qed.

Lemma tiny_scalar_unit : tiny_scalar F \in unitmx.
Proof.
by rewrite unitmxE tiny_scalar_det unitfE; apply: lt0r_neq0; lra.
Qed.

Lemma tiny_scalar_close : isclose (\det (tiny_scalar F)) 0.
Proof.
rewrite tiny_scalar_det /isclose subr0 normr0 mulr0 addr0 /atol.
by rewrite gtr0_norm; lra.
Qed.

Lemma tiny_scalar_dot :
  np_dot (underflow_linalg F) (tiny_scalar F) (tiny_scalar F) = 0.
Proof.
apply/matrixP=> i j; rewrite /= /tiny_scalar -scalar_mxM !mxE !ord1 eqxx.
rewrite mulr1n /underflow ifT //.
by rewrite gtr0_norm; lra.
Qed.

Lemma index_tiny_scalar tol :
  index (underflow_linalg F) (tiny_scalar F) tol = 2%N.
Proof.
rewrite /index [la_det _ _]/= tiny_scalar_close index_loopS tiny_scalar_dot.
by rewrite /= mxrank0 mxrank_unit ?tiny_scalar_unit.
Qed.

End TinyScalar.

(** C1: on [[1e-200]], whose determinant [np.isclose] does not tell from
    zero, the product [np.dot(A, A)] underflows to the zero matrix: the
    rank of [A] is 1 and the rank of the product is 0, the loop uses up
    its only turn, and [index] returns 2, more than the dimension 1.  The
    matrix is invertible, of index 0. *)
Lemma index_above_dimension :
  [/\ isclose (la_det (underflow_linalg rat) (tiny_scalar rat)) 0,
      matrix_rank (underflow_linalg rat) (tiny_scalar rat) = 1%N,
      np_dot (underflow_linalg rat) (tiny_scalar rat) (tiny_scalar rat) = 0,
      tiny_scalar rat \in unitmx &
      index (underflow_linalg rat) (tiny_scalar rat) (10%:R ^- 5) = 2%N].
Proof.
split.
- exact: tiny_scalar_close.
- by rewrite /= mxrank_unit ?tiny_scalar_unit.
- exact: tiny_scalar_dot.
- exact: tiny_scalar_unit.
- exact: index_tiny_scalar.
Qed.

(** ** Facts about the dictionaries and about [add_link] *)

Section DictFacts.

Variables (K : eqType) (V : Type).
Implicit Types (d : dict K V) (k : K) (v : V).

Lemma dict_get_mem d k : k \in dict_keys d -> exists v, dict_get d k = Some v.
Proof.
elim: d => [//|[k' v'] d IH] /=; rewrite inE eq_sym.
by case: eqP => [_ _|_ /IH //]; exists v'.
Qed.

Lemma dict_get_notin d k : k \notin dict_keys d -> dict_get d k = None.
Proof.
elim: d => [//|[k' v'] d IH] /=; rewrite inE negb_or eq_sym.
by case: eqP => //= _ /IH.
Qed.

Lemma dict_get_all (P : pred (K * V)) d k v :
  all P d -> dict_get d k = Some v -> P (k, v).
Proof.
elim: d => [//|[k' v'] d IH] /= /andP[Pkv Pd].
by case: eqP => [<- [<-]|_]; last exact: IH.
Qed.

End DictFacts.

Section CallFacts.

Variable F : realFieldType.
Variable n : nat.
Implicit Types (self : LinkPredictor F n) (node : string).

Lemma wf_index self node :
  wf self -> node \in dict_keys (self_index_dict self) ->
  exists i : 'I_n,
    dict_get (self_index_dict self) node = Some (val i) /\
    dict_get (self_name_dict self) i = Some node.
Proof.
case/and4P=> _ _ idx _ /dict_get_mem[i geti].
have /andP[lt_i /eqP nm] := dict_get_all idx geti.
by exists (Ordinal lt_i).
Qed.

Lemma wf_name self (i : 'I_n) :
  wf self ->
  exists node, dict_get (self_name_dict self) i = Some node /\
               dict_get (self_index_dict self) node = Some (val i).
Proof.
case/and4P=> _ _ _ /allP nm.
have := nm i; rewrite mem_iota /= add0n ltn_ord => /(_ isT).
by case: dict_get => // node /eqP; exists node.
Qed.

Lemma mx_setE (M : 'M[F]_n) (i j : 'I_n) v :
  mx_set M i j v = inr (\matrix_(a, b) if (a == i) && (b == j) then v else M a b).
Proof. by rewrite /mx_set !ltn_ord. Qed.

(** What [add_link] does on two names of the dictionary. *)
Lemma add_link_known self node1 node2 (i j : 'I_n) :
  dict_get (self_index_dict self) node1 = Some (val i) ->
  dict_get (self_index_dict self) node2 = Some (val j) ->
  node1 \in dict_keys (self_index_dict self) ->
  node2 \in dict_keys (self_index_dict self) ->
  add_link node1 node2 self =
    (inr tt,
     {| self_R := self_R self; self_names_list := self_names_list self;
        self_index_dict := self_index_dict self;
        self_name_dict := self_name_dict self;
        self_A := \matrix_(a, b)
          if (a == j) && (b == i) then 1
          else if (a == i) && (b == j) then 1 else self_A self a b |}).
Proof.
move=> get1 get2 in1 in2.
rewrite /add_link in1 in2 /= /bind_method /lift_result get1 get2 /=.
rewrite /set_A mx_setE /= mx_setE /=; congr (_, _).
by congr Build_LinkPredictor; apply/matrixP=> a b; rewrite !mxE.
Qed.

(** What [add_link] does otherwise. *)
Lemma add_link_unknown self node1 node2 :
  (node1 \notin dict_keys (self_index_dict self))
  || (node2 \notin dict_keys (self_index_dict self)) ->
  add_link node1 node2 self =
    (inl (ValueError "nodes need to be in the graph"), self).
Proof. by rewrite /add_link => ->. Qed.

(** C3: on two names of the dictionary, [add_link] returns normally, sets
    the two symmetric entries of the adjacency matrix to 1 and leaves every
    other entry, the resistance matrix and the two dictionaries as they
    were. *)
Theorem add_link_frame self node1 node2 :
  wf self ->
  node1 \in dict_keys (self_index_dict self) ->
  node2 \in dict_keys (self_index_dict self) ->
  exists i j : 'I_n,
    let self' := (add_link node1 node2 self).2 in
    [/\ dict_get (self_index_dict self) node1 = Some (val i),
        dict_get (self_index_dict self) node2 = Some (val j),
        (add_link node1 node2 self).1 = inr tt,
        forall a b, self_A self' a b =
          if ((a == i) && (b == j)) || ((a == j) && (b == i)) then 1
          else self_A self a b &
        [/\ self_R self' = self_R self,
            self_index_dict self' = self_index_dict self,
            self_name_dict self' = self_name_dict self &
            self_names_list self' = self_names_list self]].
Proof.
move=> wf_self in1 in2.
have [i [get1 _]] := wf_index wf_self in1.
have [j [get2 _]] := wf_index wf_self in2.
exists i, j; rewrite (add_link_known get1 get2 in1 in2) /=; split=> //.
by move=> a b; rewrite mxE orbC; case: ifP.
Qed.

(** C10: when one of the two names is not in the dictionary, [add_link]
    raises its [ValueError] and leaves the object, hence its adjacency
    matrix, its resistance matrix and its dictionaries, as it was. *)
Theorem add_link_atomic self node1 node2 :
  (node1 \notin dict_keys (self_index_dict self))
  || (node2 \notin dict_keys (self_index_dict self)) ->
  add_link node1 node2 self =
    (inl (ValueError "nodes need to be in the graph"), self).
Proof. exact: add_link_unknown. Qed.

(** Whatever the call, an entry of the adjacency matrix keeps its value or
    becomes 1. *)
Lemma after_entry self c a b :
  self_A (after self c) a b = self_A self a b \/ self_A (after self c) a b = 1.
Proof.
case: c => [node|node1 node2] /=; first by left.
rewrite /add_link; case: ifP => _ /=; first by left.
rewrite /bind_method /lift_result.
case: dict_get => [i1|] /=; last by left.
case: dict_get => [i2|] /=; last by left.
rewrite /set_A /mx_set.
case: ifP => _ /=; last by left.
rewrite andbC; case: ifP => _ /=; rewrite !mxE.
  by case: ifP => _; [right | case: ifP => _; [right | left]].
by case: ifP => _; [right | left].
Qed.

End CallFacts.

(** ** Facts about [argmin] and about [predict_link] *)

Section ArgminFacts.

Variable F : realFieldType.
Implicit Types (s pre : seq F).

(** The scan keeps the first position of the least value seen so far. *)
Lemma argmin_fromP pre s ibest :
  (ibest < size pre)%N ->
  (forall m, (m < size pre)%N -> nth 0 pre ibest <= nth 0 pre m) ->
  (forall m, (m < ibest)%N -> nth 0 pre ibest < nth 0 pre m) ->
  let r := argmin_from (nth 0 pre ibest) ibest (size pre) s in
  let t := pre ++ s in
  [/\ (r < size t)%N,
      forall m, (m < size t)%N -> nth 0 t r <= nth 0 t m &
      forall m, (m < r)%N -> nth 0 t r < nth 0 t m].
Proof.
elim: s pre ibest => [|x s IH] pre ibest lt_ib least first /=.
  by rewrite cats0.
rewrite -cat_rcons; case: ltP => [lt_x|le_x].
  have := IH (rcons pre x) (size pre).
  rewrite size_rcons nth_rcons ltnn eqxx; apply=> // m.
    rewrite ltnS leq_eqVlt nth_rcons => /orP[/eqP->|lt_m].
      by rewrite ltnn eqxx.
    by rewrite lt_m (le_trans (ltW lt_x)) ?least.
  by move=> lt_m; rewrite nth_rcons lt_m (lt_le_trans lt_x) ?least.
have := IH (rcons pre x) ibest.
rewrite size_rcons nth_rcons lt_ib; apply=> [|m|m lt_m].
- exact: ltnW.
- rewrite ltnS leq_eqVlt nth_rcons => /orP[/eqP->|lt_m].
    by rewrite ltnn eqxx.
  by rewrite lt_m least.
- by rewrite nth_rcons (ltn_trans lt_m lt_ib) first.
Qed.

(** [np.argmin] fails on the empty array only, and otherwise returns the
    first position of the minimum. *)
Lemma argminP s :
  (0 < size s)%N ->
  exists k, [/\ argmin s = inr k, (k < size s)%N,
                forall m, (m < size s)%N -> nth 0 s k <= nth 0 s m &
                forall m, (m < k)%N -> nth 0 s k < nth 0 s m].
Proof.
case: s => [//|x s] _; exists (argmin_from x 0 1 s).
have [] // := @argmin_fromP [:: x] s 0%N isT.
by case.
Qed.

Lemma argmin_nil : argmin ([::] : seq F) =
  inl (ValueError "attempt to get argmin of an empty sequence").
Proof. by []. Qed.

End ArgminFacts.

Section FlatFacts.

Variable F : realFieldType.
Variable n : nat.
Implicit Types (M : 'M[F]_n).

Lemma size_row_seq M i : size (row_seq M i) = n.
Proof. by rewrite size_map size_enum_ord. Qed.

Lemma nth_row_seq M i (j : 'I_n) : nth 0 (row_seq M i) j = M i j.
Proof.
by rewrite (nth_map j) ?size_enum_ord ?ltn_ord // nth_ord_enum.
Qed.

Lemma nth_row_seq_lt M i k (lt_k : (k < n)%N) :
  nth 0 (row_seq M i) k = M i (Ordinal lt_k).
Proof. exact: (nth_row_seq M i (Ordinal lt_k)). Qed.

Lemma nth_flatten_rows (ss : seq (seq F)) i j :
  all (fun r => size r == n) ss -> (j < n)%N ->
  nth 0 (flatten ss) (i * n + j) = nth 0 (nth [::] ss i) j.
Proof.
elim: ss i => [|r ss IH] i /=; first by rewrite !nth_nil.
case/andP=> /eqP sz_r sz_ss lt_j; rewrite nth_cat sz_r.
case: i => [|i] /=; first by rewrite mul0n add0n lt_j.
by rewrite mulSn -addnA ltnNge leq_addr /= addKn IH.
Qed.

Lemma size_flatten_rows (ss : seq (seq F)) :
  all (fun r => size r == n) ss -> size (flatten ss) = (size ss * n)%N.
Proof.
elim: ss => [//|r ss IH] /= /andP[/eqP sz_r /IH sz_ss].
by rewrite size_cat sz_r sz_ss mulSn.
Qed.

Lemma all_size_rows M :
  all (fun r => size r == n) [seq row_seq M i | i <- enum 'I_n].
Proof. by apply/allP=> r /mapP[a _ ->]; rewrite size_row_seq. Qed.

Lemma size_mx_flat M : size (mx_flat M) = (n * n)%N.
Proof.
by rewrite /mx_flat size_flatten_rows ?all_size_rows // size_map size_enum_ord.
Qed.

Lemma flat_index_lt (a b : 'I_n) : (a * n + b < n * n)%N.
Proof.
apply: (@leq_trans (a * n + n)%N); first by rewrite ltn_add2l.
by rewrite -mulSnr leq_mul2r ltn_ord orbT.
Qed.

Lemma nth_mx_flat M (i j : 'I_n) : nth 0 (mx_flat M) (i * n + j) = M i j.
Proof.
rewrite nth_flatten_rows ?ltn_ord ?all_size_rows //.
by rewrite (nth_map i) ?size_enum_ord ?ltn_ord // nth_ord_enum nth_row_seq.
Qed.

End FlatFacts.

Section PredictFacts.

Variable F : realFieldType.
Variable n : nat.
Implicit Types (self : LinkPredictor F n) (node : string).

(** What [predict_link] returns for a node of the dictionary: the name at
    the first position of the minimum of the node's row of [R_mute]. *)
Lemma predict_link_node self node :
  wf self -> node \in dict_keys (self_index_dict self) ->
  exists (i j : 'I_n) (friend : string),
    [/\ dict_get (self_index_dict self) node = Some (val i),
        predict_link self (Some node) = inr (Friend friend),
        dict_get (self_name_dict self) j = Some friend,
        forall b : 'I_n, R_mute self i j <= R_mute self i b &
        forall b : 'I_n, (b < j)%N -> R_mute self i j < R_mute self i b].
Proof.
move=> wf_self in_node; have [i [geti _]] := wf_index wf_self in_node.
have [|k [argk lt_k least first]] := @argminP _ (row_seq (R_mute self) i).
  by rewrite size_row_seq (leq_ltn_trans _ (ltn_ord i)).
rewrite size_row_seq in lt_k least.
have [friend [getf _]] := wf_name (Ordinal lt_k) wf_self.
exists i, (Ordinal lt_k), friend; split=> //.
- rewrite /predict_link in_node /= geti /= /mx_row valK /= -/(R_mute self).
  by rewrite argk /= getf.
- by move=> b; have := least b (ltn_ord b); rewrite nth_row_seq_lt nth_row_seq.
- by move=> b lt_b; have := first b lt_b; rewrite nth_row_seq_lt nth_row_seq.
Qed.

Lemma predict_link_unknown self node :
  node \notin dict_keys (self_index_dict self) ->
  predict_link self (Some node) = inl (ValueError "Node not in graph").
Proof. by rewrite /predict_link => ->. Qed.

(** The pair that [predict_link()] returns is read off the first position,
    in row-major order, of the minimum of [R_mute]. *)
Lemma predict_link_least self :
  wf self -> (0 < n)%N ->
  exists (i j : 'I_n) (name1 name2 : string),
    [/\ predict_link self None = inr (NamePair name1 name2),
        dict_get (self_name_dict self) i = Some name1,
        dict_get (self_name_dict self) j = Some name2,
        forall a b : 'I_n, R_mute self i j <= R_mute self a b &
        forall a b : 'I_n, (a * n + b < i * n + j)%N ->
          R_mute self i j < R_mute self a b].
Proof.
move=> wf_self n_gt0.
have [|k [argk lt_k least first]] := @argminP _ (mx_flat (R_mute self)).
  by rewrite size_mx_flat muln_gt0 n_gt0.
rewrite size_mx_flat in lt_k least.
have lt_i : (k %/ n < n)%N by rewrite ltn_divLR.
have lt_j : (k %% n < n)%N by rewrite ltn_pmod.
pose i := Ordinal lt_i; pose j := Ordinal lt_j.
have k_ij : k = (i * n + j)%N by rewrite /= -divn_eq.
have [name1 [get1 _]] := wf_name i wf_self.
have [name2 [get2 _]] := wf_name j wf_self.
exists i, j, name1, name2; split=> //.
- by rewrite /predict_link -/(R_mute self) argk /= get1 /= get2.
- move=> a b; have := least (a * n + b)%N.
  by rewrite k_ij !nth_mx_flat; apply; apply: flat_index_lt.
- by move=> a b; rewrite -k_ij => /first; rewrite k_ij !nth_mx_flat.
Qed.

(** C5, as amended: on an object with at least one node, [predict_link()]
    returns the names of the pair of indices at which [R_mute], the matrix
    [(A + I) * 999 + R], is least; among the pairs where it is least, it is
    the first one in row-major order. *)
Theorem predict_link_global self :
  wf self -> (0 < n)%N ->
  exists (i j : 'I_n) (name1 name2 : string),
    [/\ predict_link self None = inr (NamePair name1 name2),
        dict_get (self_name_dict self) i = Some name1,
        dict_get (self_name_dict self) j = Some name2,
        forall a b : 'I_n, R_mute self i j <= R_mute self a b &
        forall a b : 'I_n, (a * n + b < i * n + j)%N ->
          R_mute self i j < R_mute self a b].
Proof. exact: predict_link_least. Qed.

(** On the empty object the search for the minimum fails. *)
Lemma predict_link_empty (self0 : LinkPredictor F 0) :
  predict_link self0 None =
    inl (ValueError "attempt to get argmin of an empty sequence").
Proof.
rewrite /predict_link; set M := _ + _.
by have /size0nil -> : size (mx_flat M) = 0%N by rewrite size_mx_flat.
Qed.

End PredictFacts.

(** ** The errors of the calls, and the adjacency matrix after a call *)

Section CallOutcomes.

Variable F : realFieldType.
Variable n : nat.
Implicit Types (self : LinkPredictor F n) (node : string).

(** C7, as amended: on a well-formed object the two calls that take names
    raise their [ValueError] exactly on a name that is not in the
    dictionary and otherwise return; [predict_link()] returns on an object
    with at least one node. *)
Theorem only_not_found self :
  wf self ->
  [/\ forall node,
        predict_link self (Some node) = inl (ValueError "Node not in graph")
        <-> node \notin dict_keys (self_index_dict self),
      forall node, node \in dict_keys (self_index_dict self) ->
        exists friend, predict_link self (Some node) = inr (Friend friend),
      forall node1 node2,
        (add_link node1 node2 self).1
          = inl (ValueError "nodes need to be in the graph")
        <-> (node1 \notin dict_keys (self_index_dict self))
            || (node2 \notin dict_keys (self_index_dict self)),
      forall node1 node2,
        node1 \in dict_keys (self_index_dict self) ->
        node2 \in dict_keys (self_index_dict self) ->
        (add_link node1 node2 self).1 = inr tt &
      (0 < n)%N ->
        exists name1 name2,
          predict_link self None = inr (NamePair name1 name2)].
Proof.
move=> wf_self.
have known node : node \in dict_keys (self_index_dict self) ->
    exists friend, predict_link self (Some node) = inr (Friend friend).
  by case/(predict_link_node wf_self) => i [j] [friend] [_ -> _ _ _]; exists friend.
have linked node1 node2 :
    node1 \in dict_keys (self_index_dict self) ->
    node2 \in dict_keys (self_index_dict self) ->
    (add_link node1 node2 self).1 = inr tt.
  move=> in1 in2; have [i [get1 _]] := wf_index wf_self in1.
  have [j [get2 _]] := wf_index wf_self in2.
  by rewrite (add_link_known get1 get2 in1 in2).
split=> //.
- move=> node; split; last exact: predict_link_unknown.
  by case: (boolP (node \in _)) => // /known[friend ->].
- move=> node1 node2; split; last by move/add_link_unknown->.
  case: (boolP (node1 \in _)) => //= in1.
  by case: (boolP (node2 \in _)) => //= in2; rewrite linked.
- move=> n_gt0.
  have [i [j] [name1] [name2] [-> _ _ _ _]] := predict_link_least wf_self n_gt0.
  by exists name1, name2.
Qed.

(** C4, as amended: whatever the call, an entry of the adjacency matrix
    keeps its value or becomes 1; so it does not decrease, unless it was
    above 1. *)
Theorem adjacency_after_call self c a b :
  (self_A (after self c) a b = self_A self a b
   \/ self_A (after self c) a b = 1) /\
  (self_A self a b <= 1 -> self_A self a b <= self_A (after self c) a b).
Proof.
have [same|one] := after_entry self c a b; rewrite ?same ?one; split=> //.
- by left.
- by right.
Qed.

(** A call leaves the resistance matrix and the dictionaries as they are. *)
Lemma after_frame self c :
  [/\ self_R (after self c) = self_R self,
      self_index_dict (after self c) = self_index_dict self &
      self_name_dict (after self c) = self_name_dict self].
Proof.
case: c => [node|node1 node2] //=.
rewrite /add_link; case: ifP => _ //=.
rewrite /bind_method /lift_result.
case: dict_get => [i1|] //=.
case: dict_get => [i2|] //=.
rewrite /set_A /mx_set.
case: ifP => _ //=.
by rewrite andbC; case: ifP.
Qed.

Lemma after_wf self c : wf self -> wf (after self c).
Proof.
by rewrite /wf; have [_ -> ->] := after_frame self c.
Qed.

End CallOutcomes.

(** ** The constructor *)

Section DictSet.

Variables (K : eqType) (V : Type).
Implicit Types (d : dict K V) (k : K) (v : V).

Lemma dict_get_set d k v k' :
  dict_get (dict_set d k v) k' = if k == k' then Some v else dict_get d k'.
Proof.
elim: d => [|[k1 v1] d IH] /=; first by [].
case: (eqVneq k1 k) => [->|ne1] /=; first by case: eqP.
by rewrite IH; case: (eqVneq k1 k') => // <-; rewrite eq_sym (negbTE ne1).
Qed.

Lemma dict_set_new d k v :
  k \notin dict_keys d -> dict_set d k v = rcons d (k, v).
Proof.
elim: d => [//|[k1 v1] d IH] /=; rewrite inE negb_or eq_sym.
by case/andP=> /negbTE -> /IH ->.
Qed.

Lemma dict_keys_rcons d k v : dict_keys (rcons d (k, v)) = rcons (dict_keys d) k.
Proof. by rewrite /dict_keys map_rcons. Qed.

Lemma dict_get_key d k v : dict_get d k = Some v -> k \in dict_keys d.
Proof.
elim: d => [//|[k1 v1] d IH] /=; rewrite inE eq_sym.
by case: eqP => //= _ /IH.
Qed.

End DictSet.

Section BuildDicts.

Lemma add_name_inv d name : dicts_inv d -> dicts_inv (add_name d name).
Proof.
case: d => [[index_dict name_dict] i] /=.
case: ifPn => // new [sz uq idx nm]; rewrite /dicts_inv; split.
- by rewrite dict_set_new // size_rcons sz.
- by rewrite dict_set_new // dict_keys_rcons rcons_uniq new.
- move=> name' j; rewrite !dict_get_set.
  case: (eqVneq name name') => [<- [<-]|ne_name /idx[lt_j getj]].
    by rewrite eqxx.
  by rewrite ltnS (ltnW lt_j) gtn_eqF.
- move=> j; rewrite ltnS leq_eqVlt => /orP[/eqP->|lt_j].
    by exists name; rewrite dict_get_set eqxx.
  have [name' getj geti] := nm j lt_j.
  exists name'; rewrite dict_get_set ?gtn_eqF //.
  case: eqP => // eq_name; move: new.
  by rewrite eq_name (dict_get_key geti).
Qed.

Lemma build_dicts_inv ff : dicts_inv (build_dicts ff).
Proof.
rewrite /build_dicts.
have: dicts_inv ([::], [::], 0%N) by split.
elim: ff ([::], [::], 0%N) => [//|pair ff IH] d inv_d /=.
by apply: IH; do 2!apply: add_name_inv.
Qed.

End BuildDicts.

Section InitFacts.

Variable F : realFieldType.
Variable la_schur : schur_fun F.

Lemma dict_all_get (K : eqType) (V : Type) (P : pred (K * V)) (d : dict K V) :
  uniq (dict_keys d) ->
  (forall k v, dict_get d k = Some v -> P (k, v)) -> all P d.
Proof.
elim: d => [//|[k1 v1] d IH] /= /andP[new uq] getP.
rewrite (getP k1 v1) ?eqxx //= IH // => k v getk; apply: getP.
by case: eqP new => // ->; rewrite (dict_get_key getk).
Qed.

(** What the constructor stores when it returns. *)
Lemma init_fields ff (self : LinkPredictor F (node_count ff)) :
  init la_schur ff = inr self ->
  [/\ self_index_dict self = (build_dicts ff).1.1,
      self_name_dict self = (build_dicts ff).1.2,
      self_names_list self = ff,
      foldl (connect (build_dicts ff).1.1) (ret 0) ff = inr (self_A self) &
      effective_resistance la_schur (self_A self) = Some (self_R self)].
Proof.
rewrite /init; case: foldl => [e|A] //=.
by case E: effective_resistance => [R|] //= [<-].
Qed.

Lemma init_wf ff (self : LinkPredictor F (node_count ff)) :
  init la_schur ff = inr self -> wf self.
Proof.
case/init_fields=> idxE nmE _ _ _; rewrite /wf idxE nmE.
have := build_dicts_inv ff; rewrite /node_count.
case: (build_dicts ff) => [[index_dict name_dict] i] /= [sz uq idx nm].
rewrite sz eqxx uq /=; apply/andP; split.
  apply: dict_all_get => // name j /idx[lt_j ->].
  by rewrite lt_j eqxx.
apply/allP=> j; rewrite mem_iota add0n /= => /nm[name -> ->].
by rewrite eqxx.
Qed.

Lemma reachable_wf n (self : LinkPredictor F n) :
  reachable la_schur self -> wf self.
Proof.
elim=> [ff self0 /init_wf //|n0 self0 c _ wf0]; exact: after_wf.
Qed.

End InitFacts.

(** ** The two Laplacians *)

Section LaplacianFacts.

Variable F : realFieldType.
Variable n : nat.
Implicit Types (A : 'M[F]_n).

Lemma laplacianE A i j :
  laplacian A i j = (if i == j then \sum_k A i k else 0) - A i j.
Proof. by rewrite !mxE. Qed.

(** C9: [laplacian] returns the diagonal matrix of the row sums of [A]
    minus [A], for every square [A]; and the Laplacian that
    [effective_resistance] computes with [csgraph.laplacian] is that same
    matrix when [A] is symmetric. *)
Theorem laplacian_refines A :
  laplacian A = diag_mx (\row_i \sum_k A i k) - A /\
  (A^T = A -> csg_laplacian A = laplacian A).
Proof.
split=> [|symA]; apply/matrixP=> i j; rewrite !mxE.
  by case: eqP => _; rewrite ?mulr1n ?mulr0n.
case: eqP => [<-|_]; last by rewrite sub0r.
rewrite [in RHS](bigD1 i) //= addrAC subrr add0r; apply: eq_bigr => k _.
by rewrite -[in LHS]symA mxE.
Qed.

End LaplacianFacts.

(** ** Facts about the contract of [la.schur] *)

Section SchurFacts.

Variable F : realFieldType.
Variable n : nat.
Implicit Types (A T Z : 'M[F]_n).

Lemma char_poly_tr A : char_poly A^T = char_poly A.
Proof.
by rewrite /char_poly /char_poly_mx -[in LHS]tr_scalar_mx -map_trmx -linearB /= det_tr.
Qed.

(** Similar matrices have the same characteristic polynomial. *)
Lemma char_poly_similar A T Z :
  Z \in unitmx -> A *m Z = Z *m T -> char_poly T = char_poly A.
Proof.
move=> unitZ AZ; pose Zp := map_mx polyC Z; pose Zi := map_mx polyC (invmx Z).
have ZiZ : Zi *m Zp = 1%:M by rewrite -map_mxM mulVmx // map_mx1.
have -> : T = invmx Z *m A *m Z by rewrite -mulmxA AZ mulKmx.
rewrite /char_poly /char_poly_mx !map_mxM -/Zp -/Zi.
set Ap := map_mx _ A.
have -> : 'X%:M - Zi *m Ap *m Zp = Zi *m ('X%:M - Ap) *m Zp.
  rewrite mulmxBr mulmxBl; congr (_ - _).
  by rewrite scalar_mxC -mulmxA ZiZ mulmx1.
by rewrite !det_mulmx mulrAC -det_mulmx ZiZ det1 mul1r.
Qed.

Lemma char_poly_upper T :
  is_trig_mx T^T -> char_poly T = \prod_(i < n) ('X - (T i i)%:P).
Proof.
move=> trigT; rewrite -char_poly_tr char_poly_trig //.
by apply: eq_bigr => i _; rewrite mxE.
Qed.

Lemma root_prod_diag T x :
  root (\prod_(i < n) ('X - (T i i)%:P)) x = [exists i, x == T i i].
Proof.
rewrite -(big_map (fun i => T i i) predT (fun a => 'X - a%:P)) /=.
rewrite root_prod_XsubC; apply/mapP/existsP => [[i _ ->]|[i /eqP->]].
  by exists i.
by exists i; rewrite ?mem_index_enum.
Qed.

(** The diagonal of the Schur form carries eigenvalues of [A]. *)
Lemma schur_diag_root A sort r (i : 'I_n) :
  schur_ok A sort r -> root (char_poly A) (r.1.1 i i).
Proof.
case=> unitZ AZ trigT _ _; rewrite -(char_poly_similar unitZ AZ).
by rewrite char_poly_upper // root_prod_diag; apply/existsP; exists i.
Qed.

(** When [sort] selects every eigenvalue, [sdim] is [n]; when it selects
    none, [sdim] is [0]. *)
Lemma schur_sdim_all A sort r :
  schur_ok A sort r -> (forall x, root (char_poly A) x -> sort x) -> r.2 = n.
Proof.
move=> ok all_sort; have [_ _ _ le_n sdimP] := ok.
apply/eqP; rewrite eqn_leq le_n /= leqNgt; apply/negP=> lt_n.
have := sdimP (Ordinal lt_n); rewrite /= ltnn => /esym/negP; apply.
exact/all_sort/(schur_diag_root _ ok).
Qed.

Lemma schur_sdim_none A sort r :
  schur_ok A sort r -> (forall x, root (char_poly A) x -> ~~ sort x) ->
  r.2 = 0%N.
Proof.
move=> ok no_sort; have [_ _ _ le_n sdimP] := ok.
case: (posnP r.2) => // sdim_gt0.
have n_gt0 := leq_trans sdim_gt0 le_n.
have := sdimP (Ordinal n_gt0); rewrite /= sdim_gt0 => /esym sort0.
by have := no_sort _ (schur_diag_root (Ordinal n_gt0) ok); rewrite sort0.
Qed.

End SchurFacts.

(** ** [drazin_inverse] when [la.schur] selects every eigenvalue, or none *)

Section DrazinSpecial.

Variable F : realFieldType.
Variable la_schur : schur_fun F.
Variable n : nat.
Implicit Types (A B U V Q : 'M[F]_n) (tol : F).

Lemma hstack_lead_all Q Q' : hstack_lead n Q Q' = Q.
Proof. by apply/matrixP=> i j; rewrite mxE ltn_ord. Qed.

Lemma hstack_lead_none Q Q' : hstack_lead 0 Q Q' = Q'.
Proof.
apply/matrixP=> i j; rewrite mxE ltn0; congr (Q' i _).
by apply: val_inj; rewrite /= subn0.
Qed.

Lemma lead_block_all V : lead_block n V = V.
Proof. by apply/matrixP=> i j; rewrite mxE !valK. Qed.

Lemma zeros_with_lead_all V : zeros_with_lead n V = V.
Proof. by apply/matrixP=> i j; rewrite mxE !valK. Qed.

Lemma la_inv_unit U : U \in unitmx -> la_inv U = Some (invmx U).
Proof. by rewrite /la_inv => ->. Qed.

(** A left inverse is the inverse. *)
Lemma invmx_left A B : B *m A = 1%:M -> invmx A = B /\ A \in unitmx.
Proof.
move=> BA; have [unitB unitA] := mulmx1_unit BA; split=> //.
by rewrite -[LHS]mul1mx -BA mulmxK.
Qed.

Lemma invmx_conj U A :
  U \in unitmx -> A \in unitmx ->
  let V := invmx U *m A *m U in
  V \in unitmx /\ U *m invmx V *m invmx U = invmx A.
Proof.
move=> unitU unitA V.
have unitV : V \in unitmx by rewrite !unitmx_mul unitmx_inv unitU unitA.
split=> //; apply/esym; apply: (proj1 (invmx_left _)).
have E : invmx U *m A = V *m invmx U by rewrite /V mulmxK.
by rewrite -mulmxA E mulmxA mulmxKV // mulmxV.
Qed.

(** With [sdim = n], [drazin_inverse] returns the inverse. *)
Lemma drazin_inverse_all A tol :
  let r := la_schur A (fun x => tol < `|x|) in
  r.2 = n -> r.1.2 \in unitmx -> A \in unitmx ->
  drazin_inverse la_schur A tol = Some (invmx A).
Proof.
rewrite /drazin_inverse; case: la_schur => [[T1 Q1] k1] /= -> unitQ unitA.
case: la_schur => [[T2 Q2] k2]; rewrite leqnn hstack_lead_all la_inv_unit //.
have [unitV invV] := invmx_conj unitQ unitA.
case: eqP => [n0|_]; last first.
  by rewrite lead_block_all la_inv_unit // zeros_with_lead_all invV.
by congr Some; apply/matrixP=> i; move: (ltn_ord i); rewrite [in X in (_ < X)%N]n0.
Qed.

(** With [sdim = 0], [drazin_inverse] returns the zero matrix. *)
Lemma drazin_inverse_none A tol :
  (la_schur A (fun x => tol < `|x|)).2 = 0%N ->
  (la_schur A (fun x => `|x| <= tol)).1.2 \in unitmx ->
  drazin_inverse la_schur A tol = Some 0.
Proof.
rewrite /drazin_inverse; case: la_schur => [[T1 Q1] k1] /= ->.
case: la_schur => [[T2 Q2] k2] /= unitQ.
by rewrite hstack_lead_none la_inv_unit //= mulmx0 mul0mx.
Qed.

(** A matrix with no eigenvalue [0] is invertible. *)
Lemma unitmx_root0 A : ~~ root (char_poly A) 0 -> A \in unitmx.
Proof.
rewrite unitmxE unitfE rootE horner_coef0 char_poly_det.
by apply: contra => /eqP->; rewrite mulr0.
Qed.

Lemma drazin_inverse_large A tol :
  0 <= tol ->
  schur_ok A (fun x => tol < `|x|) (la_schur A (fun x => tol < `|x|)) ->
  (forall x, root (char_poly A) x -> tol < `|x|) ->
  A \in unitmx /\ drazin_inverse la_schur A tol = Some (invmx A).
Proof.
move=> tol_ge0 ok large.
have unitA : A \in unitmx.
  apply: unitmx_root0; apply/negP=> /large.
  by rewrite normr0 ltNge tol_ge0.
split=> //; apply: drazin_inverse_all => //; last by case: ok.
exact: schur_sdim_all ok large.
Qed.

Lemma drazin_inverse_small A tol :
  schur_ok A (fun x => tol < `|x|) (la_schur A (fun x => tol < `|x|)) ->
  schur_ok A (fun x => `|x| <= tol) (la_schur A (fun x => `|x| <= tol)) ->
  (forall x, root (char_poly A) x -> `|x| <= tol) ->
  drazin_inverse la_schur A tol = Some 0.
Proof.
move=> ok1 ok2 small; apply: drazin_inverse_none; last by case: ok2.
by apply: schur_sdim_none ok1 _ => x /small; rewrite leNgt.
Qed.

End DrazinSpecial.

(** ** The rows of [effective_resistance] *)

Section ResistanceRows.

Variable F : realFieldType.
Variable la_schur : schur_fun F.
Variable n : nat.
Implicit Types (A L R : 'M[F]_n).

Lemma resistance_loop L (D : 'I_n -> 'M[F]_n) (s : seq 'I_n) R :
  (forall j, drazin_inverse la_schur (set_row L j (row j 1%:M)) (drazin_tol F)
             = Some (D j)) ->
  foldl (resistance_step la_schur L) (Some R) s =
    Some (\matrix_(i, c) if i \in s then D i c c else R i c).
Proof.
move=> drazinE; elim: s R => [|j s IH] R /=.
  by congr Some; apply/matrixP=> i c; rewrite mxE.
rewrite drazinE IH; congr Some; apply/matrixP=> i c; rewrite !mxE inE.
by case: (i \in s); rewrite ?orbT // orbF; case: eqP => // ->.
Qed.

(** When every turn of the loop gets its Drazin inverse, the row [j] of
    the result is the diagonal of the inverse of turn [j], minus the row
    of the identity. *)
Lemma effective_resistance_rows A (D : 'I_n -> 'M[F]_n) :
  (forall j, drazin_inverse la_schur (grounded A j) (drazin_tol F)
             = Some (D j)) ->
  effective_resistance la_schur A = Some (\matrix_(j, c) D j c c - 1%:M).
Proof.
move=> drazinE; rewrite /effective_resistance (resistance_loop _ _ drazinE).
by congr (Some (_ - _)); apply/matrixP=> i c; rewrite !mxE mem_enum.
Qed.

Lemma drazin_tol_gt0 : 0 < drazin_tol F.
Proof. by rewrite /drazin_tol; lra. Qed.

Lemma groundedE A (j i c : 'I_n) :
  grounded A j i c = if i == j then (j == c)%:R else csg_laplacian A i c.
Proof. by rewrite !mxE. Qed.

End ResistanceRows.

(** ** The resistance matrix when every grounded Laplacian is inverted *)

Section ResistanceInverse.

Variable F : realFieldType.
Variable n : nat.
Implicit Types (A L X Y : 'M[F]_n).

Lemma csg_laplacian_col_sum A c : \sum_i csg_laplacian A i c = 0.
Proof.
rewrite (bigD1 c) //= mxE eqxx -big_split /= big1 // => i ne_ic.
by rewrite mxE (negbTE ne_ic) subrr.
Qed.

Lemma csg_laplacian_sym A : A^T = A -> (csg_laplacian A)^T = csg_laplacian A.
Proof.
move=> symA; apply/matrixP=> i j; rewrite !mxE eq_sym.
by case: eqP => [->|_] //; rewrite -[in RHS]symA mxE.
Qed.

(** The row [j] of the inverse of the Laplacian grounded at [j] is that of
    the identity. *)
Lemma grounded_inv_row A (j c : 'I_n) :
  grounded A j \in unitmx -> invmx (grounded A j) j c = (j == c)%:R.
Proof.
move=> unitG; set G := grounded A j.
have rowG : row j G = row j 1%:M.
  by apply/rowP=> c'; rewrite !mxE eqxx.
have : row j (G *m invmx G) = row j 1%:M by rewrite mulmxV.
rewrite row_mul rowG -row_mul mul1mx => /rowP/(_ c).
by rewrite !mxE.
Qed.

(** The Laplacian times the inverse of the Laplacian grounded at [j]. *)
Lemma laplacian_grounded_inv A (j r c : 'I_n) :
  grounded A j \in unitmx ->
  (csg_laplacian A *m invmx (grounded A j)) r c =
    if r == j then - (c != j)%:R else (r == c)%:R.
Proof.
move=> unitG; set L := csg_laplacian A; set X := invmx _.
have rows r' : r' != j -> (L *m X) r' c = (r' == c)%:R.
  move=> ne_rj; have := mulmxV unitG => /matrixP/(_ r' c).
  rewrite -/X !mxE => <-; apply: eq_bigr => l _.
  by rewrite !mxE (negbTE ne_rj).
case: eqP => [->|/eqP/rows //].
have : \sum_r' (L *m X) r' c = 0.
  under eq_bigr do rewrite mxE.
  rewrite exchange_big big1 //= => l _.
  by rewrite -mulr_suml csg_laplacian_col_sum mul0r.
rewrite (bigD1 j) //= => /eqP; rewrite addr_eq0 => /eqP->.
rewrite (eq_bigr (fun r' => (r' == c)%:R)); first exact: rows.
case: (eqVneq c j) => [->|ne_cj] /=.
  by rewrite big1 // => r' /negbTE->.
by rewrite (bigD1 c) //= eqxx big1 ?addr0 // => r' /andP[_ /negbTE->].
Qed.

Lemma sum_two (f : 'I_n -> F) (i j : 'I_n) :
  i != j -> (forall r, r != i -> r != j -> f r = 0) ->
  \sum_r f r = f i + f j.
Proof.
move=> ne_ij f0; rewrite (bigD1 i) //= (bigD1 j) 1?eq_sym //=.
by rewrite big1 ?addr0 // => r /andP[ne_ri ne_rj]; apply: f0.
Qed.

(** The diagonal entry [i] of the inverse grounded at [j] is the diagonal
    entry [j] of the inverse grounded at [i]. *)
Lemma grounded_inv_sym A (i j : 'I_n) :
  A^T = A -> grounded A i \in unitmx -> grounded A j \in unitmx ->
  invmx (grounded A j) i i = invmx (grounded A i) j j.
Proof.
move=> symA unitGi unitGj; have [->//|ne_ij] := eqVneq i j.
have ne_ji : j != i by rewrite eq_sym.
set L := csg_laplacian A; set X := invmx (grounded A j).
set Y := invmx (grounded A i).
have LY r c : (L *m Y) r c = if r == i then - (c != i)%:R else (r == c)%:R.
  exact: laplacian_grounded_inv.
have LX r c : (L *m X) r c = if r == j then - (c != j)%:R else (r == c)%:R.
  exact: laplacian_grounded_inv.
have Xj c : X j c = (j == c)%:R by apply: grounded_inv_row.
have Yi c : Y i c = (i == c)%:R by apply: grounded_inv_row.
have lhs : (X^T *m (L *m Y)) i j = - X i i.
  rewrite [LHS]mxE (sum_two ne_ij) => [r ne_ri ne_rj|].
    by rewrite LY (negbTE ne_ri) (negbTE ne_rj) mulr0.
  by rewrite !LY eqxx ne_ji (negbTE ne_ji) eqxx !mxE Xj (negbTE ne_ji) mul0r addr0 mulrN1.
have rhs : ((L *m X)^T *m Y) i j = - Y j j.
  rewrite [LHS]mxE (sum_two ne_ij) => [r ne_ri ne_rj|].
    by rewrite mxE LX (negbTE ne_ri) (negbTE ne_rj) mul0r.
  rewrite Yi (negbTE ne_ij) mulr0 add0r [X in X * _]mxE LX eqxx ne_ij.
  by rewrite mulN1r.
apply: oppr_inj; rewrite -lhs -rhs trmx_mul csg_laplacian_sym //.
by rewrite mulmxA.
Qed.

End ResistanceInverse.

Section ResistanceLarge.

Variable F : realFieldType.
Variable la_schur : schur_fun F.
Variable n : nat.
Implicit Types (A : 'M[F]_n).

(** When every eigenvalue of every grounded Laplacian is above the
    tolerance, [effective_resistance] returns the matrix of the diagonals
    of their inverses, minus the identity; it is symmetric and its diagonal
    is zero. *)
Lemma effective_resistance_large A :
  A^T = A ->
  (forall j, schur_ok (grounded A j) (fun x => drazin_tol F < `|x|)
               (la_schur (grounded A j) (fun x => drazin_tol F < `|x|))) ->
  (forall j x, root (char_poly (grounded A j)) x -> drazin_tol F < `|x|) ->
  exists R,
    [/\ effective_resistance la_schur A = Some R,
        forall i j, R i j = invmx (grounded A i) j j - (i == j)%:R,
        R^T = R & forall i, R i i = 0].
Proof.
move=> symA ok large.
have inv j := drazin_inverse_large (ltW (drazin_tol_gt0 F)) (ok j) (large j).
have unitG j : grounded A j \in unitmx by case: (inv j).
have drazinE j : drazin_inverse la_schur (grounded A j) (drazin_tol F)
    = Some (invmx (grounded A j)) by case: (inv j).
exists (\matrix_(j, c) invmx (grounded A j) c c - 1%:M).
have entry i j : (\matrix_(j, c) invmx (grounded A j) c c - 1%:M) i j
    = invmx (grounded A i) j j - (i == j)%:R by rewrite !mxE.
split=> //; first exact: effective_resistance_rows.
  apply/matrixP=> i j; rewrite mxE !entry eq_sym.
  by rewrite (grounded_inv_sym symA (unitG i) (unitG j)).
by move=> i; rewrite entry grounded_inv_row // eqxx subrr.
Qed.

End ResistanceLarge.

(** ** [drazin_inverse] in general: the core-nilpotent decomposition *)

Section LinearFactors.

Variable F : realFieldType.

Lemma lin_prod_intertwine p q (A : 'M[F]_p) (B : 'M[F]_q) (X : 'M[F]_(p, q)) s :
  A *m X = X *m B -> lin_prod A s *m X = X *m lin_prod B s.
Proof.
move=> AX; elim: s => [|c s IHs] /=; first by rewrite mul1mx mulmx1.
rewrite -mulmxA IHs !mulmxA; congr (_ *m _).
by rewrite mulmxBl mulmxBr AX scalar_mxC.
Qed.

Lemma lin_prod_unit n (A : 'M[F]_n) s :
  (forall c, c \in s -> A - c%:M \in unitmx) -> lin_prod A s \in unitmx.
Proof.
elim: s => [_|c s IHs unit_s] /=; first exact: unitmx1.
rewrite unitmx_mul unit_s ?mem_head //=.
by apply: IHs => d d_s; rewrite unit_s // inE d_s orbT.
Qed.

Lemma lin_prod_horner n (A : 'M[F]_n.+1) s :
  lin_prod A s = horner_mx A (\prod_(c <- s) ('X - c%:P)).
Proof.
elim: s => [|c s IHs] /=.
  by rewrite big_nil [RHS]rmorph1.
by rewrite big_cons [RHS]rmorphM /= rmorphB /= horner_mx_X horner_mx_C IHs.
Qed.

(** An upper triangular matrix is annihilated by the product of the factors
    taken over its diagonal. *)
Lemma lin_prod_diag0 n (T : 'M[F]_n) :
  is_trig_mx T^T -> lin_prod T [seq T i i | i <- enum 'I_n] = 0.
Proof.
case: n T => [T _|n T trigT]; first exact: flatmx0.
rewrite lin_prod_horner big_map big_enum /= -char_poly_upper //.
exact: Cayley_Hamilton.
Qed.

Lemma upperP n (T : 'M[F]_n) :
  reflect (forall i j : 'I_n, (j < i)%N -> T i j = 0) (is_trig_mx T^T).
Proof.
apply: (iffP is_trig_mxP) => trigT i j lt_ji; last by rewrite mxE trigT.
by have := trigT j i lt_ji; rewrite mxE.
Qed.

Lemma upper_unit n (T : 'M[F]_n) :
  is_trig_mx T^T -> (forall i, T i i != 0) -> T \in unitmx.
Proof.
move=> trigT diagT; rewrite -unitmx_tr unitmxE det_trig // unitfE.
by apply/prodf_neq0 => i _; rewrite mxE.
Qed.

Lemma upper_sub_scalar n (T : 'M[F]_n) c :
  is_trig_mx T^T -> is_trig_mx (T - c%:M)^T.
Proof.
move=> /upperP trigT; apply/upperP => i j lt_ji.
by rewrite !mxE trigT // -val_eqE /= (gtn_eqF lt_ji) mulr0n subrr.
Qed.

End LinearFactors.

Section LeadingColumns.

Variable F : realFieldType.
Variables n p : nat.
Hypothesis le_pn : (p <= n)%N.
Implicit Types (A Q T : 'M[F]_n).

(** A sum over all indices whose terms vanish from [p] on. *)
Lemma sum_lead (G : 'I_n -> F) :
  (forall l : 'I_n, (p <= l)%N -> G l = 0) ->
  \sum_l G l = \sum_(l < p) G (widen_ord le_pn l).
Proof.
move=> G0; rewrite (bigID (fun l : 'I_n => (l < p)%N)) /=.
rewrite [X in _ + X]big1 ?addr0 ?(big_ord_narrow le_pn) // => l.
by rewrite -leqNgt; apply: G0.
Qed.

Lemma lead_sq_upper T : is_trig_mx T^T -> is_trig_mx (lead_sq le_pn T)^T.
Proof.
by move=> /upperP trigT; apply/upperP => i j lt_ji; rewrite mxE trigT.
Qed.

(** The leading columns of a triangularizing basis span an invariant
    subspace, on which the matrix acts as the leading block. *)
Lemma lead_cols_invariant A Q T :
  A *m Q = Q *m T -> is_trig_mx T^T ->
  A *m lead_cols le_pn Q = lead_cols le_pn Q *m lead_sq le_pn T.
Proof.
move=> AQ /upperP trigT; apply/matrixP => i j.
pose w := widen_ord le_pn.
have E : \sum_l A i l * Q l (w j) = \sum_(l < p) Q i (w l) * T (w l) (w j).
  have := congr1 (fun X : 'M_n => X i (w j)) AQ; rewrite 2!mxE => ->.
  apply: (@sum_lead (fun l => Q i l * T l (w j))) => l le_pl.
  by rewrite trigT ?mulr0 //= (leq_trans _ le_pl).
have -> : (A *m lead_cols le_pn Q) i j = \sum_l A i l * Q l (w j).
  by rewrite mxE; apply: eq_bigr => l _; rewrite mxE.
by rewrite E mxE; apply: eq_bigr => l _; rewrite !mxE.
Qed.

(** The leading columns of an invertible array are independent. *)
Lemma lead_cols_inj q Q (b : 'M[F]_(p, q)) :
  Q \in unitmx -> lead_cols le_pn Q *m b = 0 -> b = 0.
Proof.
move=> unitQ Qb0.
pose pad : 'M[F]_(n, q) :=
  \matrix_(l, c) if insub (val l) is Some l' then b l' c else 0.
have padE (l : 'I_p) c : pad (widen_ord le_pn l) c = b l c.
  by rewrite mxE /= insubT // => lt_l; congr (b _ _); apply: val_inj.
have pad0 : pad = 0.
  apply: (can_inj (mulKmx unitQ)); rewrite mulmx0 -Qb0.
  apply/matrixP => i c; rewrite !mxE.
  rewrite (@sum_lead (fun l => Q i l * pad l c)).
    by move=> l le_pl; rewrite mxE insubF ?mulr0 // ltnNge le_pl.
  by apply: eq_bigr => l _; rewrite padE mxE.
by apply/matrixP => l c; rewrite -padE pad0 !mxE.
Qed.

End LeadingColumns.

Section CoreBasis.

Variable F : realFieldType.
Variables k m : nat.

Variables A Q T Q' T' : 'M[F]_(k + m).
Hypothesis unitQ : Q \in unitmx.
Hypothesis AQ : A *m Q = Q *m T.
Hypothesis trigT : is_trig_mx T^T.
Hypothesis unitQ' : Q' \in unitmx.
Hypothesis AQ' : A *m Q' = Q' *m T'.
Hypothesis trigT' : is_trig_mx T'^T.

Let X := lead_cols (leq_addr m k) Q.
Let M := lead_sq (leq_addr m k) T.
Let X' := lead_cols (leq_addl k m) Q'.
Let N := lead_sq (leq_addl k m) T'.

Hypothesis diag_ne : forall i j, M i i != N j j.

Lemma core_basis_form : A *m core_basis Q Q' = core_basis Q Q' *m core_form T T'.
Proof.
rewrite /core_basis /core_form mul_mx_row mul_row_block !mulmx0 addr0 add0r.
by rewrite (lead_cols_invariant _ AQ trigT) (lead_cols_invariant _ AQ' trigT').
Qed.

Lemma core_basis_ker (c : 'cV[F]_(k + m)) : core_basis Q Q' *m c = 0 -> c = 0.
Proof.
rewrite -[c]vsubmxK /core_basis mul_row_col -/X -/X'.
set a := usubmx c; set b := dsubmx c => Uc0.
pose s := [seq N i i | i <- enum 'I_m].
have PX' : lin_prod A s *m X' = 0.
  rewrite (lin_prod_intertwine _ (lead_cols_invariant _ AQ' trigT')).
  by rewrite lin_prod_diag0 ?mulmx0 // lead_sq_upper.
have PX := lin_prod_intertwine s (lead_cols_invariant (leq_addr m k) AQ trigT).
have unitP : lin_prod M s \in unitmx.
  apply: lin_prod_unit => _ /mapP[j _ ->].
  apply: upper_unit => [|i]; first exact/upper_sub_scalar/lead_sq_upper.
  by rewrite mxE [X in _ + X]mxE [X in _ - X]mxE eqxx mulr1n subr_eq0 diag_ne.
have a0 : a = 0.
  apply: (can_inj (mulKmx unitP)); rewrite mulmx0.
  apply: (@lead_cols_inj _ _ _ (leq_addr m k) _ Q _ unitQ).
  rewrite mulmxA -PX -/X.
  have := congr1 (mulmx (lin_prod A s)) Uc0.
  by rewrite mulmxDr mulmx0 !mulmxA PX' mul0mx addr0.
move: Uc0; rewrite a0 mulmx0 add0r => /(lead_cols_inj unitQ') ->.
exact: col_mx0.
Qed.

Lemma core_basis_unit : core_basis Q Q' \in unitmx.
Proof.
rewrite -unitmx_tr -row_free_unit; apply/inj_row_free => v vU0.
apply: trmx_inj; rewrite trmx0; apply: core_basis_ker.
by apply: trmx_inj; rewrite trmx_mul trmxK trmx0.
Qed.

End CoreBasis.

Section Powers.

Variable F : realFieldType.
Variable n : nat.
Implicit Types A D U : 'M[F]_n.

Lemma matrix_powerSr A j : matrix_power A j.+1 = matrix_power A j *m A.
Proof.
elim: j => [|j IHj]; first by rewrite /matrix_power /= mulmx1 mul1mx.
by rewrite [LHS]matrix_powerS [in LHS]IHj mulmxA -matrix_powerS.
Qed.

Lemma matrix_powerD A i j :
  matrix_power A (i + j) = matrix_power A i *m matrix_power A j.
Proof.
elim: i => [|i IHi]; first by rewrite add0n mul1mx.
by rewrite addSn !matrix_powerS IHi mulmxA.
Qed.

Lemma matrix_power_intertwine p (A : 'M[F]_n) (B : 'M[F]_p) (X : 'M[F]_(n, p)) j :
  A *m X = X *m B -> matrix_power A j *m X = X *m matrix_power B j.
Proof.
move=> AX; elim: j => [|j IHj]; first by rewrite mul1mx mulmx1.
by rewrite matrix_powerS -mulmxA IHj mulmxA AX -mulmxA.
Qed.

Lemma lin_prod_zeros A s :
  (forall c, c \in s -> c = 0) -> lin_prod A s = matrix_power A (size s).
Proof.
elim: s => [//|c s IHs] s0 /=.
have -> : c = 0 by apply: s0; rewrite mem_head.
have /IHs -> : forall d, d \in s -> d = 0.
  by move=> d d_s; apply: s0; rewrite inE d_s orbT.
by rewrite -scalemx1 scale0r subr0.
Qed.

(** An upper triangular matrix with a zero diagonal is nilpotent. *)
Lemma upper_nilpotent A :
  is_trig_mx A^T -> (forall i, A i i = 0) -> matrix_power A n = 0.
Proof.
move=> trigA diagA; rewrite -(lin_prod_diag0 trigA) lin_prod_zeros.
  by move=> _ /mapP[i _ ->].
by rewrite size_map size_enum_ord.
Qed.

End Powers.

Section BlockAlgebra.

Variable F : realFieldType.
Variables k m : nat.
Variables (M : 'M[F]_k) (N : 'M[F]_m).
Hypothesis unitM : M \in unitmx.

Let B : 'M[F]_(k + m) := block_mx M 0 0 N.
Let Zb : 'M[F]_(k + m) := block_mx (invmx M) 0 0 0.

Lemma block_power j :
  matrix_power B j = block_mx (matrix_power M j) 0 0 (matrix_power N j).
Proof.
elim: j => [|j IHj]; first by rewrite /matrix_power /= -scalar_mx_block.
rewrite matrix_powerS IHj /B mulmx_block.
by rewrite !mulmx0 !mul0mx !addr0 add0r -!matrix_powerS.
Qed.

Lemma block_commute : B *m Zb = Zb *m B.
Proof.
rewrite /B /Zb !mulmx_block !mulmx0 !mul0mx !addr0.
by rewrite mulmxV // mulVmx.
Qed.

Lemma block_outer : Zb *m B *m Zb = Zb.
Proof.
rewrite /B /Zb !mulmx_block !mulmx0 !mul0mx !addr0.
by rewrite mulVmx // mul1mx mul0mx.
Qed.

Lemma block_power_inv j :
  matrix_power N j = 0 -> matrix_power B j.+1 *m Zb = matrix_power B j.
Proof.
move=> Nj0; rewrite !block_power /Zb mulmx_block !mulmx0 !mul0mx !addr0.
by rewrite matrix_powerSr mulmxK // Nj0.
Qed.

(** A row vector fixed by the block form is fixed by the block inverse,
    as soon as [1] is not an eigenvalue of the second block. *)
Lemma block_fixed (v : 'rV[F]_(k + m)) :
  1%:M - N \in unitmx -> v *m B = v -> v *m Zb = v.
Proof.
move=> unitN; rewrite -[v]hsubmxK /B /Zb !mul_row_block !mulmx0 !addr0 !add0r.
move=> /eq_row_mx[aM bN].
have b0 : rsubmx v = 0.
  apply: (can_inj (mulmxK unitN)).
  by rewrite mul0mx mulmxBr mulmx1 bN subrr.
by rewrite b0 -[in LHS]aM mulmxK.
Qed.

End BlockAlgebra.

Section Conjugation.

Variable F : realFieldType.
Variable n : nat.
Variables A B Zb U : 'M[F]_n.
Hypothesis unitU : U \in unitmx.
Hypothesis AU : A *m U = U *m B.

Let Ad := U *m Zb *m invmx U.

Lemma conj_left : invmx U *m A = B *m invmx U.
Proof. by rewrite -[LHS]mulmx1 -(mulmxV unitU) !mulmxA -(mulmxA _ A) AU mulKmx. Qed.

Lemma conj_commute : B *m Zb = Zb *m B -> A *m Ad = Ad *m A.
Proof.
move=> BZ; rewrite /Ad !mulmxA AU -!mulmxA conj_left !mulmxA.
by rewrite -(mulmxA U B) BZ !mulmxA.
Qed.

Lemma conj_outer : Zb *m B *m Zb = Zb -> Ad *m A *m Ad = Ad.
Proof.
move=> ZBZ; rewrite /Ad -!mulmxA (mulmxA A) AU -(mulmxA U B) mulKmx //.
by rewrite -[in RHS]ZBZ !mulmxA.
Qed.

Lemma conj_power j :
  matrix_power B j.+1 *m Zb = matrix_power B j ->
  matrix_power A j.+1 *m Ad = matrix_power A j.
Proof.
move=> BZ; rewrite /Ad !mulmxA (matrix_power_intertwine _ AU) -(mulmxA U) BZ.
by rewrite -(matrix_power_intertwine _ AU) mulmxK.
Qed.

Lemma conj_fixed :
  (forall v : 'rV[F]_n, v *m B = v -> v *m Zb = v) ->
  forall v : 'rV[F]_n, v *m A = v -> v *m Ad = v.
Proof.
move=> fixB v vA; rewrite /Ad !mulmxA fixB ?mulmxK //.
by rewrite -mulmxA -AU mulmxA vA.
Qed.

End Conjugation.

Section RankLink.

Variable F : realFieldType.
Variables k m : nat.
Variables (A U : 'M[F]_(k + m)) (M : 'M[F]_k) (N : 'M[F]_m).
Hypothesis unitU : U \in unitmx.
Hypothesis AU : A *m U = U *m block_mx M 0 0 N.

(** Where the ranks of two consecutive powers of [A] agree, the nilpotent
    block has already vanished. *)
Lemma rank_power_nil p j :
  matrix_power N p = 0 ->
  \rank (matrix_power A j) = \rank (matrix_power A j.+1) ->
  matrix_power N j = 0.
Proof.
move=> Np0 rk.
have /submxP[Y AY] : (matrix_power A j <= matrix_power A j.+1)%MS.
  have le_m : (matrix_power A j.+1 <= matrix_power A j)%MS.
    by rewrite matrix_powerS submxMl.
  by rewrite -(geq_leqif (mxrank_leqif_sup le_m)) rk.
pose Y' := invmx U *m Y *m U.
have BY : matrix_power (block_mx M 0 0 N) j
          = Y' *m matrix_power (block_mx M 0 0 N) j.+1.
  apply: (can_inj (mulKmx unitU)).
  have := matrix_power_intertwine j.+1 AU.
  rewrite -(matrix_power_intertwine j AU) AY /Y'.
  move: (matrix_power A j.+1) (matrix_power _ j.+1) => Aj Bj AjU.
  by rewrite -(mulmxA Y) AjU !mulmxA mulmxV // mul1mx.
have NY : matrix_power N j = drsubmx Y' *m matrix_power N j *m N.
  move: BY; rewrite !block_power -[Y']submxK mulmx_block !mulmx0 !add0r.
  case/eq_block_mx=> _ _ _ E.
  by rewrite block_mxKdr [LHS]E matrix_powerSr mulmxA.
suff nil i : matrix_power N j *m matrix_power N i = 0 -> matrix_power N j = 0.
  by apply: (nil p); rewrite Np0 mulmx0.
elim: i => [|i IHi]; first by rewrite mulmx1.
move=> NN0; apply: IHi; rewrite NY -!mulmxA -matrix_powerS.
by rewrite NN0 mulmx0.
Qed.

End RankLink.

Section SchurCount.

Variable F : realFieldType.
Variable n : nat.
Implicit Types (A : 'M[F]_n) (r : schur_result F n).

Lemma count_lead k :
  (k <= n)%N -> count (fun i : 'I_n => (i < k)%N) (enum 'I_n) = k.
Proof.
move=> le_kn; rewrite -(count_map val (fun i => (i < k)%N)) val_enum_ord.
rewrite -(subnKC le_kn) iotaD count_cat add0n.
have -> : count (fun i => (i < k)%N) (iota 0 k) = k.
  apply/eqP; rewrite -[X in _ == X](size_iota 0 k) -all_count.
  by apply/allP => i; rewrite mem_iota add0n.
suff -> : count (fun i => (i < k)%N) (iota k (n - k)) = 0%N by rewrite addn0.
apply/eqP; rewrite -leqn0 leqNgt -has_count; apply/hasPn => i.
by rewrite mem_iota -leqNgt => /andP[].
Qed.

(** Two Schur forms of a matrix have the same diagonal, up to order. *)
Lemma schur_diag_perm A sort sort' r r' :
  schur_ok A sort r -> schur_ok A sort' r' ->
  perm_eq [seq r.1.1 i i | i <- enum 'I_n] [seq r'.1.1 i i | i <- enum 'I_n].
Proof.
case=> unitZ AZ trigT _ _ [unitZ' AZ' trigT' _ _]; apply: prod_XsubC_eq.
rewrite 2!big_map 2!big_enum /= -!char_poly_upper //.
by rewrite (char_poly_similar unitZ AZ) (char_poly_similar unitZ' AZ').
Qed.

(** [sdim] counts the diagonal entries that the sort predicate selects. *)
Lemma schur_sdim_count A sort r :
  schur_ok A sort r -> count sort [seq r.1.1 i i | i <- enum 'I_n] = r.2.
Proof.
case=> _ _ _ le_n sdimP; rewrite count_map -[RHS](count_lead le_n).
by apply: eq_count => i /=; rewrite sdimP.
Qed.

(** The two calls of [drazin_inverse] split the eigenvalues. *)
Lemma schur_sdim_compl A (tol : F) r r' :
  schur_ok A (fun x => tol < `|x|) r -> schur_ok A (fun x => `|x| <= tol) r' ->
  (r.2 + r'.2)%N = n.
Proof.
move=> ok ok'; rewrite -(schur_sdim_count ok) -(schur_sdim_count ok').
rewrite (permP (schur_diag_perm ok ok')).
rewrite (@eq_count _ (fun x => `|x| <= tol) (predC (fun x => tol < `|x|))).
  by move=> x /=; rewrite leNgt.
by rewrite count_predC size_map size_enum_ord.
Qed.

End SchurCount.

Section SliceBlocks.

Variable F : realFieldType.
Variables k m : nat.

Lemma hstack_lead_core (Q Q' : 'M[F]_(k + m)) :
  hstack_lead k Q Q' = core_basis Q Q'.
Proof.
apply/matrixP => i j; rewrite mxE /core_basis.
case: (split_ordP j) => j' ->.
  by rewrite row_mxEl mxE; congr (Q i _); apply: val_inj.
rewrite row_mxEr mxE; congr (Q' i _).
by apply: val_inj; rewrite /= addKn.
Qed.

Lemma lead_block_ul (V : 'M[F]_(k + m)) : lead_block k V = ulsubmx V.
Proof.
apply/matrixP => i j; rewrite !mxE.
have insubl (l : 'I_k) : insub (val l) = Some (lshift m l).
  have lt_l : (l < k + m)%N by rewrite ltn_addr.
  by rewrite (insubT (fun i => i < k + m)%N lt_l); congr Some; apply: val_inj.
by rewrite !insubl.
Qed.

Lemma zeros_with_lead_block (Mi : 'M[F]_k) :
  zeros_with_lead (k + m) Mi = block_mx Mi 0 0 0.
Proof.
have insubl (l : 'I_k) : insub (val (lshift m l)) = Some l.
  have lt_l : (lshift m l < k)%N by rewrite /= ltn_ord.
  by rewrite (insubT (fun i => i < k)%N lt_l); congr Some; apply: val_inj.
have insubr (l : 'I_m) : insub (val (rshift k l)) = @None 'I_k.
  by rewrite insubF //= ltnNge leq_addr.
apply/matrixP => i j; rewrite mxE.
case: (split_ordP i) => i' ->; case: (split_ordP j) => j' ->.
- by rewrite !insubl block_mxEul.
- by rewrite insubl insubr block_mxEur mxE.
- by rewrite insubr block_mxEdl mxE.
by rewrite insubr block_mxEdr mxE.
Qed.

End SliceBlocks.

Section DrazinBlock.

Variable F : realFieldType.
Variable la_schur : schur_fun F.
Variables k m : nat.
Variables (A : 'M[F]_(k + m)) (tol : F).

Let r := la_schur A (fun x => tol < `|x|).
Let r' := la_schur A (fun x => `|x| <= tol).

Hypothesis tol_ge0 : 0 <= tol.
Hypothesis ok : schur_ok A (fun x => tol < `|x|) r.
Hypothesis ok' : schur_ok A (fun x => `|x| <= tol) r'.
Hypothesis sdim_k : r.2 = k.

Let U := core_basis r.1.2 r'.1.2.
Let M := lead_sq (leq_addr m k) r.1.1.
Let N := lead_sq (leq_addl k m) r'.1.1.

Lemma core_large i : tol < `|M i i|.
Proof.
have [_ _ _ _ sdimP] := ok.
by rewrite mxE -sdimP sdim_k /= ltn_ord.
Qed.

Lemma core_small j : `|N j j| <= tol.
Proof.
have [_ _ _ _ sdimP] := ok'; have := schur_sdim_compl ok ok'.
by rewrite sdim_k => /addnI sdim_m; rewrite mxE -sdimP sdim_m /= ltn_ord.
Qed.

Lemma core_upper : is_trig_mx N^T.
Proof. by have [_ _ trigT _ _] := ok'; apply: lead_sq_upper. Qed.

Lemma core_root j : root (char_poly A) (N j j).
Proof. by rewrite mxE; apply: schur_diag_root ok'. Qed.

Lemma core_unit_block : M \in unitmx.
Proof.
have [_ _ trigT _ _] := ok; apply: upper_unit => [|i]; first exact: lead_sq_upper.
by rewrite -normr_gt0 (le_lt_trans tol_ge0) // core_large.
Qed.

Lemma core_unit_basis : U \in unitmx.
Proof.
have [unitQ AQ trigT _ _] := ok; have [unitQ' AQ' trigT' _ _] := ok'.
apply: (core_basis_unit unitQ AQ trigT unitQ' AQ' trigT') => i j.
apply: contraTneq (core_large i) => ->.
by rewrite -leNgt core_small.
Qed.

Lemma core_eq : A *m U = U *m block_mx M 0 0 N.
Proof.
have [_ AQ trigT _ _] := ok; have [_ AQ' trigT' _ _] := ok'.
exact: core_basis_form.
Qed.

Lemma drazin_inverse_block :
  drazin_inverse la_schur A tol
  = Some (U *m block_mx (invmx M) 0 0 0 *m invmx U).
Proof.
move: sdim_k core_unit_basis core_unit_block core_eq.
rewrite /U /M /N /r /r' /drazin_inverse.
case: (la_schur A _) => [[T Q] k1]; case: (la_schur A _) => [[T' Q'] k2] /=.
move=> -> unitU unitM AU.
rewrite leq_addr hstack_lead_core la_inv_unit //.
rewrite -mulmxA AU mulKmx // lead_block_ul block_mxKul.
case: eqP => [k0|_] /=; last by rewrite la_inv_unit // zeros_with_lead_block.
suff -> : invmx (lead_sq (leq_addr m k) T) = 0 by rewrite block_mx0.
by apply/matrixP => i; move: (ltn_ord i); rewrite [X in (_ < X)%N]k0.
Qed.

End DrazinBlock.

Section DrazinCore.

Variable F : realFieldType.
Variable la_schur : schur_fun F.

Lemma upper_one_sub m (N : 'M[F]_m) :
  is_trig_mx N^T -> (forall j, `|N j j| < 1) -> 1%:M - N \in unitmx.
Proof.
move=> /upperP trigN diagN; apply: upper_unit => [|i].
  apply/upperP => i j lt_ji.
  by rewrite !mxE trigN // -val_eqE /= (gtn_eqF lt_ji) subrr.
rewrite !mxE eqxx subr_eq0; apply: contraTneq (diagN i) => <-.
by rewrite normr1 ltxx.
Qed.

Lemma drazin_inverse_cast k m n (e : (k + m)%N = n) (A : 'M[F]_n) (tol : F) :
  0 <= tol ->
  schur_ok A (fun x => tol < `|x|) (la_schur A (fun x => tol < `|x|)) ->
  schur_ok A (fun x => `|x| <= tol) (la_schur A (fun x => `|x| <= tol)) ->
  (la_schur A (fun x => tol < `|x|)).2 = k ->
  exists2 Ad, drazin_inverse la_schur A tol = Some Ad &
    [/\ A *m Ad = Ad *m A,
        Ad *m A *m Ad = Ad,
        (forall x, root (char_poly A) x -> `|x| <= tol -> x = 0) ->
          forall j, \rank (matrix_power A j) = \rank (matrix_power A j.+1) ->
          matrix_power A j.+1 *m Ad = matrix_power A j &
        tol < 1 -> forall v : 'rV[F]_n, v *m A = v -> v *m Ad = v].
Proof.
case: _ / e A => A tol_ge0 ok ok' sdim_k.
have unitU := core_unit_basis ok ok' sdim_k.
have unitM := core_unit_block tol_ge0 ok sdim_k.
have AU := core_eq ok ok'.
have trigN := core_upper ok'.
have small := core_small ok ok' sdim_k.
eexists; first exact: drazin_inverse_block.
split.
- by apply: (conj_commute unitU AU); apply: block_commute.
- by apply: (conj_outer unitU AU); apply: block_outer.
- move=> small0 j rk; apply: (conj_power unitU AU).
  apply: block_power_inv => //; apply: (rank_power_nil unitU AU _ rk).
  apply: upper_nilpotent trigN _ => i.
  exact: small0 (core_root ok' i) (small i).
move=> tol_lt1; apply: (conj_fixed unitU AU) => v; apply: block_fixed => //.
by apply: upper_one_sub trigN _ => j; apply: le_lt_trans tol_lt1.
Qed.

(** Under the contract of [la.schur], [drazin_inverse] returns a matrix
    [Ad] that commutes with [A] and satisfies [Ad A Ad = Ad]; where the
    eigenvalues within the tolerance are exactly [0], it satisfies
    [A^(j+1) Ad = A^j] as soon as the ranks of the powers of [A] settle at
    [j]; and for a tolerance below [1] it fixes the row vectors that [A]
    fixes. *)
Lemma drazin_inverse_core n (A : 'M[F]_n) (tol : F) :
  0 <= tol ->
  schur_ok A (fun x => tol < `|x|) (la_schur A (fun x => tol < `|x|)) ->
  schur_ok A (fun x => `|x| <= tol) (la_schur A (fun x => `|x| <= tol)) ->
  exists2 Ad, drazin_inverse la_schur A tol = Some Ad &
    [/\ A *m Ad = Ad *m A,
        Ad *m A *m Ad = Ad,
        (forall x, root (char_poly A) x -> `|x| <= tol -> x = 0) ->
          forall j, \rank (matrix_power A j) = \rank (matrix_power A j.+1) ->
          matrix_power A j.+1 *m Ad = matrix_power A j &
        tol < 1 -> forall v : 'rV[F]_n, v *m A = v -> v *m Ad = v].
Proof.
move=> tol_ge0 ok ok'; have [_ _ _ le_n _] := ok.
exact: (drazin_inverse_cast (subnKC le_n)).
Qed.

End DrazinCore.

(** ** [drazin_inverse] against [is_drazin] and [index] *)

Section IndexStable.

Variable F : realFieldType.

Lemma atol_gt0 : 0 < atol F.
Proof. by rewrite /atol invr_gt0 exprn_gt0 // ltr0n. Qed.

Lemma rtol_gt0 : 0 < rtol F.
Proof. by rewrite /rtol invr_gt0 exprn_gt0 // ltr0n. Qed.

Lemma isclose_refl (a : F) : isclose a a.
Proof.
rewrite /isclose subrr normr0 addr_ge0 ?mulr_ge0 ?normr_ge0 //.
  exact/ltW/atol_gt0.
exact/ltW/rtol_gt0.
Qed.

Lemma allclose_refl m n (A : 'M[F]_(m, n)) : allclose A A.
Proof. by apply/forallP => i; apply/forallP => j; apply: isclose_refl. Qed.

(** A determinant that [np.isclose] tells apart from [0] is not [0]. *)
Lemma not_isclose_unit n (A : 'M[F]_n) :
  ~~ isclose (\det A) 0 -> A \in unitmx.
Proof.
rewrite unitmxE unitfE; apply: contraNneq => ->.
exact: isclose_refl.
Qed.

(** At the value that [index] returns in exact arithmetic, the ranks of
    the powers have settled. *)
Lemma index_rank_stable n (A : 'M[F]_n) tol :
  \rank (matrix_power A (index (exact_linalg F) A tol))
  = \rank (matrix_power A (index (exact_linalg F) A tol).+1).
Proof.
rewrite /index; case: ifPn => [/not_isclose_unit unitA|].
  by rewrite matrix_power1 /matrix_power /= !mxrank_unit ?unitmx1.
rewrite negbK => cl.
have [rA|rA] := eqVneq (\rank A) n.
  rewrite index_loop_full ?(isclose_det_pos cl) //.
  by rewrite !matrix_powerS /matrix_power /= !mulmx1 eqmxMfull // /row_full rA.
have rk : (\rank (matrix_power A 1) + 1 <= n)%N.
  by rewrite matrix_power1 addn1 ltn_neqAle rA rank_leq_row.
have := @index_loop_first _ _ A n 1 (addn1 n) rk.
by rewrite matrix_power1 => -[].
Qed.

End IndexStable.

Section DrazinCorrect.

Variable F : realFieldType.
Variable la_schur : schur_fun F.
Variable n : nat.

(** Exact identities pass the test of [is_drazin]. *)
Lemma is_drazin_exact (A Ad : 'M[F]_n) k :
  A *m Ad = Ad *m A -> matrix_power A k.+1 *m Ad = matrix_power A k ->
  Ad *m A *m Ad = Ad -> is_drazin A Ad k.
Proof.
by rewrite /is_drazin => -> -> ->; rewrite !allclose_refl.
Qed.

(** X26: for a matrix whose eigenvalues within the tolerance of
    [drazin_inverse] are exactly [0], with a [la.schur] that meets its
    contract on the two calls and primitives of [index] that are exact on
    the matrix and its powers, [drazin_inverse] returns a matrix [Ad] that
    satisfies the three identities with the [k] that [index] returns, so
    that [is_drazin] accepts it. *)
Theorem drazin_inverse_identities (np : linalg F) (A : 'M[F]_n)
    (tol tol' : F) :
  0 <= tol ->
  schur_ok A (fun x => tol < `|x|) (la_schur A (fun x => tol < `|x|)) ->
  schur_ok A (fun x => `|x| <= tol) (la_schur A (fun x => `|x| <= tol)) ->
  (forall x, root (char_poly A) x -> `|x| <= tol -> x = 0) ->
  exact_on np A ->
  exists2 Ad, drazin_inverse la_schur A tol = Some Ad &
    [/\ A *m Ad = Ad *m A,
        matrix_power A (index np A tol').+1 *m Ad
        = matrix_power A (index np A tol'),
        Ad *m A *m Ad = Ad &
        is_drazin A Ad (index np A tol')].
Proof.
move=> tol_ge0 ok ok' small0 exact; rewrite (index_exact tol' tol' exact).
have [Ad -> [comm outer power _]] := drazin_inverse_core tol_ge0 ok ok'.
have pow := power small0 _ (index_rank_stable A tol').
by exists Ad => //; split=> //; apply: is_drazin_exact.
Qed.

End DrazinCorrect.

(** ** The resistance matrix in general; the Drazin inverse is unique *)

Section ResistanceCore.

Variable F : realFieldType.
Variable la_schur : schur_fun F.
Variable n : nat.
Implicit Types (A : 'M[F]_n).

Lemma grounded_row A j : row j 1%:M *m grounded A j = row j 1%:M.
Proof.
rewrite -row_mul mul1mx; apply/rowP => c.
by rewrite mxE groundedE eqxx !mxE.
Qed.

(** With a [la.schur] that meets its contract on every grounded Laplacian,
    every turn of the loop gets a matrix from [drazin_inverse], which
    fixes the row of the identity, and [effective_resistance] returns. *)
Lemma effective_resistance_ok A :
  (forall j, schur_ok_on la_schur (grounded A j) (drazin_tol F)) ->
  exists D : 'I_n -> 'M[F]_n,
    [/\ forall j, drazin_inverse la_schur (grounded A j) (drazin_tol F)
                  = Some (D j),
        forall j, row j 1%:M *m D j = row j 1%:M &
        effective_resistance la_schur A
        = Some (\matrix_(j, c) D j c c - 1%:M)].
Proof.
move=> ok.
pose D j := odflt 0 (drazin_inverse la_schur (grounded A j) (drazin_tol F)).
have tol_ge0 : 0 <= drazin_tol F by rewrite /drazin_tol; lra.
have tol_lt1 : drazin_tol F < 1 by rewrite /drazin_tol; lra.
have core j := drazin_inverse_core tol_ge0 (proj1 (ok j)) (proj2 (ok j)).
have drazinE j :
    drazin_inverse la_schur (grounded A j) (drazin_tol F) = Some (D j).
  by rewrite /D; have [Ad ->] := core j.
exists D; split=> // [j|]; last exact: effective_resistance_rows.
have [Ad] := core j; rewrite drazinE => -[<-] [_ _ _ fixAd].
exact: fixAd tol_lt1 _ (grounded_row A j).
Qed.

(** X27: with a [la.schur] that meets its contract on every grounded
    Laplacian, [effective_resistance] returns a matrix whose diagonal is
    zero, for every array [A], symmetric or not, connected or not. *)
Theorem effective_resistance_zero_diagonal A :
  (forall j, schur_ok_on la_schur (grounded A j) (drazin_tol F)) ->
  exists R,
    effective_resistance la_schur A = Some R /\ forall i, R i i = 0.
Proof.
move=> ok; have [D [drazinE fixed resE]] := effective_resistance_ok ok.
exists (\matrix_(j, c) D j c c - 1%:M); split=> // i.
have /rowP/(_ i) := fixed i.
by rewrite -row_mul mul1mx !mxE eqxx => ->; rewrite subrr.
Qed.

End ResistanceCore.

Section DrazinUnique.

Variable F : realFieldType.
Variable n : nat.
Implicit Types (A D : 'M[F]_n).

Lemma drazin_idem A D : D *m A *m D = D -> (A *m D) *m (A *m D) = A *m D.
Proof. by move=> DAD; rewrite -mulmxA (mulmxA D) DAD. Qed.

Lemma drazin_absorb A D j i :
  matrix_power A j.+1 *m D = matrix_power A j ->
  matrix_power A (i + j) *m (A *m D) = matrix_power A (i + j).
Proof.
move=> AjD; rewrite matrix_powerD -!mulmxA; congr (_ *m _).
by rewrite mulmxA -matrix_powerSr.
Qed.

Lemma drazin_left_factor A D k :
  A *m D = D *m A -> D *m A *m D = D ->
  exists X, A *m D = X *m matrix_power A k.
Proof.
move=> AD DAD; elim: k => [|k [X EX]]; first by exists (A *m D); rewrite mulmx1.
exists (X *m D); rewrite -(drazin_idem DAD) [X in X *m _]EX -!mulmxA.
congr (_ *m _); rewrite (mulmxA _ A) -matrix_powerSr.
exact: matrix_power_intertwine.
Qed.

Lemma drazin_right_factor A D k :
  A *m D = D *m A -> D *m A *m D = D ->
  exists Y, A *m D = matrix_power A k *m Y.
Proof.
move=> AD DAD; elim: k => [|k [Y EY]]; first by exists (A *m D); rewrite mul1mx.
have comm := matrix_power_intertwine k.+1 AD.
exists (D *m Y).
have -> : matrix_power A k.+1 *m (D *m Y) = D *m (matrix_power A k.+1 *m Y).
  by rewrite mulmxA comm -mulmxA.
rewrite matrix_powerS -[LHS](drazin_idem DAD) [X in _ *m X]EY AD.
by rewrite !mulmxA.
Qed.

(** A matrix has at most one Drazin inverse. *)
Lemma drazin_unique A D D' j j' :
  A *m D = D *m A -> D *m A *m D = D ->
  matrix_power A j.+1 *m D = matrix_power A j ->
  A *m D' = D' *m A -> D' *m A *m D' = D' ->
  matrix_power A j'.+1 *m D' = matrix_power A j' ->
  D = D'.
Proof.
move=> AD DAD AjD AD' DAD' AjD'.
have [X EX] := drazin_left_factor (j + j') AD DAD.
have [Y EY] := drazin_right_factor (j + j') AD' DAD'.
have EE' : (A *m D) *m (A *m D') = A *m D.
  by rewrite [in LHS]EX -mulmxA (drazin_absorb j AjD') -EX.
have E'E : (A *m D) *m (A *m D') = A *m D'.
  have AE : A *m (A *m D) = A *m D *m A by rewrite -mulmxA -AD.
  rewrite [X in _ *m X]EY mulmxA -(matrix_power_intertwine _ AE).
  by rewrite addnC (drazin_absorb j' AjD) addnC -EY.
have E : A *m D = A *m D' by rewrite -EE' E'E.
by rewrite -DAD -mulmxA E mulmxA -AD E AD'.
Qed.

End DrazinUnique.

(** ** A Schur decomposition for triangular matrices *)

Section SchurReference.

Variable F : realFieldType.

Variable n : nat.
Implicit Types (A : 'M[F]_n).

Lemma mul_rev_mx A i j : (rev_mx F n *m A) i j = A (rev_ord i) j.
Proof.
rewrite mxE (bigD1 (rev_ord i)) //= mxE rev_ordK eqxx mul1r.
rewrite big1 ?addr0 // => k ne_k; rewrite mxE.
by rewrite eq_sym (can2_eq rev_ordK rev_ordK) (negbTE ne_k) mul0r.
Qed.

Lemma mul_mx_rev A i j : (A *m rev_mx F n) i j = A i (rev_ord j).
Proof.
rewrite mxE (bigD1 (rev_ord j)) //= mxE eqxx mulr1.
by rewrite big1 ?addr0 // => k ne_k; rewrite mxE (negbTE ne_k) mulr0.
Qed.

Lemma rev_mxK : rev_mx F n *m rev_mx F n = 1%:M.
Proof.
by apply/matrixP=> i j; rewrite mul_rev_mx !mxE (inj_eq rev_ord_inj).
Qed.

Lemma count_sort_all (sort : 'I_n -> bool) :
  (forall i, sort i) -> count sort (enum 'I_n) = n.
Proof.
move=> all_sort; rewrite -[RHS]size_enum_ord; apply/eqP.
by rewrite -all_count; apply/allP.
Qed.

Lemma count_sort_none (sort : 'I_n -> bool) :
  (forall i, ~~ sort i) -> count sort (enum 'I_n) = 0%N.
Proof.
move=> no_sort; apply/eqP; rewrite -leqn0 leqNgt -has_count.
by apply/hasPn=> i _.
Qed.

(** [schur_ref] keeps the contract of [la.schur] on a triangular matrix
    when [sort] selects all of its diagonal, or nothing of it. *)
Lemma schur_ref_ok A (sort : F -> bool) :
  is_trig_mx A || is_trig_mx A^T ->
  (forall i, sort (A i i)) \/ (forall i, ~~ sort (A i i)) ->
  schur_ok A sort (schur_ref A sort).
Proof.
move=> trigA sorted; rewrite /schur_ref.
set sdim := count _ _.
have sdimP (d : 'I_n -> F) :
    (forall i, exists i', d i = A i' i') ->
    (sdim <= n)%N /\ forall i : 'I_n, (i < sdim)%N = sort (d i).
  move=> diag; rewrite /sdim; case: sorted => [all_sort|no_sort].
    rewrite count_sort_all // leqnn; split=> // i; rewrite ltn_ord.
    by have [i' ->] := diag i; rewrite all_sort.
  rewrite count_sort_none //; split=> // i; rewrite ltn0.
  by have [i' ->] := diag i; rewrite (negbTE (no_sort i')).
case: ifP trigA => [lower _|_ /= upper]; last first.
  have [le_n sortP] := sdimP (fun i => A i i) (fun i => ex_intro _ i erefl).
  by split; rewrite /= ?unitmx1 ?mulmx1 ?mul1mx.
have diag i : exists i', (rev_mx F n *m A *m rev_mx F n) i i = A i' i'.
  by exists (rev_ord i); rewrite mul_mx_rev mul_rev_mx.
have [le_n sortP] := sdimP _ diag.
split=> //=.
- by have [] := mulmx1_unit rev_mxK.
- by rewrite !mulmxA rev_mxK mul1mx.
- apply/is_trig_mxP=> i j lt_ij; rewrite mxE mul_mx_rev mul_rev_mx.
  move/is_trig_mxP: lower; apply; rewrite /= ltn_sub2l //.
  exact: leq_ltn_trans lt_ij (ltn_ord j).
Qed.

End SchurReference.

(** ** When [predict_link] returns a node itself *)

Section SelfLink.

Variable F : realFieldType.
Variable n : nat.
Implicit Types (self : LinkPredictor F n) (node : string).

(** When the first diagonal entry of [R_mute] is the least entry,
    [predict_link()] returns the first name twice. *)
Lemma predict_link_first self (i0 : 'I_n) :
  wf self -> val i0 = 0%N ->
  (forall a b, R_mute self i0 i0 <= R_mute self a b) ->
  exists2 name, dict_get (self_name_dict self) 0%N = Some name &
                predict_link self None = inr (NamePair name name).
Proof.
move=> wf_self i0E least0; have n_gt0 : (0 < n)%N by case: (n) i0 {i0E least0} => [[]|].
have [i [j] [name1] [name2] [-> get1 get2 least first]] :=
  predict_link_least wf_self n_gt0.
have ij0 : (i * n + j = 0)%N.
  apply/eqP; rewrite -leqn0 leqNgt; apply/negP=> pos.
  have := first i0 i0; rewrite i0E mul0n add0n => /(_ pos).
  by rewrite ltNge least0.
have j0 : val j = 0%N by move/eqP: ij0; rewrite addn_eq0 => /andP[_ /eqP].
have i0' : val i = 0%N.
  by move/eqP: ij0; rewrite addn_eq0 muln_eq0 (gtn_eqF n_gt0) orbF => /andP[/eqP].
by exists name1; rewrite -?i0' //; move: get2; rewrite j0 -i0' get1 => -[->].
Qed.

(** When the diagonal entry of the row of a node is the first least entry
    of the row, [predict_link(node)] returns the node. *)
Lemma predict_link_own self node (i : 'I_n) :
  wf self -> dict_get (self_index_dict self) node = Some (val i) ->
  (forall b, R_mute self i i <= R_mute self i b) ->
  (forall b : 'I_n, (b < i)%N -> R_mute self i i < R_mute self i b) ->
  predict_link self (Some node) = inr (Friend node).
Proof.
move=> wf_self geti least_i first_i.
have in_node := dict_get_key geti.
have [i' [j] [friend] [geti' -> getj least first]] :=
  predict_link_node wf_self in_node.
have eq_i : i' = i by apply: val_inj; move: geti'; rewrite geti => -[].
rewrite eq_i in least first.
have eq_j : j = i.
  apply: val_inj; case: (ltngtP j i) => // [/first_i|/first].
    by rewrite ltNge least.
  by rewrite ltNge least_i.
have [i'' [geti'' getn]] := wf_index wf_self in_node.
have eq_i'' : i'' = i by apply: val_inj; move: geti''; rewrite geti => -[].
by move: getj; rewrite eq_j -eq_i'' getn => -[->].
Qed.

End SelfLink.

(** ** Two nodes joined by a link of weight [w] *)

Section TwoNodes.

Variable F : realFieldType.
Variable w : F.
Hypothesis w_large : drazin_tol F < w.


Lemma ord2_cases (P : 'I_2 -> Prop) :
  P ord0 -> P (lift ord0 ord0) -> forall i, P i.
Proof.
move=> P0 P1 [[|[|i]] lt_i] //.
  by rewrite (_ : Ordinal lt_i = ord0) //; apply: val_inj.
by rewrite (_ : Ordinal lt_i = lift ord0 ord0) //; apply: val_inj.
Qed.

Lemma ord2_third (i j k : 'I_2) : i != j -> k != i -> k != j -> False.
Proof.
by elim/ord2_cases: i; elim/ord2_cases: j; elim/ord2_cases: k.
Qed.

Lemma two_nodes_sym : (two_nodes w)^T = (two_nodes w).
Proof. by apply/matrixP=> i j; rewrite !mxE eq_sym. Qed.

Lemma two_nodes_laplacian i c :
  csg_laplacian (two_nodes w) i c = if i == c then w else - w.
Proof.
rewrite mxE; case: eqP => [_|/eqP ne_ic]; last by rewrite mxE (negbTE ne_ic).
rewrite big_mkcond /=.
elim/ord2_cases: i; rewrite !big_ord_recl big_ord0 /= !mxE /=.
  by rewrite add0r addr0.
by rewrite !addr0.
Qed.

Lemma two_nodes_grounded j i c :
  grounded (two_nodes w) j i c =
    if i == j then (j == c)%:R else if i == c then w else - w.
Proof. by rewrite groundedE two_nodes_laplacian. Qed.

Lemma two_nodes_trig j :
  is_trig_mx (grounded (two_nodes w) j) || is_trig_mx (grounded (two_nodes w) j)^T.
Proof.
elim/ord2_cases: j; apply/orP; [left | right]; apply/is_trig_mxP=> i c.
  by rewrite two_nodes_grounded; elim/ord2_cases: i; elim/ord2_cases: c.
by rewrite mxE two_nodes_grounded; elim/ord2_cases: i; elim/ord2_cases: c.
Qed.

Lemma two_nodes_diag j i :
  grounded (two_nodes w) j i i = if i == j then 1 else w.
Proof. by rewrite two_nodes_grounded eqxx; case: eqP => [->|]; rewrite ?eqxx. Qed.

Lemma drazin_tol_lt1 : drazin_tol F < 1.
Proof. by rewrite /drazin_tol; lra. Qed.

(** The eigenvalues of the grounded Laplacians are [1] and [w]. *)
Lemma two_nodes_root j x :
  root (char_poly (grounded (two_nodes w) j)) x -> drazin_tol F < `|x|.
Proof.
have large i : drazin_tol F < `|grounded (two_nodes w) j i i|.
  rewrite two_nodes_diag; case: ifP => _; first by rewrite normr1 drazin_tol_lt1.
  by rewrite gtr0_norm // (lt_trans (drazin_tol_gt0 F)).
case/orP: (two_nodes_trig j) => trig.
  by rewrite char_poly_trig // root_prod_diag => /existsP[i /eqP->].
by rewrite char_poly_upper // root_prod_diag => /existsP[i /eqP->].
Qed.

Lemma two_nodes_sort j i :
  drazin_tol F < `|grounded (two_nodes w) j i i|.
Proof.
rewrite two_nodes_diag; case: ifP => _; first by rewrite normr1 drazin_tol_lt1.
by rewrite gtr0_norm // (lt_trans (drazin_tol_gt0 F)).
Qed.

Lemma two_nodes_unit j : grounded (two_nodes w) j \in unitmx.
Proof.
apply: unitmx_root0; apply/negP=> /two_nodes_root.
by rewrite normr0 ltNge ltW // drazin_tol_gt0.
Qed.

(** The diagonal of the inverses of the grounded Laplacians. *)
Lemma two_nodes_inv_diag j c :
  invmx (grounded (two_nodes w) j) c c = if j == c then 1 else w^-1.
Proof.
have unitG := two_nodes_unit j.
case: (eqVneq j c) => [<-|ne_jc]; first by rewrite grounded_inv_row ?eqxx.
have w_neq0 : w != 0 by rewrite gt_eqF // (lt_trans (drazin_tol_gt0 F)).
have none (f : 'I_2 -> F) r : r != j -> r != c -> f r = 0.
  by move=> ne_rj ne_rc; case: (ord2_third ne_jc ne_rj ne_rc).
have := laplacian_grounded_inv c c unitG.
rewrite eq_sym (negbTE ne_jc) eqxx [LHS]mxE (sum_two ne_jc (none _)).
rewrite !two_nodes_laplacian eqxx eq_sym (negbTE ne_jc).
rewrite grounded_inv_row // (negbTE ne_jc) mulr0 add0r => wX.
by rewrite -[LHS](mulKf w_neq0) wX mulr1.
Qed.

Variable la_schur : schur_fun F.
Hypothesis schur_large :
  forall j, schur_ok (grounded (two_nodes w) j) (fun x => drazin_tol F < `|x|)
              (la_schur (grounded (two_nodes w) j) (fun x => drazin_tol F < `|x|)).

(** The resistance matrix. *)
Lemma two_nodes_resistance :
  effective_resistance la_schur (two_nodes w)
    = Some (\matrix_(i, j) if i == j then 0 else w^-1).
Proof.
have [R [-> entry _ _]] :=
  effective_resistance_large two_nodes_sym schur_large two_nodes_root.
congr Some; apply/matrixP=> i j; rewrite entry mxE two_nodes_inv_diag.
by case: eqP => _; rewrite ?subrr ?subr0.
Qed.

End TwoNodes.

(** ** Two names *)

Section TwoNames.

Variable F : realFieldType.
Variable la_schur : schur_fun F.

Lemma build_dicts_ab :
  build_dicts ff_ab =
    ([:: ("a"%string, 0%N); ("b"%string, 1%N)],
     [:: (0%N, "a"%string); (1%N, "b"%string)], 2%N).
Proof. by []. Qed.

Lemma build_dicts_abab : build_dicts ff_abab = build_dicts ff_ab.
Proof. by []. Qed.

Lemma adjacency_ab :
  foldl (connect (build_dicts ff_ab).1.1) (ret 0) ff_ab
    = inr (two_nodes 1) :> result 'M[F]_2.
Proof.
rewrite /= /connect /= /mx_add /=; congr inr; apply/matrixP=> a b.
by rewrite !mxE; elim/ord2_cases: a; elim/ord2_cases: b; rewrite /= ?add0r.
Qed.

Lemma adjacency_abab :
  foldl (connect (build_dicts ff_abab).1.1) (ret 0) ff_abab
    = inr (two_nodes 2%:R) :> result 'M[F]_2.
Proof.
rewrite /= /connect /= /mx_add /=; congr inr; apply/matrixP=> a b.
by rewrite !mxE; elim/ord2_cases: a; elim/ord2_cases: b; rewrite /= ?add0r.
Qed.

(** What the constructor returns on the two files. *)
Lemma init_ab :
  (forall j, schur_ok (grounded (two_nodes 1) j) (fun x => drazin_tol F < `|x|)
       (la_schur (grounded (two_nodes 1) j) (fun x => drazin_tol F < `|x|))) ->
  init la_schur ff_ab =
    inr {| self_R := \matrix_(i, j) if i == j then 0 else 1^-1;
           self_names_list := ff_ab;
           self_index_dict := [:: ("a"%string, 0%N); ("b"%string, 1%N)];
           self_name_dict := [:: (0%N, "a"%string); (1%N, "b"%string)];
           self_A := two_nodes 1 |}.
Proof.
move=> ok; rewrite /init adjacency_ab /=.
by rewrite (two_nodes_resistance (drazin_tol_lt1 F) ok).
Qed.

Lemma two_gt_tol : drazin_tol F < 2%:R.
Proof. by rewrite /drazin_tol; lra. Qed.

Lemma init_abab :
  (forall j, schur_ok (grounded (two_nodes 2%:R) j)
       (fun x => drazin_tol F < `|x|)
       (la_schur (grounded (two_nodes 2%:R) j)
          (fun x => drazin_tol F < `|x|))) ->
  init la_schur ff_abab =
    inr {| self_R := \matrix_(i, j) if i == j then 0 else 2%:R^-1;
           self_names_list := ff_abab;
           self_index_dict := [:: ("a"%string, 0%N); ("b"%string, 1%N)];
           self_name_dict := [:: (0%N, "a"%string); (1%N, "b"%string)];
           self_A := two_nodes 2%:R |}.
Proof.
move=> ok; rewrite /init adjacency_abab /=.
by rewrite (two_nodes_resistance two_gt_tol ok).
Qed.

End TwoNames.

(** ** The calls on the objects built from the two files *)

Section TwoNamesCalls.

Variable F : realFieldType.
Variable la_schur : schur_fun F.

Lemma wf_self_ab : wf (self_ab F).
Proof. by []. Qed.

Lemma R_mute_ab (a b : 'I_2) :
  R_mute (self_ab F) a b = if a == b then 999%:R else 1000%:R.
Proof.
by rewrite /R_mute !mxE /=; case: eqP => _ /=; rewrite ?invr1; lra.
Qed.

Lemma R_mute_ab_least (a b : 'I_2) :
  R_mute (self_ab F) ord0 ord0 <= R_mute (self_ab F) a b.
Proof. by rewrite !R_mute_ab eqxx; case: ifP => _ //; rewrite ler_nat. Qed.

(** C6: the object built from the file with the single line [a,b] is one
    that [predict_link] recommends a link from a node to itself on: both
    nodes are linked already, so the minimum of [R_mute] lies on its
    diagonal.  [predict_link()] returns the pair [(a, a)], and
    [predict_link(a)] returns [a]. *)
Theorem predict_link_self_link :
  (forall j, schur_ok (grounded (two_nodes 1) j) (fun x => drazin_tol F < `|x|)
       (la_schur (grounded (two_nodes 1) j) (fun x => drazin_tol F < `|x|))) ->
  exists self : LinkPredictor F 2,
    [/\ init la_schur ff_ab = inr self,
        reachable la_schur self,
        predict_link self None = inr (NamePair "a" "a") &
        predict_link self (Some "a"%string) = inr (Friend "a")].
Proof.
move=> ok; have initE := init_ab ok; exists (self_ab F).
split=> //; first exact: reachable_init initE.
  have [name] := predict_link_first wf_self_ab (erefl : val (@ord0 1) = 0%N)
    R_mute_ab_least.
  by case=> <-.
by apply: (@predict_link_own _ _ _ _ ord0) => // b; rewrite R_mute_ab_least.
Qed.

End TwoNamesCalls.

(** ** Arrays as lists of rows, and a [la.schur] read from a table *)

Section ListMatrices.

Variable F : realFieldType.
Implicit Types (a b : seq (seq F)) (f : nat -> nat -> F).

Lemma seq_entry_tab n f i j :
  (i < n)%N -> (j < n)%N -> seq_entry (seq_tab n f) i j = f i j.
Proof.
move=> lt_i lt_j; rewrite /seq_entry /seq_tab.
rewrite (nth_map 0%N) ?size_iota // (nth_map 0%N) ?size_iota //.
by rewrite !nth_iota // !add0n.
Qed.

Lemma mx_of_tab n f : mx_of n (seq_tab n f) = \matrix_(i, j) f i j.
Proof. by apply/matrixP => i j; rewrite !mxE seq_entry_tab. Qed.

Lemma seq_sumE n (f : nat -> F) : seq_sum n f = \sum_(k < n) f k.
Proof.
rewrite -(big_mkord xpredT f) /index_iota subn0 /seq_sum.
by elim: (iota 0 n) => [|k r IH]; rewrite ?big_nil ?big_cons //= IH.
Qed.

Lemma mx_of_mul n a b : mx_of n a *m mx_of n b = mx_of n (seq_mul n a b).
Proof.
rewrite mx_of_tab; apply/matrixP => i j; rewrite !mxE seq_sumE.
by apply: eq_bigr => k _; rewrite !mxE.
Qed.

Lemma mx_of_one n : mx_of n (seq_one F n) = 1%:M.
Proof. by rewrite mx_of_tab; apply/matrixP => i j; rewrite !mxE. Qed.

Lemma seq_upperP n a : seq_upper n a -> is_trig_mx (mx_of n a)^T.
Proof.
move=> /allP up; apply/upperP => i j lt_ji; rewrite mxE.
have i_n : val i \in iota 0 n by rewrite mem_iota add0n /=.
have j_i : val j \in iota 0 i by rewrite mem_iota add0n /=.
by have /allP/(_ _ j_i)/eqP := up _ i_n.
Qed.

Lemma csg_laplacian_of n a :
  csg_laplacian (mx_of n a) = mx_of n (seq_laplacian n a).
Proof.
rewrite mx_of_tab; apply/matrixP => i j; rewrite !mxE -val_eqE.
case: eqP => _ //; rewrite seq_sumE big_mkcond /=.
by apply: eq_bigr => k _; rewrite -val_eqE mxE.
Qed.

Lemma grounded_of n a (j : 'I_n) :
  grounded (mx_of n a) j = mx_of n (seq_grounded n a j).
Proof.
rewrite mx_of_tab; apply/matrixP => i c.
by rewrite groundedE csg_laplacian_of !mxE -!val_eqE.
Qed.

End ListMatrices.

Section SchurTable.

Variable F : realFieldType.

Lemma entry_result_ok n (sort : F -> bool) (A : 'M[F]_n) e :
  entry_ok sort A e -> schur_ok A sort (entry_result n sort e).
Proof.
case: e => [[t z] zi] /and4P[/eqP AZ /eqP ZZi upper /allP sorted].
split=> //=.
- have : mx_of n z *m mx_of n zi = 1%:M by rewrite mx_of_mul ZZi mx_of_one.
  by case/mulmx1_unit.
- exact: seq_upperP.
- by rewrite (leq_trans (count_size _ _)) // size_map size_iota.
move=> i; have i_n : val i \in iota 0 n by rewrite mem_iota add0n /=.
by rewrite [mx_of n t i i]mxE (eqP (sorted _ i_n)).
Qed.

Lemma schur_tab_ok table n (sort : F -> bool) (A : 'M[F]_n) :
  has (entry_ok sort A) table -> schur_ok A sort (schur_tab table A sort).
Proof.
rewrite has_filter /schur_tab.
case E: [seq e <- table | entry_ok sort A e] => [//|e s] _.
apply: entry_result_ok.
have : e \in [seq e <- table | entry_ok sort A e] by rewrite E mem_head.
by rewrite mem_filter => /andP[].
Qed.

(** The eigenvalues of a matrix are on the diagonal of its Schur form. *)
Lemma schur_roots n (A : 'M[F]_n) sort r x :
  schur_ok A sort r -> root (char_poly A) x -> exists i, x = r.1.1 i i.
Proof.
case=> unitZ AZ trigT _ _; rewrite -(char_poly_similar unitZ AZ).
by rewrite char_poly_upper // root_prod_diag => /existsP[i /eqP->]; exists i.
Qed.

Lemma entry_small_roots n (sort : F -> bool) (A : 'M[F]_n) e (tol : F) :
  entry_ok sort A e ->
  all (fun x => (`|x| <= tol) ==> (x == 0)) (seq_diag n e.1.1) ->
  forall x, root (char_poly A) x -> `|x| <= tol -> x = 0.
Proof.
move=> /entry_result_ok ok /allP small x /(schur_roots ok)[i ->].
case: e ok small => [[t z] zi] /= _ small; rewrite mxE => le_tol.
have : seq_entry t i i \in seq_diag n t.
  by apply/mapP; exists (val i); rewrite // mem_iota add0n /=.
by move/small; rewrite le_tol => /eqP.
Qed.

End SchurTable.

(** ** Two small matrices *)

Section NilTwo.

Variable F : realFieldType.

Lemma nil_two_trig : is_trig_mx (nil_two F).
Proof.
apply/is_trig_mxP => i j; rewrite mxE.
by elim/ord2_cases: i; elim/ord2_cases: j.
Qed.

Lemma nil_two_diag i : (nil_two F) i i = 0.
Proof. by rewrite mxE; elim/ord2_cases: i. Qed.

Lemma nil_two_root x : root (char_poly (nil_two F)) x -> x = 0.
Proof.
rewrite char_poly_trig ?nil_two_trig // root_prod_diag.
by case/existsP=> i /eqP->; rewrite nil_two_diag.
Qed.

Lemma schur_ref_nil_two (sort : F -> bool) :
  schur_ok (nil_two F) sort (schur_ref (nil_two F) sort).
Proof.
apply: schur_ref_ok; first by rewrite nil_two_trig.
have [sort0|sort0] := boolP (sort 0).
  by left=> i; rewrite nil_two_diag.
by right=> i; rewrite nil_two_diag.
Qed.

End NilTwo.

Section SmallScalar.

Variable F : realFieldType.

Lemma small_scalar_root x :
  root (char_poly (small_scalar F)) x -> `|x| <= drazin_tol F.
Proof.
rewrite char_poly_trig ?mx11_is_trig // root_prod_diag.
case/existsP=> i /eqP->; rewrite mxE eqxx mulr1n /drazin_tol.
by rewrite ger0_norm; lra.
Qed.

Lemma schur_ref_small_scalar (sort : F -> bool) :
  schur_ok (small_scalar F) sort (schur_ref (small_scalar F) sort).
Proof.
apply: schur_ref_ok; first by rewrite mx11_is_trig.
have diagE (i : 'I_1) : small_scalar F i i = 10%:R ^- 5.
  by rewrite mxE eqxx mulr1n.
have [sort0|sort0] := boolP (sort (10%:R ^- 5)).
  by left=> i; rewrite diagE.
by right=> i; rewrite diagE.
Qed.

Lemma index_small_scalar tol :
  index (exact_linalg F) (small_scalar F) tol = 0%N.
Proof.
rewrite /index /= /(small_scalar F) det_scalar expr1 /isclose subr0 normr0 mulr0 addr0.
suff -> : (`|10%:R ^- 5| <= atol F) = false by [].
by apply/negbTE; rewrite -ltNge /atol gtr0_norm; lra.
Qed.

Lemma is_drazin_small_scalar : is_drazin (small_scalar F) 0 0 = false.
Proof.
rewrite /is_drazin mulmx0 mul0mx allclose_refl /=.
apply/negbTE; rewrite negb_and; apply/orP; left.
apply/negP => /forallP/(_ ord0)/forallP/(_ ord0).
rewrite /matrix_power /= mulmx0 !mxE /= /isclose sub0r normrN normr1 mulr1.
by rewrite /atol /rtol; apply/negP; rewrite -ltNge; lra.
Qed.

End SmallScalar.

(** ** A graph with two components *)

Section FourNodes.

Lemma ord4_cases (P : 'I_4 -> Prop) :
  P (@node4 0 isT) -> P (@node4 1 isT) -> P (@node4 2 isT) ->
  P (@node4 3 isT) -> forall i, P i.
Proof.
move=> P0 P1 P2 P3 [[|[|[|[|i]]]] lt_i] //.
- by rewrite (_ : Ordinal lt_i = @node4 0 isT) //; apply: val_inj.
- by rewrite (_ : Ordinal lt_i = @node4 1 isT) //; apply: val_inj.
- by rewrite (_ : Ordinal lt_i = @node4 2 isT) //; apply: val_inj.
by rewrite (_ : Ordinal lt_i = @node4 3 isT) //; apply: val_inj.
Qed.

Lemma adjacency_abcd :
  foldl (connect (build_dicts ff_abcd).1.1) (ret 0) ff_abcd = inr four_nodes.
Proof.
rewrite /= /connect /= /mx_add /=; congr inr; apply/matrixP=> a b.
rewrite !mxE.
by elim/ord4_cases: a; elim/ord4_cases: b; apply/eqP; vm_compute.
Qed.




Lemma four_entry_ok (j : 'I_4) (large : bool) :
  entry_ok
    (if large then (fun x => drazin_tol rat < `|x|)
     else (fun x => `|x| <= drazin_tol rat))
    (grounded four_nodes j)
    (nth ([::], [::], [::]) four_table (j.*2 + ~~ large)).
Proof.
rewrite /four_nodes grounded_of.
elim/ord4_cases: j; case: large; rewrite [nth _ _ _]/=;
  (apply/and4P; split; [| by vm_compute | by vm_compute | by vm_compute]);
  by rewrite !mx_of_mul; apply/eqP; congr (mx_of _ _); apply/eqP; vm_compute.
Qed.

Lemma four_table_ok j :
  schur_ok_on (schur_tab four_table) (grounded four_nodes j) (drazin_tol rat).
Proof.
have lt_j (b : bool) : (j.*2 + b < size four_table)%N.
  by elim/ord4_cases: j; case: b.
split; apply: schur_tab_ok; apply/hasP.
  by exists (nth ([::], [::], [::]) four_table (j.*2 + ~~ true));
    [apply: mem_nth | apply: (four_entry_ok j true)].
by exists (nth ([::], [::], [::]) four_table (j.*2 + ~~ false));
  [apply: mem_nth | apply: (four_entry_ok j false)].
Qed.

Lemma four_small_roots j x :
  root (char_poly (grounded four_nodes j)) x -> `|x| <= drazin_tol rat ->
  x = 0.
Proof.
apply: (entry_small_roots (four_entry_ok j true)).
by elim/ord4_cases: j; vm_compute.
Qed.

(** A list of rows that passes the three identities against a grounded
    Laplacian is what [drazin_inverse] returns on it. *)
Lemma four_drazin (j : 'I_4) (d : seq (seq rat)) :
  let G := seq_grounded 4 four_rows j in
  [&& seq_mul 4 G d == seq_mul 4 d G,
      seq_mul 4 (seq_mul 4 d G) d == d &
      seq_mul 4 (seq_mul 4 G G) d == G] ->
  drazin_inverse (schur_tab four_table) (grounded four_nodes j)
    (drazin_tol rat) = Some (mx_of 4 d).
Proof.
move=> G /and3P[/eqP comm_d /eqP outer_d /eqP power_d].
have [okf okg] := four_table_ok j.
have tol_ge0 : 0 <= drazin_tol rat := ltW (drazin_tol_gt0 rat).
have [Ad -> [comm outer power _]] := drazin_inverse_core tol_ge0 okf okg.
have stable := index_rank_stable (grounded four_nodes j) 0.
have power_j := power (@four_small_roots j) _ stable.
congr Some; apply: (drazin_unique comm outer power_j (j' := 1)).
- by rewrite /four_nodes grounded_of !mx_of_mul comm_d.
- by rewrite /four_nodes grounded_of !mx_of_mul outer_d.
by rewrite /four_nodes grounded_of /matrix_power /= mulmx1 !mx_of_mul power_d.
Qed.


(** [effective_resistance_zero_diagonal] on the same file. *)
Lemma effective_resistance_zero_diagonal_witness :
  exists R : 'M[rat]_4,
    effective_resistance (schur_tab four_table) four_nodes = Some R /\
    forall i, R i i = 0.
Proof.
by apply: effective_resistance_zero_diagonal; apply: four_table_ok.
Defined.

End FourNodes.

(** ** The calls evaluated over the rationals *)

Section Evaluations.

(** [schur_ref] keeps the contract of [la.schur] on the grounded
    Laplacians of two linked nodes. *)
Lemma schur_ref_two_nodes (F : realFieldType) (w : F) (j : 'I_2) :
  drazin_tol F < w ->
  schur_ok (grounded (two_nodes w) j) (fun x => drazin_tol F < `|x|)
    (schur_ref (grounded (two_nodes w) j) (fun x => drazin_tol F < `|x|)).
Proof.
move=> w_large; apply: schur_ref_ok (two_nodes_trig w j) _.
by left=> i; apply: two_nodes_sort.
Qed.

Lemma predict_link_self_link_witness :
  exists self : LinkPredictor rat 2,
    [/\ init (@schur_ref rat) ff_ab = inr self,
        reachable (@schur_ref rat) self,
        predict_link self None = inr (NamePair "a" "a") &
        predict_link self (Some "a"%string) = inr (Friend "a")].
Proof.
apply: predict_link_self_link => j.
exact: schur_ref_two_nodes (drazin_tol_lt1 rat).
Defined.

(** The entry of the adjacency matrix that the file with two equal lines
    has raised to 2 is lowered to 1 by [add_link]. *)
Lemma add_link_lowers_weight :
  exists self : LinkPredictor rat 2,
    [/\ init (@schur_ref rat) ff_abab = inr self,
        self_A self ord0 (lift ord0 ord0) = 2%:R,
        self_A (after self (AddLink "a" "b")) ord0 (lift ord0 ord0) = 1 &
        self_A (after self (AddLink "a" "b")) ord0 (lift ord0 ord0)
          < self_A self ord0 (lift ord0 ord0)].
Proof.
eexists; split.
- by apply: init_abab => j; apply: schur_ref_two_nodes (two_gt_tol rat).
- by rewrite mxE.
- rewrite /after (@add_link_known _ _ _ _ _ ord0 (lift ord0 ord0)) //=.
  by rewrite mxE.
- rewrite /after (@add_link_known _ _ _ _ _ ord0 (lift ord0 ord0)) //=.
  by rewrite !mxE /=; lra.
Qed.

(** On the object built from the empty file, [predict_link()] raises the
    error of [argmin]. *)
Lemma predict_link_empty_file :
  exists self : LinkPredictor rat 0,
    init (@schur_ref rat) [::] = inr self /\
    predict_link self None =
      inl (ValueError "attempt to get argmin of an empty sequence").
Proof.
have [R resE] : exists R, effective_resistance (@schur_ref rat) (0 : 'M_0)
    = Some R.
  by eexists; apply: (effective_resistance_rows (D := fun=> 0)); case.
eexists; split; first by rewrite /init /= resE.
exact: predict_link_empty.
Qed.

(** The object built from the empty file is reachable and well formed, and
    [predict_link()] returns no pair of names on it. *)
Lemma predict_link_global_empty :
  exists self : LinkPredictor rat 0,
    [/\ init (@schur_ref rat) [::] = inr self,
        reachable (@schur_ref rat) self,
        wf self &
        forall name1 name2,
          predict_link self None <> inr (NamePair name1 name2)].
Proof.
have [R resE] : exists R, effective_resistance (@schur_ref rat) (0 : 'M_0)
    = Some R.
  by eexists; apply: (effective_resistance_rows (D := fun=> 0)); case.
have [self initE] : exists self : LinkPredictor rat 0,
    init (@schur_ref rat) [::] = inr self.
  by eexists; rewrite /init /= resE.
have reach : reachable (@schur_ref rat) self by apply: reachable_init initE.
exists self; split=> //; first exact: reachable_wf reach.
by move=> name1 name2; rewrite predict_link_empty.
Qed.

Lemma add_link_frame_witness :
  wf (@self_ab rat) /\
  exists i j : 'I_2,
    let self' := (add_link "a" "b" (@self_ab rat)).2 in
    [/\ dict_get (self_index_dict (@self_ab rat)) "a"%string = Some (val i),
        dict_get (self_index_dict (@self_ab rat)) "b"%string = Some (val j),
        (add_link "a" "b" (@self_ab rat)).1 = inr tt,
        forall a b, self_A self' a b =
          if ((a == i) && (b == j)) || ((a == j) && (b == i)) then 1
          else self_A (@self_ab rat) a b &
        [/\ self_R self' = self_R (@self_ab rat),
            self_index_dict self' = self_index_dict (@self_ab rat),
            self_name_dict self' = self_name_dict (@self_ab rat) &
            self_names_list self' = self_names_list (@self_ab rat)]].
Proof. by split=> //; apply: add_link_frame. Defined.

Lemma add_link_atomic_witness :
  add_link "a" "c" (@self_ab rat) =
    (inl (ValueError "nodes need to be in the graph"), @self_ab rat).
Proof. exact: add_link_atomic. Defined.

Lemma predict_link_global_witness :
  exists (i j : 'I_2) (name1 name2 : string),
    [/\ predict_link (@self_ab rat) None = inr (NamePair name1 name2),
        dict_get (self_name_dict (@self_ab rat)) i = Some name1,
        dict_get (self_name_dict (@self_ab rat)) j = Some name2,
        forall a b : 'I_2,
          R_mute (@self_ab rat) i j <= R_mute (@self_ab rat) a b &
        forall a b : 'I_2, (a * 2 + b < i * 2 + j)%N ->
          R_mute (@self_ab rat) i j < R_mute (@self_ab rat) a b].
Proof. exact: predict_link_global. Defined.

Lemma only_not_found_witness :
  [/\ forall node,
        predict_link (@self_ab rat) (Some node)
          = inl (ValueError "Node not in graph")
        <-> node \notin dict_keys (self_index_dict (@self_ab rat)),
      forall node, node \in dict_keys (self_index_dict (@self_ab rat)) ->
        exists friend,
          predict_link (@self_ab rat) (Some node) = inr (Friend friend),
      forall node1 node2,
        (add_link node1 node2 (@self_ab rat)).1
          = inl (ValueError "nodes need to be in the graph")
        <-> (node1 \notin dict_keys (self_index_dict (@self_ab rat)))
            || (node2 \notin dict_keys (self_index_dict (@self_ab rat))),
      forall node1 node2,
        node1 \in dict_keys (self_index_dict (@self_ab rat)) ->
        node2 \in dict_keys (self_index_dict (@self_ab rat)) ->
        (add_link node1 node2 (@self_ab rat)).1 = inr tt &
      (0 < 2)%N ->
        exists name1 name2,
          predict_link (@self_ab rat) None = inr (NamePair name1 name2)].
Proof. exact: only_not_found. Defined.

(** [drazin_inverse_identities] on the Laplacian of the file [a,b],
    [c,d], [c,d] grounded at its first node: a singular matrix that is not
    nilpotent, so that its Drazin inverse is not zero. *)
Lemma drazin_inverse_identities_witness :
  exists2 Ad,
    drazin_inverse (schur_tab four_table) (grounded four_nodes (@node4 0 isT))
      (drazin_tol rat) = Some Ad &
    [/\ grounded four_nodes (@node4 0 isT) *m Ad
        = Ad *m grounded four_nodes (@node4 0 isT),
        matrix_power (grounded four_nodes (@node4 0 isT))
          (index (exact_linalg rat) (grounded four_nodes (@node4 0 isT))
             (10%:R ^- 5)).+1 *m Ad
        = matrix_power (grounded four_nodes (@node4 0 isT))
            (index (exact_linalg rat) (grounded four_nodes (@node4 0 isT))
               (10%:R ^- 5)),
        Ad *m grounded four_nodes (@node4 0 isT) *m Ad = Ad &
        is_drazin (grounded four_nodes (@node4 0 isT)) Ad
          (index (exact_linalg rat) (grounded four_nodes (@node4 0 isT))
             (10%:R ^- 5))].
Proof.
apply: drazin_inverse_identities.
- exact: ltW (drazin_tol_gt0 rat).
- by case: (four_table_ok (@node4 0 isT)).
- by case: (four_table_ok (@node4 0 isT)).
- exact: four_small_roots.
- by split.
Defined.

(** C2: on [[1e-5]], with a [la.schur] that meets its contract,
    [drazin_inverse] returns the zero matrix, though the matrix is
    invertible, and [index], which reads the determinant [1e-5] of an
    array with one entry, returns [0]: [is_drazin] rejects the pair, since
    [A^1 * 0] is not close to [A^0]. *)
Lemma drazin_inverse_small_scalar :
  [/\ schur_ok (small_scalar rat) (fun x => drazin_tol rat < `|x|)
        (schur_ref (small_scalar rat) (fun x => drazin_tol rat < `|x|)),
      schur_ok (small_scalar rat) (fun x => `|x| <= drazin_tol rat)
        (schur_ref (small_scalar rat) (fun x => `|x| <= drazin_tol rat)),
      drazin_inverse (@schur_ref rat) (small_scalar rat) (drazin_tol rat)
      = Some 0,
      index (exact_linalg rat) (small_scalar rat) (10%:R ^- 5) = 0%N &
      is_drazin (small_scalar rat) 0 0 = false].
Proof.
split; try exact: schur_ref_small_scalar.
- apply: drazin_inverse_small; try exact: schur_ref_small_scalar.
  exact: small_scalar_root.
- exact: index_small_scalar.
exact: is_drazin_small_scalar.
Qed.

End Evaluations.

(** ** Facts about the file and the constructor *)

Section SplitFacts.

Variable sep : ascii.
Implicit Types (s t : string).

Lemma py_split_cons s : exists f fs, py_split sep s = f :: fs.
Proof.
elim: s => [|c s [f [fs E]]] /=; first by exists EmptyString, [::].
by case: Ascii.eqb; [exists EmptyString, (py_split sep s) | rewrite E; exists (String c f), fs].
Qed.

(** A string without the separator is one field. *)
Lemma py_split_free s : ~~ has_char sep s -> py_split sep s = [:: s].
Proof.
by elim: s => [//|c s IH] /=; case: Ascii.eqb => //= /IH ->.
Qed.

(** Splitting on both sides of a separator. *)
Lemma py_split_append s t :
  py_split sep (append s (String sep t)) = py_split sep s ++ py_split sep t.
Proof.
elim: s => [|c s IH] /=; first by rewrite Ascii.eqb_refl.
case: Ascii.eqb; first by rewrite IH.
by rewrite IH; have [f [fs ->]] := py_split_cons s.
Qed.

(** The number of fields is one more than the number of separators:
    there are two fields at least exactly when the separator occurs. *)
Lemma py_split_size s : (1 < size (py_split sep s))%N = has_char sep s.
Proof.
elim: s => [//|c s IH] /=; case: Ascii.eqb => /=.
  by have [f [fs ->]] := py_split_cons s.
by rewrite -IH; have [f [fs ->]] := py_split_cons s.
Qed.

End SplitFacts.

Section DropLast.

Variable T : Type.

Lemma drop_last_rcons (s : seq T) x : drop_last (rcons s x) = s.
Proof. by case: s => [//|y s] /=; rewrite belast_rcons. Qed.

Lemma drop_last_cat1 (s : seq T) x : drop_last (s ++ [:: x]) = s.
Proof. by rewrite cats1 drop_last_rcons. Qed.

End DropLast.


Section FirstOccurrence.

Implicit Types (s : seq string) (d : dicts) (x name : string).

Lemma build_dicts_names ff : build_dicts ff = foldl add_name no_dicts (names_of ff).
Proof.
rewrite /build_dicts -/no_dicts; elim: ff no_dicts => [//|p ff IH] d /=.
by rewrite IH.
Qed.

Lemma size_undup_rcons s x :
  size (undup (rcons s x))
  = if x \in s then size (undup s) else (size (undup s)).+1.
Proof.
case: ifPn => [x_s|x_s].
  apply/eqP; rewrite -(uniq_size_uniq (undup_uniq s)) ?undup_uniq // => y.
  by rewrite !mem_undup mem_rcons inE; case: eqP => // ->; rewrite x_s.
rewrite undup_rcons size_rcons; congr (size _).+1.
apply/all_filterP/allP => y; rewrite mem_undup => y_s.
by apply: contraNneq x_s => <-.
Qed.

Lemma dict_keys_set (V : Type) (d : dict string V) x v :
  dict_keys (dict_set d x v) =i x :: dict_keys d.
Proof.
move=> y; elim: d => [//|[k w] d IH] /=.
case: eqP => [->|_] /=; first by rewrite !inE orbA orbb.
by rewrite !inE IH !inE orbCA.
Qed.

(** What the first loop has built after the names [s]. *)
Lemma add_names_spec s :
  let: (index_dict, name_dict, i) := foldl add_name no_dicts s in
  [/\ i = size (undup s),
      dict_keys index_dict =i s &
      forall x, x \in s ->
        dict_get index_dict x = Some (size (undup (take (seq.index x s) s)))].
Proof.
elim/last_ind: s => [|s y]; first by split.
rewrite foldl_rcons; case: (foldl _ _ _) => [[index_dict name_dict] i] /=.
move=> [-> keys get]; rewrite keys size_undup_rcons.
have old x : x \in s ->
    take (seq.index x (rcons s y)) (rcons s y) = take (seq.index x s) s.
  move=> x_s; rewrite -cats1 index_cat x_s takel_cat //.
  by rewrite leq_eqVlt index_mem x_s orbT.
case: ifPn => [y_s|]; last first.
  rewrite negbK => y_s; rewrite y_s; split=> // [x|x].
    by rewrite keys mem_rcons inE; case: eqP => // ->.
  rewrite mem_rcons inE => /orP[/eqP->|x_s]; first by rewrite old ?get.
  by rewrite old ?get.
rewrite (negbTE y_s); split=> // [x|x].
  by rewrite dict_keys_set inE keys mem_rcons inE.
rewrite mem_rcons inE dict_get_set eq_sym.
case: eqP => [<- _|_ /= x_s]; last by rewrite old ?get.
by rewrite -cats1 index_cat (negbTE y_s) /= eqxx addn0 take_size_cat.
Qed.


(** X1: the first loop of the constructor numbers the names in the order
    of their first occurrence in the file: the index of a name is the
    number of distinct names met before it, a string that is not in the
    file has no index, and the number of nodes is the number of distinct
    names. *)
Theorem index_dict_first_occurrence ff name :
  node_count ff = size (undup (names_of ff)) /\
  dict_get (build_dicts ff).1.1 name =
    if name \in names_of ff then
      Some (size (undup (take (seq.index name (names_of ff)) (names_of ff))))
    else None.
Proof.
have := add_names_spec (names_of ff); have := build_dicts_inv ff.
rewrite /node_count build_dicts_names.
case: (foldl _ _ _) => [[index_dict name_dict] i] /= [sz _ _ _] [iE keys get].
split; first by rewrite sz.
case: ifPn => [/get //|]; rewrite -keys; exact: dict_get_notin.
Qed.

End FirstOccurrence.

(** ** The adjacency matrix of the constructor *)

Section Adjacency.

Variable F : realFieldType.
Variable la_schur : schur_fun F.

Lemma mx_addE n (M : 'M[F]_n) (i j : 'I_n) v :
  mx_add M i j v
  = inr (\matrix_(a, b) (M a b + v *+ ((a == i) && (b == j)))).
Proof.
rewrite /mx_add !ltn_ord /=; congr inr; apply/matrixP=> a b; rewrite !mxE.
by rewrite -!val_eqE /=; case: ifP => _; rewrite ?mulr1n ?mulr0n ?addr0.
Qed.

(** The second loop, on pairs of names that have an index below [n]. *)
Lemma connect_fold n (index_dict : dict string nat) (s : name_pairs)
    (A0 : 'M[F]_n) :
  (forall name j, dict_get index_dict name = Some j -> (j < n)%N) ->
  all (fun p => (p.1 \in dict_keys index_dict)
                && (p.2 \in dict_keys index_dict)) s ->
  foldl (connect index_dict) (ret A0) s =
    inr (\matrix_(a, b)
           (A0 a b +
            (count (fun p => (dict_get index_dict p.1 == Some (val a))
                             && (dict_get index_dict p.2 == Some (val b))) s
             + count (fun p => (dict_get index_dict p.1 == Some (val b))
                               && (dict_get index_dict p.2 == Some (val a))) s
            )%:R)).
Proof.
move=> bound; elim: s A0 => [|p s IH] A0 /=.
  by move=> _; congr inr; apply/matrixP=> a b; rewrite mxE addr0.
case/andP=> /andP[/dict_get_mem[i1 get1] /dict_get_mem[i2 get2]] in_s.
rewrite /connect /= get1 get2 /=.
have lt1 := bound _ _ get1; have lt2 := bound _ _ get2.
rewrite (mx_addE _ (Ordinal lt1) (Ordinal lt2)) /=.
rewrite (mx_addE _ (Ordinal lt2) (Ordinal lt1)) /= -/(connect index_dict).
rewrite IH //; congr inr; apply/matrixP=> a b; rewrite !mxE -!addrA.
congr (_ + _); rewrite -!val_eqE /= !(inj_eq Some_inj) ![val _ == _]eq_sym.
rewrite [(i1 == b) && _]andbC !natrD !addrA; congr (_ + _).
by rewrite addrAC.
Qed.

(** The names of the file are the keys of the dictionary. *)
Lemma build_dicts_keys ff :
  dict_keys (build_dicts ff).1.1 =i names_of ff.
Proof.
have := add_names_spec (names_of ff); rewrite build_dicts_names.
by case: (foldl _ _ _) => [[index_dict name_dict] i] /= [].
Qed.

Lemma mem_names_of ff (p : string * string) :
  p \in ff -> (p.1 \in names_of ff) && (p.2 \in names_of ff).
Proof.
elim: ff => [//|q ff IH]; rewrite inE /names_of /= !inE.
case/orP=> [/eqP->|/IH/andP[-> ->]]; first by rewrite !eqxx ?orbT.
by rewrite !orbT.
Qed.

(** An index belongs to one name. *)
Lemma build_dicts_inj ff name1 name2 j :
  dict_get (build_dicts ff).1.1 name1 = Some j ->
  dict_get (build_dicts ff).1.1 name2 = Some j -> name1 = name2.
Proof.
have := build_dicts_inv ff.
case: (build_dicts ff) => [[index_dict name_dict] i] /= [_ _ idx _].
by move=> /idx[_ get1] /idx[_]; rewrite get1 => -[].
Qed.

Lemma build_dicts_bound ff name j :
  dict_get (build_dicts ff).1.1 name = Some j -> (j < node_count ff)%N.
Proof.
have := build_dicts_inv ff; rewrite /node_count.
case: (build_dicts ff) => [[index_dict name_dict] i] /= [-> _ idx _].
by case/idx.
Qed.

(** What the second loop builds. *)
Lemma adjacency_fold ff :
  exists A : 'M[F]_(node_count ff),
    [/\ foldl (connect (build_dicts ff).1.1) (ret 0) ff = inr A,
        A^T = A &
        forall name1 name2 (i j : 'I_(node_count ff)),
          dict_get (build_dicts ff).1.1 name1 = Some (val i) ->
          dict_get (build_dicts ff).1.1 name2 = Some (val j) ->
          A i j = (count_mem (name1, name2) ff
                   + count_mem (name2, name1) ff)%:R].
Proof.
eexists; split.
- apply: connect_fold; first exact: build_dicts_bound.
  by apply/allP=> p /mem_names_of; rewrite !build_dicts_keys.
- by apply/matrixP=> a b; rewrite !mxE !add0r addnC.
move=> name1 name2 i j get1 get2; rewrite !mxE add0r.
have same x y (a b : nat) :
    dict_get (build_dicts ff).1.1 x = Some a ->
    dict_get (build_dicts ff).1.1 y = Some b ->
    count (fun p => (dict_get (build_dicts ff).1.1 p.1 == Some a)
                    && (dict_get (build_dicts ff).1.1 p.2 == Some b)) ff
    = count_mem (x, y) ff.
  move=> getx gety; apply: eq_count => -[x' y'] /=; rewrite xpair_eqE.
  congr (_ && _); apply/eqP/eqP => [get|->] //.
    exact: build_dicts_inj get getx.
  exact: build_dicts_inj get gety.
by rewrite (same _ _ _ _ get1 get2) (same _ _ _ _ get2 get1).
Qed.

(** X2: the second loop of the constructor never fails, and the adjacency
    matrix it builds is symmetric: the entry of two names is the number of
    lines of the file that hold the two names, in either order (a line
    [a,a] counts twice on the diagonal). *)
Theorem init_adjacency ff :
  exists A : 'M[F]_(node_count ff),
    [/\ foldl (connect (build_dicts ff).1.1) (ret 0) ff = inr A,
        forall self, init la_schur ff = inr self -> self_A self = A,
        A^T = A &
        forall name1 name2 (i j : 'I_(node_count ff)),
          dict_get (build_dicts ff).1.1 name1 = Some (val i) ->
          dict_get (build_dicts ff).1.1 name2 = Some (val j) ->
          A i j = (count_mem (name1, name2) ff
                   + count_mem (name2, name1) ff)%:R].
Proof.
have [A [foldE symA entry]] := adjacency_fold ff.
exists A; split=> // self /init_fields[_ _ _].
by rewrite foldE => -[].
Qed.

(** The constructor raises the error of [la.inv] or none. *)
Lemma init_raises ff e : init la_schur ff = inl e -> e = LinAlgError.
Proof.
have [A [foldE _ _]] := adjacency_fold ff.
by rewrite /init foldE /=; case: effective_resistance => //= -[].
Qed.

End Adjacency.

(** ** The text of the file *)

Section TextFacts.

Variable F : realFieldType.
Variable la_schur : schur_fun F.

Implicit Types (s t text : string) (ff : name_pairs).

Lemma appendA s t u : append (append s t) u = append s (append t u).
Proof. by elim: s => [//|c s IH] /=; rewrite IH. Qed.

Lemma has_char_append c s t :
  has_char c (append s t) = has_char c s || has_char c t.
Proof. by elim: s => [//|c' s IH] /=; rewrite IH orbA. Qed.

Lemma drop_last_map (T U : Type) (f : T -> U) (l : seq T) :
  drop_last [seq f x | x <- l] = [seq f x | x <- drop_last l].
Proof. by case: l => [//|x l] /=; rewrite belast_map. Qed.

(** The rows of the file are the lines before the last newline. *)
Lemma read_rowsE text :
  read_rows text
  = [seq py_split comma line | line <- drop_last (py_split newline text)].
Proof. by rewrite /read_rows drop_last_map. Qed.

(** The lines of the text of a list of pairs. *)
Lemma py_split_render ff :
  all (fun p => plain p.1 && plain p.2) ff ->
  py_split newline (render ff)
  = rcons [seq append p.1 (String comma p.2) | p <- ff] EmptyString.
Proof.
elim: ff => [//|p ff IH] /= /andP[/andP[/andP[_ p1] /andP[_ p2]] /IH <-].
rewrite -[String comma _]/(append (String comma p.2) _) -appendA.
rewrite py_split_append py_split_free //.
by rewrite has_char_append /= negb_or p1 p2.
Qed.

Lemma py_split_line (p : string * string) :
  plain p.1 && plain p.2 ->
  py_split comma (append p.1 (String comma p.2)) = [:: p.1; p.2].
Proof.
case/andP=> /andP[p1 _] /andP[p2 _].
by rewrite py_split_append !py_split_free.
Qed.

Lemma read_rows_render ff :
  all (fun p => plain p.1 && plain p.2) ff ->
  read_rows (render ff) = [seq [:: p.1; p.2] | p <- ff].
Proof.
move=> plain_ff; rewrite read_rowsE py_split_render // drop_last_rcons.
rewrite -map_comp; apply/eq_in_map => p p_ff /=.
exact/py_split_line/(allP plain_ff).
Qed.

(** X3: a file written with one line [name1,name2] and a newline for every
    pair, with names that hold neither a comma nor a newline, is read back
    as the same pairs: the constructor does on the text what it does on
    the pairs. *)
Theorem init_text_render ff :
  all (fun p => plain p.1 && plain p.2) ff ->
  read_rows (render ff) = [seq [:: p.1; p.2] | p <- ff] /\
  init_text la_schur (render ff)
  = (self <- init la_schur ff ;; ret (existT _ _ self)).
Proof.
move=> plain_ff; have rowsE := read_rows_render plain_ff; split=> //.
have pairsE : rows_pairs [seq [:: p.1; p.2] | p <- ff] = ff.
  rewrite /rows_pairs -map_comp -[RHS]map_id.
  by apply: eq_map => -[name1 name2].
have -> : init_text la_schur (render ff)
    = init_rows la_schur [seq [:: p.1; p.2] | p <- ff].
  by rewrite /init_text rowsE.
rewrite /init_rows pairsE (_ : all _ _) //.
by apply/allP=> row /mapP[p _ ->].
Qed.

(** X4: what follows the last newline of the text is not read: a last
    line that is not ended by a newline is lost, and a text without any
    newline gives no row at all. *)
Theorem read_rows_last_line s t :
  ~~ has_char newline t ->
  read_rows t = [::] /\
  read_rows (append s (String newline t))
  = [seq py_split comma line | line <- py_split newline s].
Proof.
move=> free_t; rewrite !read_rowsE py_split_append (py_split_free free_t).
by rewrite drop_last_cat1.
Qed.

Lemma init_rows_index_error rows :
  init_rows la_schur rows = inl IndexError
  <-> has (fun row => size row <= 1)%N rows.
Proof.
have -> : has (fun row => size row <= 1)%N rows
    = ~~ all (fun row => 1 < size row)%N rows.
  by rewrite -has_predC; apply: eq_has => row /=; rewrite -leqNgt.
rewrite /init_rows; case: all => /=; last by split.
split=> //; case E: init => [e|self] //=.
by rewrite (init_raises E).
Qed.

(** X5: the constructor raises an [IndexError] exactly when a line before
    the last newline holds no comma (an empty line is one); it raises no
    other error than this one and the one of [la.inv]. *)
Theorem init_text_errors text :
  (init_text la_schur text = inl IndexError
   <-> has (fun line => ~~ has_char comma line)
           (drop_last (py_split newline text))) /\
  forall e, init_text la_schur text = inl e ->
    e = IndexError \/ e = LinAlgError.
Proof.
split.
  rewrite /init_text init_rows_index_error read_rowsE has_map.
  by rewrite (eq_has (a2 := fun line => ~~ has_char comma line)) // => line;
    rewrite /= leqNgt py_split_size.
move=> e; rewrite /init_text /init_rows; case: all => /=; last first.
  by case=> <-; left.
by case E: init => [e'|self] //= -[<-]; right; apply: init_raises E.
Qed.

End TextFacts.

(** ** How the calls compose *)

Section CallAlgebra.

Variable F : realFieldType.
Variable n : nat.
Implicit Types (self : LinkPredictor F n) (node : string).

(** [add_link] in one step, on any object: the error of the test, the
    errors of the look-ups and of the two assignments, or the object with
    the two entries set. *)
Lemma add_linkE self node1 node2 :
  add_link node1 node2 self =
    if (node1 \notin dict_keys (self_index_dict self))
       || (node2 \notin dict_keys (self_index_dict self)) then
      (inl (ValueError "nodes need to be in the graph"), self)
    else
      match dict_get (self_index_dict self) node1,
            dict_get (self_index_dict self) node2 with
      | Some i, Some j =>
          if (i < n)%N && (j < n)%N then
            (inr tt,
             {| self_R := self_R self;
                self_names_list := self_names_list self;
                self_index_dict := self_index_dict self;
                self_name_dict := self_name_dict self;
                self_A := \matrix_(a, b)
                  if ((val a == i) && (val b == j))
                     || ((val a == j) && (val b == i)) then 1
                  else self_A self a b |})
          else (inl IndexError, self)
      | _, _ => (inl KeyError, self)
      end.
Proof.
rewrite /add_link; case: ifP => // _.
rewrite /bind_method /lift_result.
case: dict_get => [i|] //=; case: dict_get => [j|] //=.
rewrite /set_A /mx_set; case: ifP => //= lt_ij; rewrite andbC lt_ij.
congr (_, _); congr Build_LinkPredictor; apply/matrixP=> a b; rewrite !mxE.
by case: ifP => _; rewrite ?orbT //= orbF.
Qed.

(** X6: [add_link] does not depend on the order of its two names. *)
Theorem add_link_swap self node1 node2 :
  add_link node1 node2 self = add_link node2 node1 self.
Proof.
rewrite !add_linkE orbC; case: ifP => // _.
case: dict_get => [i|]; case: dict_get => [j|] //.
rewrite andbC; case: ifP => // _.
congr (_, _); congr Build_LinkPredictor; apply/matrixP=> a b; rewrite !mxE.
by rewrite orbC.
Qed.

(** X7: a second call of [add_link] on the same names changes nothing: it
    has the outcome of the first call and leaves the object as the first
    call left it. *)
Theorem add_link_twice self node1 node2 :
  add_link node1 node2 (add_link node1 node2 self).2
  = add_link node1 node2 self.
Proof.
rewrite [in RHS]add_linkE [in X in add_link _ _ X]add_linkE.
case: ifP => [unknown|known] /=; first by rewrite add_linkE unknown.
case get1: dict_get => [i|]; last by rewrite add_linkE known get1.
case get2: dict_get => [j|]; last by rewrite add_linkE known get1 get2.
case: ifP => [lt_ij|ge_ij] /=; last by rewrite add_linkE known get1 get2 ge_ij.
rewrite add_linkE /= known get1 get2 lt_ij.
congr (_, _); congr Build_LinkPredictor; apply/matrixP=> a b; rewrite !mxE.
by case: (_ || _).
Qed.

(** The entries that [add_link] sets, from the dictionary and the names. *)
Let hit (index_dict : dict string nat) node1 node2 (a b : 'I_n) : bool :=
  [&& node1 \in dict_keys index_dict, node2 \in dict_keys index_dict &
      if dict_get index_dict node1 is Some i then
        if dict_get index_dict node2 is Some j then
          [&& (i < n)%N, (j < n)%N &
              ((val a == i) && (val b == j)) || ((val a == j) && (val b == i))]
        else false
      else false].

Lemma add_link_state self node1 node2 :
  (add_link node1 node2 self).2 =
    {| self_R := self_R self;
       self_names_list := self_names_list self;
       self_index_dict := self_index_dict self;
       self_name_dict := self_name_dict self;
       self_A := \matrix_(a, b)
         if hit (self_index_dict self) node1 node2 a b then 1
         else self_A self a b |}.
Proof.
have eta R l d d' (A B : 'M[F]_n) : A = B ->
    Build_LinkPredictor R l d d' A = Build_LinkPredictor R l d d' B.
  by move=> ->.
case: self => R l d d' A; rewrite add_linkE /hit /=.
case in1: (node1 \in dict_keys d); case in2: (node2 \in dict_keys d) => /=;
  try by apply: eta; apply/matrixP=> a b; rewrite mxE.
case: dict_get => [i|] /=; last by apply: eta; apply/matrixP=> a b; rewrite mxE.
case: dict_get => [j|] /=; last by apply: eta; apply/matrixP=> a b; rewrite mxE.
by case lt_i: (i < n)%N; case lt_j: (j < n)%N => /=;
  apply: eta; apply/matrixP=> a b; rewrite !mxE.
Qed.

(** X8: two calls of [add_link] commute: in either order they leave the
    same object, and the outcome of each call is the one it has alone. *)
Theorem add_link_commute self node1 node2 node3 node4 :
  [/\ (add_link node3 node4 (add_link node1 node2 self).2).2
      = (add_link node1 node2 (add_link node3 node4 self).2).2,
      (add_link node3 node4 (add_link node1 node2 self).2).1
      = (add_link node3 node4 self).1 &
      (add_link node1 node2 (add_link node3 node4 self).2).1
      = (add_link node1 node2 self).1].
Proof.
have outcome x y (s s' : LinkPredictor F n) :
    self_index_dict s' = self_index_dict s ->
    (add_link x y s').1 = (add_link x y s).1.
  move=> same; rewrite !add_linkE same; case: ifP => // _.
  by case: dict_get => [i|] //; case: dict_get => [j|] //; case: ifP.
split; try by apply: outcome; rewrite add_link_state.
rewrite 2![in LHS]add_link_state 2![in RHS]add_link_state /=.
congr Build_LinkPredictor; apply/matrixP=> a b; rewrite !mxE.
by do 2!case: hit.
Qed.

(** [add_link] keeps the adjacency matrix symmetric. *)
Lemma add_link_sym self node1 node2 :
  (self_A self)^T = self_A self ->
  (self_A (add_link node1 node2 self).2)^T
  = self_A (add_link node1 node2 self).2.
Proof.
move=> symA; rewrite add_link_state /=; apply/matrixP=> a b; rewrite !mxE.
rewrite -[in LHS]symA mxE /hit; congr (if _ then _ else _).
do 2!congr (_ && _); case: dict_get => [i|] //; case: dict_get => [j|] //.
by rewrite orbC ![(val b == _) && _]andbC.
Qed.

(** X9: the link that [predict_link] recommends can be handed to
    [add_link]: on a well-formed object, the names that [predict_link()]
    returns, and the name that [predict_link(node)] returns with [node],
    are names on which [add_link] returns normally. *)
Theorem predicted_link_can_be_added self :
  wf self ->
  (forall name1 name2,
     predict_link self None = inr (NamePair name1 name2) ->
     (add_link name1 name2 self).1 = inr tt) /\
  (forall node friend,
     predict_link self (Some node) = inr (Friend friend) ->
     (add_link node friend self).1 = inr tt).
Proof.
move=> wf_self.
have known (i : 'I_n) name : dict_get (self_name_dict self) i = Some name ->
    name \in dict_keys (self_index_dict self).
  have [node [-> get]] := wf_name i wf_self.
  by case=> <-; apply: dict_get_key get.
have added name1 name2 : name1 \in dict_keys (self_index_dict self) ->
    name2 \in dict_keys (self_index_dict self) ->
    (add_link name1 name2 self).1 = inr tt.
  move=> in1 in2; have [i [get1 _]] := wf_index wf_self in1.
  have [j [get2 _]] := wf_index wf_self in2.
  by rewrite (add_link_known get1 get2).
split=> [name1 name2|node friend].
  move=> predE; have n_gt0 : (0 < n)%N.
    move: predE; rewrite /predict_link; set M := _ + _.
    have := size_mx_flat M; case: (mx_flat M) => [|x s] //= sz _.
    by rewrite lt0n; apply/eqP=> n0; rewrite n0 in sz.
  have [i [j [x [y [predE' geti getj _ _]]]]] :=
    predict_link_least wf_self n_gt0.
  move: predE; rewrite predE' => -[<- <-].
  by apply: added; [apply: known geti | apply: known getj].
have [in_node|out] := boolP (node \in dict_keys (self_index_dict self)).
  have [i [j [x [_ -> getj _ _]]]] := predict_link_node wf_self in_node.
  by case=> <-; apply: added => //; apply: known getj.
by rewrite predict_link_unknown.
Qed.

End CallAlgebra.

(** ** The objects a client can hold *)

Section InverseDicts.

Variable F : realFieldType.
Variable n : nat.

(** On a well-formed object the two dictionaries are inverse to each
    other. *)
Lemma wf_inverse (self : LinkPredictor F n) name (i : 'I_n) :
  wf self ->
  dict_get (self_index_dict self) name = Some (val i)
  <-> dict_get (self_name_dict self) i = Some name.
Proof.
move=> wf_self; split=> [geti|getn].
  have [i' [geti' getn]] := wf_index wf_self (dict_get_key geti).
  by move: geti'; rewrite geti => -[->].
have [node [getn' geti]] := wf_name i wf_self.
by move: getn'; rewrite getn => -[->].
Qed.

End InverseDicts.

Section ReachableFacts.

Variable F : realFieldType.
Variable la_schur : schur_fun F.

(** X10: on every object that the constructor returns, and after any
    calls, the two dictionaries are inverse to each other: every name of
    the dictionary has an index below the number of nodes, and
    [name_dict] maps an index to a name exactly when [index_dict] maps
    that name to the index. *)
Theorem reachable_dicts_inverse n (self : LinkPredictor F n) :
  reachable la_schur self ->
  (forall name, name \in dict_keys (self_index_dict self) ->
     exists i : 'I_n, dict_get (self_index_dict self) name = Some (val i)) /\
  (forall name (i : 'I_n),
     dict_get (self_index_dict self) name = Some (val i)
     <-> dict_get (self_name_dict self) i = Some name).
Proof.
move/reachable_wf=> wf_self; split=> [name in_name|name i].
  by have [i [geti _]] := wf_index wf_self in_name; exists i.
exact: wf_inverse.
Qed.

(** X11: the adjacency matrix of every object that the constructor
    returns is symmetric, and it stays symmetric after any calls. *)
Theorem reachable_symmetric n (self : LinkPredictor F n) :
  reachable la_schur self -> (self_A self)^T = self_A self.
Proof.
elim=> [ff self0 /init_fields[_ _ _ foldE _]|n0 self0 c _ symA].
  have [A [foldA symA _]] := adjacency_fold F ff.
  by move: foldE; rewrite foldA => -[<-].
by case: c => [node|node1 node2] //=; apply: add_link_sym.
Qed.

End ReachableFacts.

Section RowFacts.

Variable F : realFieldType.
Variable n : nat.
Implicit Types (self : LinkPredictor F n) (node : string).

(** X12: for a name of the dictionary of a well-formed object,
    [predict_link(node)] returns the name of the column at which the row
    of the node in [R_mute], the matrix [(A + I) * 999 + R], is least; of
    the columns where it is least, the first one. *)
Theorem predict_link_row_least self node :
  wf self -> node \in dict_keys (self_index_dict self) ->
  exists (i j : 'I_n) (friend : string),
    [/\ dict_get (self_index_dict self) node = Some (val i),
        predict_link self (Some node) = inr (Friend friend),
        dict_get (self_name_dict self) j = Some friend,
        forall b : 'I_n, R_mute self i j <= R_mute self i b &
        forall b : 'I_n, (b < j)%N -> R_mute self i j < R_mute self i b].
Proof. exact: predict_link_node. Qed.

(** X13: the term [(A + I) * 999] does what it is there for when there is
    a candidate: if the resistances of the row of the node are not
    negative, its links have weight 1 at least, and some other node is
    not linked to it at a resistance below 999, then [predict_link(node)]
    returns neither the node itself nor a node that is linked to it. *)
Theorem predict_link_new_link self node (i b : 'I_n) :
  wf self ->
  dict_get (self_index_dict self) node = Some (val i) ->
  (forall c, 0 <= self_R self i c) ->
  (forall c, self_A self i c = 0 \/ 1 <= self_A self i c) ->
  b != i -> self_A self i b = 0 -> self_R self i b < 999%:R ->
  exists (j : 'I_n) (friend : string),
    [/\ predict_link self (Some node) = inr (Friend friend),
        dict_get (self_name_dict self) j = Some friend,
        friend != node,
        j != i & self_A self i j = 0].
Proof.
move=> wf_self geti R_ge0 A_nat b_i Ab Rb.
have in_node := dict_get_key geti.
have [i' [j [friend [geti' predE getj least _]]]] :=
  predict_link_node wf_self in_node.
have {geti'} i'E : i' = i by apply: val_inj; move: geti'; rewrite geti => -[].
rewrite {i'}i'E in least.
have entry c : R_mute self i c
    = 999%:R * (self_A self i c + (i == c)%:R) + self_R self i c.
  by rewrite /R_mute !mxE.
have low : R_mute self i j < 999%:R.
  apply: le_lt_trans (least b) _.
  by rewrite entry Ab eq_sym (negbTE b_i) addr0 mulr0 add0r.
have j_i : j != i.
  apply: contraTneq low => ->; rewrite -leNgt entry eqxx.
  rewrite mulrDr mulr1; have := R_ge0 i; case: (A_nat i) => [->|].
    by rewrite mulr0; lra.
  by move: (self_A self i i) (self_R self i i) => x y; lra.
have Aj : self_A self i j = 0.
  case: (A_nat j) => // Aj; move: low; rewrite entry eq_sym (negbTE j_i) addr0.
  have := R_ge0 j.
  by move: (self_A self i j) (self_R self i j) Aj => x y; lra.
exists j, friend; split=> //.
apply: contraNneq j_i => friend_node; apply/eqP/val_inj.
have /(wf_inverse friend j wf_self) := getj.
by rewrite friend_node geti => -[].
Qed.

(** X28: when the matrix [R_mute] of a well-formed object with at least
    one node is symmetric, [predict_link()] returns a pair whose first
    name has the smaller index, or the same one: a pair that comes back
    in the other order shows that the stored [R] is not symmetric. *)
Theorem predict_link_ordered_pair self :
  wf self -> (0 < n)%N -> (R_mute self)^T = R_mute self ->
  exists (i j : 'I_n) (name1 name2 : string),
    [/\ predict_link self None = inr (NamePair name1 name2),
        dict_get (self_name_dict self) i = Some name1,
        dict_get (self_name_dict self) j = Some name2 &
        (i <= j)%N].
Proof.
move=> wf_self n_gt0 symR.
have [i [j [name1 [name2 [predE geti getj _ first]]]]] :=
  predict_link_least wf_self n_gt0.
exists i, j, name1, name2; split=> //.
rewrite leqNgt; apply/negP=> lt_ji.
have Rji : R_mute self j i = R_mute self i j by rewrite -[in LHS]symR mxE.
have lt : (j * n + i < i * n + j)%N.
  apply: (@leq_trans (j.+1 * n)); first by rewrite mulSn addnC ltn_add2r.
  by rewrite (leq_trans _ (leq_addr _ _)) // leq_mul2r lt_ji orbT.
by have := first j i lt; rewrite Rji ltxx.
Qed.

End RowFacts.

(** ** More about [is_drazin] *)

Section DrazinTest.

Variable F : realFieldType.
Variable n : nat.
Implicit Types (A U Ak Ad : 'M[F]_n).

(** X15: [is_drazin] accepts the inverse of an invertible matrix, with
    any [k]. *)
Theorem is_drazin_inverse A k : A \in unitmx -> is_drazin A (invmx A) k.
Proof.
move=> unitA; apply: is_drazin_exact.
- by rewrite mulmxV // mulVmx.
- by rewrite matrix_powerSr mulmxK.
- by rewrite mulVmx // mul1mx.
Qed.

Lemma matrix_power0 k : matrix_power (0 : 'M[F]_n) k.+1 = 0.
Proof. by rewrite matrix_powerS mul0mx. Qed.

(** X16: [is_drazin] tests the identities up to the tolerances of
    [np.allclose]: for the zero matrix and [k >= 1] it accepts [Ad] exactly
    when every entry of [Ad] is within [atol + rtol * |entry|] of zero,
    though the Drazin inverse of the zero matrix is the zero matrix
    only. *)
Theorem is_drazin_zero Ad k :
  is_drazin 0 Ad k.+1
  = [forall i, [forall j, `|Ad i j| <= atol F + rtol F * `|Ad i j|]].
Proof.
rewrite /is_drazin !matrix_power0 !mul0mx !mulmx0 mul0mx !allclose_refl /=.
apply: eq_forallb => i; apply: eq_forallb => j.
by rewrite /isclose mxE sub0r normrN.
Qed.

End DrazinTest.

(** ** More about the Laplacians and the resistances *)

Section LaplacianSums.

Variable F : realFieldType.
Variable n : nat.
Implicit Types (A B : 'M[F]_n).

(** X17: every row of [laplacian(A)] sums to zero, and so does every
    column of the Laplacian that [effective_resistance] computes, which
    is the transpose of [laplacian] of the transpose of [A], for every
    square [A]. *)
Theorem laplacian_sums A :
  [/\ forall i, \sum_j laplacian A i j = 0,
      csg_laplacian A = (laplacian A^T)^T &
      forall j, \sum_i csg_laplacian A i j = 0].
Proof.
have rows B i : \sum_j laplacian B i j = 0.
  rewrite (eq_bigr (fun j => (if j == i then \sum_k B i k else 0) - B i j));
    first by move=> j _; rewrite laplacianE eq_sym.
  by rewrite sumrB -big_mkcond /= big_pred1_eq subrr.
have csgE : csg_laplacian A = (laplacian A^T)^T.
  apply/matrixP=> i j; rewrite !mxE eq_sym.
  case: eqP => [->|_]; last by rewrite sub0r.
  rewrite [in RHS](bigD1 i) //= mxE addrAC subrr add0r.
  by apply: eq_bigr => k _; rewrite mxE.
by split=> // j; apply: csg_laplacian_col_sum.
Qed.

End LaplacianSums.

Section ResistanceMore.

Variable F : realFieldType.
Variable la_schur : schur_fun F.
Variable n : nat.
Implicit Types (A B : 'M[F]_n).

(** X18: [effective_resistance] does not read the diagonal of [A]: two
    arrays that agree off the diagonal have the same outcome.  A line
    [a,a] of the file has no effect on the resistances. *)
Theorem effective_resistance_off_diagonal A B :
  (forall i j, i != j -> A i j = B i j) ->
  effective_resistance la_schur A = effective_resistance la_schur B.
Proof.
move=> same; rewrite /effective_resistance.
suff -> : csg_laplacian A = csg_laplacian B by [].
apply/matrixP=> i j; rewrite !mxE; case: eqP => [_|/eqP ne_ij].
  by apply: eq_bigr => k ne_ki; rewrite same.
by rewrite same.
Qed.

(** X19: when [la.schur] meets its contract and every eigenvalue of every
    grounded Laplacian is above the tolerance of [drazin_inverse], the
    grounded Laplacians are invertible and the entry [(i, j)] of the
    result of [effective_resistance] is the entry [(j, j)] of the inverse
    of the Laplacian grounded at [i], less 1 on the diagonal. *)
Theorem effective_resistance_inverse A :
  (forall j, schur_ok (grounded A j) (fun x => drazin_tol F < `|x|)
               (la_schur (grounded A j) (fun x => drazin_tol F < `|x|))) ->
  (forall j x, root (char_poly (grounded A j)) x -> drazin_tol F < `|x|) ->
  exists R,
    [/\ effective_resistance la_schur A = Some R,
        forall i, grounded A i \in unitmx &
        forall i j, R i j = invmx (grounded A i) j j - (i == j)%:R].
Proof.
move=> ok large.
have inv j := drazin_inverse_large (ltW (drazin_tol_gt0 F)) (ok j) (large j).
exists (\matrix_(j, c) invmx (grounded A j) c c - 1%:M); split.
- by apply: effective_resistance_rows => j; case: (inv j).
- by move=> i; case: (inv i).
by move=> i j; rewrite !mxE.
Qed.

End ResistanceMore.

Section TwoNodesResistance.

Variable F : realFieldType.
Variable la_schur : schur_fun F.

(** X20: for two nodes joined by a link of weight [w] above the tolerance
    of [drazin_inverse], and a [la.schur] that meets its contract,
    [effective_resistance] returns the resistance [1/w] between the two
    nodes, and [0] on the diagonal. *)
Theorem effective_resistance_two_nodes (w : F) :
  drazin_tol F < w ->
  (forall j, schur_ok (grounded (two_nodes w) j) (fun x => drazin_tol F < `|x|)
       (la_schur (grounded (two_nodes w) j) (fun x => drazin_tol F < `|x|))) ->
  effective_resistance la_schur (two_nodes w)
    = Some (\matrix_(i, j) if i == j then 0 else w^-1).
Proof. by move=> w_large ok; apply: two_nodes_resistance w_large _ ok. Qed.

End TwoNodesResistance.

(** ** More about [drazin_inverse] *)

Section BlockEigen.

Variable F : realFieldType.
Variables k m : nat.
Variables (M : 'M[F]_k) (N : 'M[F]_m).
Hypothesis unitM : M \in unitmx.

Let B : 'M[F]_(k + m) := block_mx M 0 0 N.
Let Zb : 'M[F]_(k + m) := block_mx (invmx M) 0 0 0.

(** An eigenvector of the block form for a value that is not an
    eigenvalue of the second block lies in the first block, where the
    block inverse inverts. *)
Lemma block_eigen_large (v : 'cV[F]_(k + m)) x :
  N - x%:M \in unitmx -> B *m v = x *: v -> Zb *m v = x^-1 *: v.
Proof.
move=> unitN; rewrite -[v]vsubmxK /B /Zb !mul_block_col scale_col_mx.
rewrite !mul0mx !addr0 !add0r => /eq_col_mx[Ma Nb].
have b0 : dsubmx v = 0.
  apply: (can_inj (mulKmx unitN)).
  by rewrite mulmx0 mulmxBl Nb mul_scalar_mx subrr.
rewrite b0 scale_col_mx scaler0; congr (col_mx _ _).
have [x0|x_ne0] := eqVneq x 0.
  have a0 : usubmx v = 0.
    by apply: (can_inj (mulKmx unitM)); rewrite Ma x0 scale0r mulmx0.
  by rewrite a0 mulmx0 scaler0.
apply: (can_inj (mulKmx unitM)); rewrite mulKVmx //.
by rewrite -scalemxAr Ma scalerA mulVf // scale1r.
Qed.

(** An eigenvector for a value that is not an eigenvalue of the first
    block lies in the second block, which the block inverse annihilates. *)
Lemma block_eigen_small (v : 'cV[F]_(k + m)) x :
  M - x%:M \in unitmx -> B *m v = x *: v -> Zb *m v = 0.
Proof.
move=> unitMx; rewrite -[v]vsubmxK /B /Zb !mul_block_col scale_col_mx.
rewrite !mul0mx !addr0 !add0r => /eq_col_mx[Ma Nb].
have a0 : usubmx v = 0.
  apply: (can_inj (mulKmx unitMx)).
  by rewrite mulmx0 mulmxBl Ma mul_scalar_mx subrr.
by rewrite a0 mulmx0 -col_mx0.
Qed.

End BlockEigen.

Section DrazinSpectrum.

Variable F : realFieldType.
Variable la_schur : schur_fun F.

Lemma upper_sub_unit m (N : 'M[F]_m) x :
  is_trig_mx N^T -> (forall j, N j j != x) -> N - x%:M \in unitmx.
Proof.
move=> trigN diagN; apply: upper_unit => [|i]; first exact: upper_sub_scalar.
by rewrite !mxE eqxx mulr1n subr_eq0.
Qed.

Lemma drazin_inverse_eigen_cast k m n (e : (k + m)%N = n) (A : 'M[F]_n)
    (tol : F) :
  0 <= tol ->
  schur_ok A (fun x => tol < `|x|) (la_schur A (fun x => tol < `|x|)) ->
  schur_ok A (fun x => `|x| <= tol) (la_schur A (fun x => `|x| <= tol)) ->
  (la_schur A (fun x => tol < `|x|)).2 = k ->
  exists2 Ad, drazin_inverse la_schur A tol = Some Ad &
    forall (v : 'cV[F]_n) x, A *m v = x *: v ->
      Ad *m v = if tol < `|x| then x^-1 *: v else 0.
Proof.
case: _ / e A => A tol_ge0 ok ok' sdim_k.
have unitU := core_unit_basis ok ok' sdim_k.
have unitM := core_unit_block tol_ge0 ok sdim_k.
have AU := core_eq ok ok'.
have trigN := core_upper ok'.
have small := core_small ok ok' sdim_k.
have large := core_large ok sdim_k.
have [_ _ trigT _ _] := ok.
have trigM := lead_sq_upper (leq_addr m k) trigT.
eexists; first exact: drazin_inverse_block.
move=> v x Av; set U := core_basis _ _ in unitU AU *.
have Bw : block_mx (lead_sq (leq_addr m k) (la_schur A (fun x => tol < `|x|)).1.1)
            0 0
            (lead_sq (leq_addl k m) (la_schur A (fun x => `|x| <= tol)).1.1)
          *m (invmx U *m v) = x *: (invmx U *m v).
  by rewrite mulmxA -(conj_left unitU AU) -mulmxA Av scalemxAr.
rewrite -!mulmxA; case: ifPn => [x_large|x_small].
  rewrite (block_eigen_large unitM _ Bw) -?scalemxAr ?mulKVmx //.
  apply: upper_sub_unit => // j; apply: contraTneq x_large => <-.
  by rewrite -leNgt.
rewrite (block_eigen_small _ Bw) ?mulmx0 //.
apply: upper_sub_unit => // i; apply: contraNneq x_small => <-.
exact: large.
Qed.

Variable n : nat.
Implicit Types (A : 'M[F]_n) (tol : F).

(** X21: under the contract of [la.schur], [drazin_inverse] returns a
    matrix that inverts [A] on its eigenvectors for the eigenvalues above
    the tolerance, and sends to zero its eigenvectors for the eigenvalues
    within the tolerance, also when such an eigenvalue is not zero. *)
Theorem drazin_inverse_spectrum A tol :
  0 <= tol ->
  schur_ok A (fun x => tol < `|x|) (la_schur A (fun x => tol < `|x|)) ->
  schur_ok A (fun x => `|x| <= tol) (la_schur A (fun x => `|x| <= tol)) ->
  exists2 Ad, drazin_inverse la_schur A tol = Some Ad &
    forall (v : 'cV[F]_n) x, A *m v = x *: v ->
      Ad *m v = if tol < `|x| then x^-1 *: v else 0.
Proof.
move=> tol_ge0 ok ok'; have [_ _ _ le_n _] := ok.
exact: (drazin_inverse_eigen_cast (subnKC le_n)).
Qed.

(** X22: under the contract of [la.schur] on its first call, on a matrix
    whose eigenvalues are all above the tolerance [drazin_inverse]
    returns the inverse. *)
Theorem drazin_inverse_invertible A tol :
  0 <= tol ->
  schur_ok A (fun x => tol < `|x|) (la_schur A (fun x => tol < `|x|)) ->
  (forall x, root (char_poly A) x -> tol < `|x|) ->
  A \in unitmx /\ drazin_inverse la_schur A tol = Some (invmx A).
Proof. exact: drazin_inverse_large. Qed.

(** X23: under the contract of [la.schur], on a matrix whose eigenvalues
    are all within the tolerance [drazin_inverse] returns the zero
    matrix, whether the matrix is singular or not. *)
Theorem drazin_inverse_negligible A tol :
  schur_ok A (fun x => tol < `|x|) (la_schur A (fun x => tol < `|x|)) ->
  schur_ok A (fun x => `|x| <= tol) (la_schur A (fun x => `|x| <= tol)) ->
  (forall x, root (char_poly A) x -> `|x| <= tol) ->
  drazin_inverse la_schur A tol = Some 0.
Proof. exact: drazin_inverse_small. Qed.

End DrazinSpectrum.

Section SchurIndependent.

Variable F : realFieldType.
Variable n : nat.

(** X24: the result of [drazin_inverse] does not depend on which Schur
    decompositions [la.schur] returns: two functions that meet the
    contract on the two calls give the same matrix, when the eigenvalues
    within the tolerance are exactly zero. *)
Theorem drazin_inverse_schur_independent (la_schur1 la_schur2 : schur_fun F)
    (A : 'M[F]_n) (tol : F) :
  0 <= tol ->
  schur_ok_on la_schur1 A tol -> schur_ok_on la_schur2 A tol ->
  (forall x, root (char_poly A) x -> `|x| <= tol -> x = 0) ->
  drazin_inverse la_schur1 A tol = drazin_inverse la_schur2 A tol.
Proof.
move=> tol_ge0 [ok1 ok1'] [ok2 ok2'] small0.
have [Ad1 -> [comm1 outer1 power1 _]] := drazin_inverse_core tol_ge0 ok1 ok1'.
have [Ad2 -> [comm2 outer2 power2 _]] := drazin_inverse_core tol_ge0 ok2 ok2'.
have stable := index_rank_stable A 0.
congr Some; apply: (drazin_unique comm1 outer1 _ comm2 outer2).
  exact: power1 small0 _ stable.
exact: power2 small0 _ stable.
Qed.

End SchurIndependent.

(** ** The statements with a premise, at concrete inputs *)

Section MoreEvaluations.

(** [init_text_render] on the file with the line [a,b]. *)
Lemma init_text_render_witness :
  all (fun p => plain p.1 && plain p.2) ff_ab /\
  (read_rows (render ff_ab) = [:: [:: "a"%string; "b"%string]] /\
   init_text (@schur_ref rat) (render ff_ab)
   = (self <- init (@schur_ref rat) ff_ab ;; ret (existT _ _ self))).
Proof.
by split; [|apply: (@init_text_render rat (@schur_ref rat) ff_ab)].
Defined.

(** [read_rows_last_line] on the text of two lines, the second one not
    ended. *)
Lemma read_rows_last_line_witness :
  ~~ has_char newline "c,d" /\
  (read_rows "c,d" = [::] /\
   read_rows (append "a,b" (String newline "c,d"))
   = [:: [:: "a"%string; "b"%string]]).
Proof. by split; [|apply: (@read_rows_last_line "a,b" "c,d")]. Defined.

(** The object built from the file with the line [a,b] is reachable. *)
Lemma reachable_self_ab : reachable (@schur_ref rat) (self_ab rat).
Proof.
apply: (@reachable_init _ _ ff_ab); apply: init_ab => j.
exact: schur_ref_two_nodes (drazin_tol_lt1 rat).
Qed.

Lemma predicted_link_can_be_added_witness :
  wf (self_ab rat) /\
  ((forall name1 name2,
      predict_link (self_ab rat) None = inr (NamePair name1 name2) ->
      (add_link name1 name2 (self_ab rat)).1 = inr tt) /\
   (forall node friend,
      predict_link (self_ab rat) (Some node) = inr (Friend friend) ->
      (add_link node friend (self_ab rat)).1 = inr tt)).
Proof.
by split; [|apply: (@predicted_link_can_be_added rat 2 (self_ab rat))].
Defined.

Lemma reachable_dicts_inverse_witness :
  (forall name, name \in dict_keys (self_index_dict (self_ab rat)) ->
     exists i : 'I_2,
       dict_get (self_index_dict (self_ab rat)) name = Some (val i)) /\
  (forall name (i : 'I_2),
     dict_get (self_index_dict (self_ab rat)) name = Some (val i)
     <-> dict_get (self_name_dict (self_ab rat)) i = Some name).
Proof. exact: (reachable_dicts_inverse reachable_self_ab). Defined.

Lemma reachable_symmetric_witness :
  (self_A (self_ab rat))^T = self_A (self_ab rat).
Proof. exact: (reachable_symmetric reachable_self_ab). Defined.

Lemma predict_link_row_least_witness :
  exists (i j : 'I_2) (friend : string),
    [/\ dict_get (self_index_dict (self_ab rat)) "a"%string = Some (val i),
        predict_link (self_ab rat) (Some "a"%string) = inr (Friend friend),
        dict_get (self_name_dict (self_ab rat)) j = Some friend,
        forall b : 'I_2,
          R_mute (self_ab rat) i j <= R_mute (self_ab rat) i b &
        forall b : 'I_2, (b < j)%N ->
          R_mute (self_ab rat) i j < R_mute (self_ab rat) i b].
Proof. exact: (@predict_link_row_least rat 2 (self_ab rat) "a"). Defined.

Lemma is_drazin_inverse_witness :
  (1%:M : 'M[rat]_2) \in unitmx /\
  is_drazin (1%:M : 'M[rat]_2) (invmx 1%:M) 3.
Proof.
have unit1 := unitmx1 rat 2.
by split; [|apply: is_drazin_inverse].
Defined.

(** [effective_resistance_off_diagonal]: two nodes and one link, with and
    without loops at the nodes. *)
Lemma effective_resistance_off_diagonal_witness :
  (forall i j : 'I_2, i != j -> two_nodes 1 i j = (const_mx 1 : 'M[rat]_2) i j)
  /\ effective_resistance (@schur_ref rat) (two_nodes 1)
     = effective_resistance (@schur_ref rat) (const_mx 1 : 'M[rat]_2).
Proof.
have same (i j : 'I_2) : i != j ->
    two_nodes 1 i j = (const_mx 1 : 'M[rat]_2) i j.
  by move=> ne_ij; rewrite !mxE (negbTE ne_ij).
by split; [|apply: effective_resistance_off_diagonal].
Defined.

Lemma effective_resistance_inverse_witness :
  exists R : 'M[rat]_2,
    [/\ effective_resistance (@schur_ref rat) (two_nodes 1) = Some R,
        forall i, grounded (two_nodes (1 : rat)) i \in unitmx &
        forall i j,
          R i j = invmx (grounded (two_nodes 1) i) j j - (i == j)%:R].
Proof.
apply: effective_resistance_inverse => j.
  exact: schur_ref_two_nodes (drazin_tol_lt1 rat).
exact: two_nodes_root (drazin_tol_lt1 rat) j.
Defined.

Lemma effective_resistance_two_nodes_witness :
  drazin_tol rat < 2%:R /\
  effective_resistance (@schur_ref rat) (two_nodes 2%:R)
    = Some (\matrix_(i, j) if i == j then 0 else 2%:R^-1).
Proof.
split; first exact: two_gt_tol.
apply: effective_resistance_two_nodes (two_gt_tol rat) _ => j.
exact: schur_ref_two_nodes (two_gt_tol rat).
Defined.

(** [drazin_inverse_spectrum] on [[1e-5]]: its eigenvalue is not zero,
    and within the tolerance. *)
Lemma drazin_inverse_spectrum_witness :
  exists2 Ad,
    drazin_inverse (@schur_ref rat) (small_scalar rat) (drazin_tol rat)
    = Some Ad &
    forall (v : 'cV[rat]_1) x, small_scalar rat *m v = x *: v ->
      Ad *m v = if drazin_tol rat < `|x| then x^-1 *: v else 0.
Proof.
apply: drazin_inverse_spectrum.
- exact: ltW (drazin_tol_gt0 rat).
- exact: schur_ref_small_scalar.
- exact: schur_ref_small_scalar.
Defined.

Lemma drazin_inverse_invertible_witness :
  grounded (two_nodes (1 : rat)) ord0 \in unitmx /\
  drazin_inverse (@schur_ref rat) (grounded (two_nodes 1) ord0)
    (drazin_tol rat)
  = Some (invmx (grounded (two_nodes 1) ord0)).
Proof.
apply: drazin_inverse_invertible.
- exact: ltW (drazin_tol_gt0 rat).
- exact: schur_ref_two_nodes (drazin_tol_lt1 rat).
- exact: two_nodes_root (drazin_tol_lt1 rat) ord0.
Defined.

Lemma drazin_inverse_negligible_witness :
  drazin_inverse (@schur_ref rat) (small_scalar rat) (drazin_tol rat)
  = Some 0.
Proof.
apply: drazin_inverse_negligible.
- exact: schur_ref_small_scalar.
- exact: schur_ref_small_scalar.
- exact: small_scalar_root.
Defined.

Lemma nil_two_of : nil_two rat = mx_of 2 [:: [:: 0; 0]; [:: 1; 0]].
Proof.
apply/matrixP=> i j; rewrite !mxE.
by elim/ord2_cases: i; elim/ord2_cases: j.
Qed.

(** The table holds a Schur decomposition of the nilpotent matrix, sorted
    by any predicate. *)
Lemma nil_table_ok (sort : rat -> bool) :
  schur_ok (nil_two rat) sort (schur_tab nil_table (nil_two rat) sort).
Proof.
apply: schur_tab_ok; apply/hasP; eexists; first exact: mem_head.
apply/and4P; split.
- by rewrite nil_two_of !mx_of_mul; apply/eqP; congr (mx_of _ _); apply/eqP;
    vm_compute.
- by vm_compute.
- by vm_compute.
by rewrite /seq_sorted /seq_diag /= /seq_entry /=; case: (sort 0).
Qed.

(** [drazin_inverse_schur_independent] on the nilpotent matrix, with the
    decomposition in the reversed basis and the one of the table. *)
Lemma drazin_inverse_schur_independent_witness :
  drazin_inverse (@schur_ref rat) (nil_two rat) (drazin_tol rat)
  = drazin_inverse (schur_tab nil_table) (nil_two rat) (drazin_tol rat).
Proof.
apply: drazin_inverse_schur_independent.
- exact: ltW (drazin_tol_gt0 rat).
- by split; apply: schur_ref_nil_two.
- by split; apply: nil_table_ok.
- by move=> x /nil_two_root.
Defined.

(** The object built from the file [a,b], [c,d], [c,d]: the first row of
    its resistance matrix. *)
Lemma init_abcd :
  exists self : LinkPredictor rat 4,
    [/\ init (schur_tab four_table) ff_abcd = inr self,
        self_A self = four_nodes &
        forall c, self_R self (@node4 0 isT) c
                  = mx_of 4 four_drazin0 c c - (@node4 0 isT == c)%:R].
Proof.
have [D [drazinE _ resE]] := effective_resistance_ok four_table_ok.
have D0 : D (@node4 0 isT) = mx_of 4 four_drazin0.
  by apply: Some_inj; rewrite -drazinE; apply: four_drazin; vm_compute.
eexists; split; first by rewrite /init adjacency_abcd /= resE.
  by [].
by move=> c; rewrite /= !mxE D0 mxE.
Qed.

(** [predict_link_new_link] on that object, for the node [a]: the node [c]
    is not linked to it. *)
Lemma predict_link_new_link_witness :
  exists (self : LinkPredictor rat 4) (j : 'I_4) (friend : string),
    init (schur_tab four_table) ff_abcd = inr self /\
    [/\ predict_link self (Some "a"%string) = inr (Friend friend),
        dict_get (self_name_dict self) j = Some friend,
        friend != "a"%string,
        j != @node4 0 isT & self_A self (@node4 0 isT) j = 0].
Proof.
have [self [initE AE RE]] := init_abcd.
have [idxE _ _ _ _] := init_fields initE.
have geta : dict_get (self_index_dict self) "a"%string
    = Some (val (@node4 0 isT)) by rewrite idxE.
have R_ge0 c : 0 <= self_R self (@node4 0 isT) c.
  by rewrite RE mxE; elim/ord4_cases: c; vm_compute.
have A_nat c : self_A self (@node4 0 isT) c = 0
    \/ 1 <= self_A self (@node4 0 isT) c.
  rewrite AE mxE.
  by elim/ord4_cases: c; [left | right | left | left]; vm_compute.
have Ac : self_A self (@node4 0 isT) (@node4 2 isT) = 0 by rewrite AE mxE.
have Rc : self_R self (@node4 0 isT) (@node4 2 isT) < 999%:R.
  by rewrite RE mxE; vm_compute.
have [j [friend [predE getj ne_friend ne_j Aj]]] :=
  @predict_link_new_link rat 4 self "a" (@node4 0 isT) (@node4 2 isT)
    (init_wf initE) geta R_ge0 A_nat isT Ac Rc.
by exists self, j, friend.
Defined.

(** [predict_link_ordered_pair] on the object built from the file with
    the line [a,b]. *)
Lemma predict_link_ordered_pair_witness :
  exists (i j : 'I_2) (name1 name2 : string),
    [/\ predict_link (self_ab rat) None = inr (NamePair name1 name2),
        dict_get (self_name_dict (self_ab rat)) i = Some name1,
        dict_get (self_name_dict (self_ab rat)) j = Some name2 &
        (i <= j)%N].
Proof.
apply: predict_link_ordered_pair => //.
by apply/matrixP=> a b; rewrite mxE !R_mute_ab eq_sym.
Defined.

End MoreEvaluations.
